(** * WaitFor: promise-returning waits on a live instance tree

    A shallow embedding of [src/index.ts].  The module exports seven
    functions; each one makes a synchronous check and, when the check fails,
    builds a promise out of the Promise library's combinators
    ([fromEvent], [race], [all], [then], [timeout]) and of signal
    connections of the host engine.

    The host and the Promise library are not part of the repository; they
    are modelled here as the functions of this file use them:
    - the engine keeps a table of connections and delivers one event at a
      time, running the connected callbacks to completion; an exception in
      a callback ends that callback and nothing else;
    - a promise is a tree of combinators over pending listeners; callbacks
      chained with [then] run synchronously when their promise settles,
      and the losers of a [race] or of a failed [all] are cancelled, which
      disconnects their listeners;
    - time is the host's clock, in seconds; a timer fires at the first
      passing of time that finds the clock past its deadline, and a delay
      of less than a sixtieth of a second is one of a sixtieth. *)

From Stdlib Require Import String List Bool Arith Lia QArith Lqa.
Import ListNotations.
Open Scope string_scope.
Open Scope list_scope.

Set Implicit Arguments.
Set Warnings "-register-all".


(** ** The host's data *)

(** An instance as the functions of the module see it when they look it
    up: a node of the tree with its identity, the properties that are read
    ([Name], [ClassName], the class chain behind [IsA]) and its children. *)
Inductive Instance : Type := mkInstance {
  uid : nat;
  Name : string;
  ClassName : string;
  Superclasses : list string;
  Children : list Instance
}.

(** Runtime values: what a promise resolves with, what a signal passes to
    its callbacks and what a caller's predicate returns. *)
Inductive value : Type :=
| VUndefined
| VBool (b : bool)
| VString (s : string)
| VInstance (i : Instance)
| VArray (l : list value).

Definition is_undefined (v : value) : bool :=
  match v with VUndefined => true | _ => false end.

Definition of_option (o : option Instance) : value :=
  match o with Some i => VInstance i | None => VUndefined end.

(** The result of running caller code: a returned value or an exception. *)
Inductive completion (A : Type) : Type :=
| Normal (a : A)
| Throw (exn : value).
Arguments Normal {A} a.
Arguments Throw {A} exn.

(** Rejection values.  [Destroyed] is [WaitForError.Destroyed];
    [TimedOut] is the library's error of kind TimedOut, the rejection of
    [timeout]; [Thrown] carries any other value. *)
Inductive error : Type :=
| Destroyed
| TimedOut
| Thrown (exn : value).

(** What a callback can be connected to.  [SigTimer] is the library's
    delayed callback; it is kept in the same table as the signal
    connections so that it is counted with them. *)
Inductive source : Type :=
| SigChildAdded (i : nat)
| SigDescendantAdded (i : nat)
| SigDestroying (i : nat)
| SigPropertyChanged (i : nat) (property : string)
| SigChanged (i : nat)
| SigAttributeChanged (i : nat) (attribute : string)
| SigHeartbeat
| SigTimer (deadline : Q).

Definition ChildAdded (i : Instance) : source := SigChildAdded (uid i).
Definition DescendantAdded (i : Instance) : source := SigDescendantAdded (uid i).
Definition Destroying (i : Instance) : source := SigDestroying (uid i).
Definition GetPropertyChangedSignal (i : Instance) (property : string) : source :=
  SigPropertyChanged (uid i) property.
Definition Changed (i : Instance) : source := SigChanged (uid i).

(** The callback behind a connection: the listener of a pending promise,
    or the closure [() => { destroyed = true }] of [waitForChildren]. *)
Inductive callback : Type :=
| PromiseListener
| SetDestroyed.

Record connection : Type := mkConnection {
  signal : source;
  handler : callback;
  Connected : bool
}.

(** ** The state threaded through the code *)

Record env : Type := mkEnv {
  now : Q;                                  (* the host's clock, in seconds *)
  connections : list connection;            (* every Connect made so far *)
  primaryPart : nat -> option Instance;     (* Model.PrimaryPart *)
  objectValue : nat -> option Instance;     (* ObjectValue.Value *)
  destroyed : bool;                         (* local of waitForChildren *)
  destroying : list nat;                    (* local of waitForChildren *)
  calls : nat                               (* invocations of the predicate *)
}.

Definition set_now (t : Q) (s : env) : env :=
  mkEnv t (connections s) (primaryPart s) (objectValue s) (destroyed s) (destroying s) (calls s).
Definition set_connections (cs : list connection) (s : env) : env :=
  mkEnv (now s) cs (primaryPart s) (objectValue s) (destroyed s) (destroying s) (calls s).
Definition set_primaryPart (f : nat -> option Instance) (s : env) : env :=
  mkEnv (now s) (connections s) f (objectValue s) (destroyed s) (destroying s) (calls s).
Definition set_objectValue (f : nat -> option Instance) (s : env) : env :=
  mkEnv (now s) (connections s) (primaryPart s) f (destroyed s) (destroying s) (calls s).
Definition set_destroyed (b : bool) (s : env) : env :=
  mkEnv (now s) (connections s) (primaryPart s) (objectValue s) b (destroying s) (calls s).
Definition set_destroying (l : list nat) (s : env) : env :=
  mkEnv (now s) (connections s) (primaryPart s) (objectValue s) (destroyed s) l (calls s).
Definition set_calls (n : nat) (s : env) : env :=
  mkEnv (now s) (connections s) (primaryPart s) (objectValue s) (destroyed s) (destroying s) n.

(** A state monad over [env]. *)
Definition M (A : Type) : Type := env -> A * env.

Definition ret {A} (a : A) : M A := fun s => (a, s).
Definition bind {A B} (m : M A) (k : A -> M B) : M B :=
  fun s => let (a, s') := m s in k a s'.
Definition gets {A} (f : env -> A) : M A := fun s => (f s, s).
Definition modify (f : env -> env) : M unit := fun s => (tt, f s).

Notation "x <- m ;; k" := (bind m (fun x => k))
  (at level 61, m at next level, right associativity).
Notation "m ;;; k" := (bind m (fun _ => k))
  (at level 61, right associativity).

Fixpoint mapM {A B} (f : A -> M B) (l : list A) : M (list B) :=
  match l with
  | [] => ret []
  | a :: r => b <- f a ;; bs <- mapM f r ;; ret (b :: bs)
  end.

Fixpoint forM_ {A} (l : list A) (f : A -> M unit) : M unit :=
  match l with
  | [] => ret tt
  | a :: r => f a ;;; forM_ r f
  end.

(** ** Connections *)

Fixpoint set_nth {A} (n : nat) (f : A -> A) (l : list A) : list A :=
  match l, n with
  | [], _ => []
  | a :: r, O => f a :: r
  | a :: r, S n' => a :: set_nth n' f r
  end.

(** [signal.Connect(callback)]: a new entry of the table; the connection
    is known by its index. *)
Definition Connect (src : source) (h : callback) : M nat :=
  fun s => (List.length (connections s),
            set_connections (connections s ++ [mkConnection src h true]) s).

(** [connection.Disconnect()]. *)
Definition Disconnect (c : nat) : M unit :=
  modify (fun s =>
    set_connections
      (set_nth c (fun cn => mkConnection (signal cn) (handler cn) false) (connections s)) s).

Definition is_connected (c : nat) (s : env) : bool :=
  match nth_error (connections s) c with
  | Some cn => Connected cn
  | None => false
  end.

(** ** Promises *)

(** A promise is settled ([Resolved], [Rejected], [Cancelled]) or pending.
    A pending promise is a listener, waiting for its connection [c] to
    fire (its callback [listen] then says whether and how the promise
    settles, and its cancellation hook disconnects [c]), or a combinator
    over pending promises. *)
Inductive promise : Type :=
| Resolved (v : value)
| Rejected (e : error)
| Cancelled
| Listening (c : nat) (src : source) (listen : value -> env -> option promise * env)
| AndThen (p : promise) (k : value -> env -> promise * env)
| Race (ps : list promise)
| All (ps : list promise).

Definition is_settled (p : promise) : bool :=
  match p with
  | Resolved _ | Rejected _ | Cancelled => true
  | _ => false
  end.

Definition is_pending (p : promise) : bool := negb (is_settled p).

(** [promise:cancel()]: runs the cancellation hooks of the listeners below. *)
Fixpoint cancel (p : promise) : M unit :=
  match p with
  | Listening c _ _ => Disconnect c
  | AndThen q _ => cancel q
  | Race ps | All ps =>
      (fix cancel_each (l : list promise) : M unit :=
         match l with
         | [] => ret tt
         | q :: r => cancel q ;;; cancel_each r
         end) ps
  | Resolved _ | Rejected _ | Cancelled => ret tt
  end.

Definition cancel_each (l : list promise) : M unit := forM_ l cancel.

Fixpoint first_decided (l : list promise) : option promise :=
  match l with
  | [] => None
  | Resolved v :: _ => Some (Resolved v)
  | Rejected e :: _ => Some (Rejected e)
  | _ :: r => first_decided r
  end.

Fixpoint first_rejected (l : list promise) : option error :=
  match l with
  | [] => None
  | Rejected e :: _ => Some e
  | _ :: r => first_rejected r
  end.

Fixpoint resolved_values (l : list promise) : option (list value) :=
  match l with
  | [] => Some []
  | Resolved v :: r =>
      match resolved_values r with
      | Some vs => Some (v :: vs)
      | None => None
      end
  | _ :: _ => None
  end.

Module Promise.

Definition resolve (v : value) : M promise := ret (Resolved v).
Definition reject (e : error) : M promise := ret (Rejected e).

(** [p.then(k)] (the library's [andThen]) with a success handler only:
    on an already resolved promise the handler runs at once; a rejection
    passes through; the promise returned by the handler is chained. *)
Definition andThen (p : promise) (k : value -> M promise) : M promise :=
  match p with
  | Resolved v => k v
  | Rejected e => ret (Rejected e)
  | Cancelled => ret Cancelled
  | _ => ret (AndThen p k)
  end.

(** [Promise.race(ps)]: the first promise to resolve or to reject decides;
    the others are cancelled. *)
Definition race (ps : list promise) : M promise :=
  match first_decided ps with
  | Some r => cancel_each ps ;;; ret r
  | None => ret (Race ps)
  end.

(** [Promise.all(ps)]: resolved with the values, in the order of [ps],
    once every promise is resolved (at once for no promise at all);
    rejected by the first rejection, which cancels the others. *)
Definition all (ps : list promise) : M promise :=
  match first_rejected ps with
  | Some e => cancel_each ps ;;; ret (Rejected e)
  | None =>
      match resolved_values ps with
      | Some vs => ret (Resolved (VArray vs))
      | None => ret (All ps)
      end
  end.

(** [Promise.fromEvent(signal, predicate)]: connects a listener; on the
    first firing that the predicate accepts, the listener is disconnected
    and the promise resolves with the arguments of the firing. *)
Definition on_firing (c : nat) (predicate : value -> M bool) (args : value)
  : M (option promise) :=
  ok <- predicate args ;;
  if ok then Disconnect c ;;; ret (Some (Resolved args)) else ret None.

Definition fromEvent (src : source) (predicate : value -> M bool) : M promise :=
  c <- Connect src PromiseListener ;;
  ret (Listening c src (on_firing c predicate)).

(** The time [Promise.delay(seconds)] waits: [seconds], or a sixtieth of
    a second if [seconds] is less. *)
Definition delay_time (seconds : Q) : Q :=
  if Qle_bool (1 # 60) seconds then seconds else 1 # 60.

(** [p.timeout(seconds)]: a race of [p] against a delayed rejection with
    the library's TimedOut error.  The timer of the delay is set to the
    clock plus [delay_time seconds]; it fires when time passes and the
    clock is then past it. *)
Definition on_timeout (c : nat) (_ : value) : M (option promise) :=
  Disconnect c ;;; ret (Some (Rejected TimedOut)).

Definition timeout (p : promise) (seconds : Q) : M promise :=
  t <- gets now ;;
  c <- Connect (SigTimer (t + delay_time seconds)) PromiseListener ;;
  race [Listening c (SigTimer (t + delay_time seconds)) (on_timeout c); p].

End Promise.

(** ** The host's events *)

(** One move of the host: a signal fires, a property is written (and its
    changed signal fires), a frame begins, or time passes. *)
Inductive event : Type :=
| EChildAdded (parent : nat) (child : Instance)
| EDescendantAdded (ancestor : nat) (descendant : Instance)
| EDestroying (i : nat)
| ESetPrimaryPart (model : nat) (part : option Instance)
| ESetValue (holder : nat) (v : option Instance)
| EHeartbeat
| EElapse (dt : Q).

(** Whether event [e], at time [t], fires a callback connected to [src],
    and with which arguments.  A timer fires when time passes and the
    clock is past the deadline; at the deadline itself it does not. *)
Definition triggers (e : event) (t : Q) (src : source) : option value :=
  match e, src with
  | EChildAdded p c, SigChildAdded i =>
      if Nat.eqb p i then Some (VInstance c) else None
  | EDescendantAdded a d, SigDescendantAdded i =>
      if Nat.eqb a i then Some (VInstance d) else None
  | EDestroying x, SigDestroying i =>
      if Nat.eqb x i then Some VUndefined else None
  | ESetPrimaryPart m _, SigPropertyChanged i property =>
      if Nat.eqb m i && String.eqb property "PrimaryPart" then Some VUndefined else None
  | ESetValue h v, SigChanged i =>
      if Nat.eqb h i then Some (of_option v) else None
  | EHeartbeat, SigHeartbeat => Some VUndefined
  | EElapse _, SigTimer deadline =>
      if Qle_bool t deadline then None else Some VUndefined
  | _, _ => None
  end.

Definition is_decided (p : promise) : bool :=
  match p with Resolved _ | Rejected _ => true | _ => false end.

Definition is_rejected (p : promise) : bool :=
  match p with Rejected _ => true | _ => false end.

(** Delivery of an event to the listeners of a pending promise, in the
    order of the tree.  A listener whose connection is live and fired runs
    its callback; the combinators above it then settle as the library
    settles them.  A promise decided on the way cancels its siblings, whose
    listeners therefore do not see the event. *)
Fixpoint deliver (e : event) (p : promise) : M promise :=
  match p with
  | Listening c src listen =>
      fun s =>
        if is_connected c s then
          match triggers e (now s) src with
          | Some args =>
              let (r, s') := listen args s in
              (match r with Some q => q | None => p end, s')
          | None => (p, s)
          end
        else (p, s)
  | AndThen q k => q' <- deliver e q ;; Promise.andThen q' k
  | Race ps =>
      ps' <- (fix each (l : list promise) : M (list promise) :=
                match l with
                | [] => ret []
                | q :: r =>
                    q' <- deliver e q ;;
                    if is_decided q' then ret (q' :: r)
                    else r' <- each r ;; ret (q' :: r')
                end) ps ;;
      Promise.race ps'
  | All ps =>
      ps' <- (fix each (l : list promise) : M (list promise) :=
                match l with
                | [] => ret []
                | q :: r =>
                    q' <- deliver e q ;;
                    if is_rejected q' then ret (q' :: r)
                    else r' <- each r ;; ret (q' :: r')
                end) ps ;;
      Promise.all ps'
  | Resolved _ | Rejected _ | Cancelled => ret p
  end.

(** The loop of [deliver] over the promises of a [Race] or of an [All]. *)
Definition deliver_until (stop : promise -> bool) (e : event)
  : list promise -> M (list promise) :=
  fix each (l : list promise) : M (list promise) :=
    match l with
    | [] => ret []
    | q :: r =>
        q' <- deliver e q ;;
        if stop q' then ret (q' :: r)
        else r' <- each r ;; ret (q' :: r')
    end.

(** What the event itself changes in the host: the clock or a property. *)
Definition host_update (e : event) (s : env) : env :=
  match e with
  | EElapse dt => set_now (now s + dt) s
  | ESetPrimaryPart m part =>
      set_primaryPart (fun i => if Nat.eqb i m then part else primaryPart s i) s
  | ESetValue h v =>
      set_objectValue (fun i => if Nat.eqb i h then v else objectValue s i) s
  | _ => s
  end.

(** The callbacks that are not listeners of a promise: the closures
    [() => { destroyed = true }] connected by [waitForChildren]. *)
Definition fires (e : event) (t : Q) (cn : connection) : bool :=
  Connected cn &&
  match handler cn, triggers e t (signal cn) with
  | SetDestroyed, Some _ => true
  | _, _ => false
  end.

Definition run_callbacks (e : event) (s : env) : env :=
  if existsb (fires e (now s)) (connections s) then set_destroyed true s else s.

(** One event: the host changes, then the connected callbacks run, the
    closures of [waitForChildren] before the listeners of the promise.  (A
    firing that runs such a closure is a [Destroying]; the listeners that
    could read the flag it sets, through the callback chained on
    [Promise.all], are those of [ChildAdded] and [DescendantAdded].) *)
Definition step (e : event) (st : promise * env) : promise * env :=
  deliver e (fst st) (run_callbacks e (host_update e (snd st))).

Definition run (evs : list event) (st : promise * env) : promise * env :=
  fold_left (fun st e => step e st) evs st.

(** ** The host's queries *)

Definition IsA (i : Instance) (className : string) : bool :=
  String.eqb (ClassName i) className || existsb (String.eqb className) (Superclasses i).

(** [GetDescendants]: the children, each followed by its own descendants. *)
Fixpoint GetDescendants (i : Instance) : list Instance :=
  flat_map (fun c => c :: GetDescendants c) (Children i).

Definition scope (parent : Instance) (recursive : bool) : list Instance :=
  if recursive then GetDescendants parent else Children parent.

Definition FindFirstChild (parent : Instance) (name : string) (recursive : bool)
  : option Instance :=
  find (fun c => String.eqb (Name c) name) (scope parent recursive).

Definition FindFirstChildWhichIsA (parent : Instance) (className : string) (recursive : bool)
  : option Instance :=
  find (fun c => IsA c className) (scope parent recursive).

Definition FindFirstChildOfClass (parent : Instance) (className : string)
  : option Instance :=
  find (fun c => String.eqb (ClassName c) className) (Children parent).

Definition PrimaryPart (model : Instance) : M (option Instance) :=
  gets (fun s => primaryPart s (uid model)).

Definition Value (holder : Instance) : M (option Instance) :=
  gets (fun s => objectValue s (uid holder)).

(** A predicate over the instance a signal passes. *)
Definition on_instance (f : Instance -> bool) (args : value) : M bool :=
  ret (match args with VInstance c => f c | _ => false end).

(** A parameter with a default value: [None] is the omitted argument. *)
Definition default {A} (d : A) (o : option A) : A :=
  match o with Some a => a | None => d end.

(** ** The module [index.ts] *)

Definition DEFAULT_TIMEOUT : Q := 60.

(** [watchDestroying(instance, promise)]: a race of the promise against the
    instance's [Destroying] signal, which rejects with
    [WaitForError.Destroyed]. *)
Definition watchDestroying (instance : Instance) (p : promise) : M promise :=
  d <- Promise.fromEvent (Destroying instance) (fun _ => ret true) ;;
  r <- Promise.andThen d (fun _ => Promise.reject Destroyed) ;;
  Promise.race [p; r].

Definition waitForChild (parent : Instance) (childName : string)
    (recursive : option bool) (timeout : option Q) : M promise :=
  let recursive := default false recursive in
  let timeout := default DEFAULT_TIMEOUT timeout in
  match FindFirstChild parent childName recursive with
  | Some child => Promise.resolve (VInstance child)
  | None =>
      added <- Promise.fromEvent
                 (if recursive then DescendantAdded parent else ChildAdded parent)
                 (on_instance (fun c => String.eqb (Name c) childName)) ;;
      watched <- watchDestroying parent added ;;
      Promise.timeout watched timeout
  end.

Definition waitForChildWhichIsA (parent : Instance) (className : string)
    (recursive : option bool) (timeout : option Q) : M promise :=
  let recursive := default false recursive in
  let timeout := default DEFAULT_TIMEOUT timeout in
  match FindFirstChildWhichIsA parent className recursive with
  | Some child => Promise.resolve (VInstance child)
  | None =>
      added <- Promise.fromEvent (ChildAdded parent)
                 (on_instance (fun c => IsA c className)) ;;
      watched <- watchDestroying parent added ;;
      Promise.timeout watched timeout
  end.

Definition waitForChildOfClass (parent : Instance) (className : string)
    (timeout : option Q) : M promise :=
  let timeout := default DEFAULT_TIMEOUT timeout in
  match FindFirstChildOfClass parent className with
  | Some child => Promise.resolve (VInstance child)
  | None =>
      added <- Promise.fromEvent (ChildAdded parent)
                 (on_instance (fun c => String.eqb (ClassName c) className)) ;;
      watched <- watchDestroying parent added ;;
      Promise.timeout watched timeout
  end.

(** The callback chained on each child's wait by [waitForChildren]: it
    connects the closure that sets [destroyed] to the child's [Destroying]
    signal, pushes the connection on [destroying] and returns the child.
    Reading [Destroying] off a value that is no instance is an error of the
    callback. *)
Definition watch_child (child : value) : M promise :=
  match child with
  | VInstance c =>
      cn <- Connect (Destroying c) SetDestroyed ;;
      modify (fun s => set_destroying (destroying s ++ [cn]) s) ;;;
      Promise.resolve child
  | _ => Promise.reject (Thrown child)
  end.

(** The callback chained on [Promise.all] by [waitForChildren]. *)
Definition check_destroyed (children : value) : M promise :=
  cns <- gets destroying ;;
  forM_ cns Disconnect ;;;
  d <- gets destroyed ;;
  if d then Promise.reject Destroyed else Promise.resolve children.

Definition waitForChildren (parent : Instance) (childrenNames : list string)
    (recursive : option bool) (timeout : option Q) : M promise :=
  let recursive := default false recursive in
  let timeout := default DEFAULT_TIMEOUT timeout in
  modify (set_destroying []) ;;;
  modify (set_destroyed false) ;;;
  all <- mapM (fun childName =>
                 found <- waitForChild parent childName (Some recursive) (Some timeout) ;;
                 Promise.andThen found watch_child)
              childrenNames ;;
  together <- Promise.all all ;;
  Promise.andThen together check_destroyed.

Definition waitForPrimaryPart (model : Instance) (timeout : option Q) : M promise :=
  let timeout := default DEFAULT_TIMEOUT timeout in
  primary <- PrimaryPart model ;;
  match primary with
  | Some part => Promise.resolve (VInstance part)
  | None =>
      changed <- Promise.fromEvent (GetPropertyChangedSignal model "PrimaryPart")
                   (fun _ => part <- PrimaryPart model ;;
                             ret (match part with Some _ => true | None => false end)) ;;
      read <- Promise.andThen changed
                (fun _ => part <- PrimaryPart model ;; Promise.resolve (of_option part)) ;;
      watched <- watchDestroying model read ;;
      Promise.timeout watched timeout
  end.

Definition waitForObjectValue (holder : Instance) (timeout : option Q) : M promise :=
  let timeout := default DEFAULT_TIMEOUT timeout in
  value <- Value holder ;;
  match value with
  | Some v => Promise.resolve (VInstance v)
  | None =>
      changed <- Promise.fromEvent (Changed holder)
                   (fun v => ret (negb (is_undefined v))) ;;
      read <- Promise.andThen changed
                (fun _ => v <- Value holder ;; Promise.resolve (of_option v)) ;;
      watched <- watchDestroying holder read ;;
      Promise.timeout watched timeout
  end.

(** The caller's predicate of [waitForCustom] is any code: its [n]-th
    invocation (counted from 0) returns a value, [undefined] included, or
    throws.  Every invocation is counted in [calls]. *)
Definition predicate_fn : Type := nat -> completion value.

Definition invoke (predicate : predicate_fn) : M (completion value) :=
  n <- gets calls ;;
  modify (set_calls (S n)) ;;;
  ret (predicate n).

(** The callback connected to [RunService.Heartbeat] by [waitForCustom].
    An exception of the predicate ends the callback: neither [resolve] nor
    [Disconnect] is reached. *)
Definition poll (predicate : predicate_fn) (hb : nat) (_ : value) : M (option promise) :=
  r <- invoke predicate ;;
  match r with
  | Normal v =>
      if negb (is_undefined v)
      then Disconnect hb ;;; ret (Some (Resolved v))
      else ret None
  | Throw _ => ret None
  end.

Definition waitForCustom (predicate : predicate_fn) (timeout : option Q)
  : M (completion promise) :=
  let timeout := default DEFAULT_TIMEOUT timeout in
  r <- invoke predicate ;;
  match r with
  | Throw exn => ret (Throw exn)
  | Normal value =>
      if negb (is_undefined value)
      then p <- Promise.resolve value ;; ret (Normal p)
      else
        hb <- Connect SigHeartbeat PromiseListener ;;
        p <- Promise.timeout (Listening hb SigHeartbeat (poll predicate hb)) timeout ;;
        ret (Normal p)
  end.

(** The functions the module exports, by name. *)
Definition exports : list string :=
  [ "waitForChild"; "waitForChildWhichIsA"; "waitForChildOfClass"; "waitForChildren";
    "waitForPrimaryPart"; "waitForObjectValue"; "waitForCustom" ].

(** A call of one of the exported functions. *)
Inductive call : Type :=
| CallWaitForChild (parent : Instance) (childName : string)
    (recursive : option bool) (timeout : option Q)
| CallWaitForChildWhichIsA (parent : Instance) (className : string)
    (recursive : option bool) (timeout : option Q)
| CallWaitForChildOfClass (parent : Instance) (className : string) (timeout : option Q)
| CallWaitForChildren (parent : Instance) (childrenNames : list string)
    (recursive : option bool) (timeout : option Q)
| CallWaitForPrimaryPart (model : Instance) (timeout : option Q)
| CallWaitForObjectValue (holder : Instance) (timeout : option Q)
| CallWaitForCustom (predicate : predicate_fn) (timeout : option Q).

Definition normally (m : M promise) : M (completion promise) :=
  p <- m ;; ret (Normal p).

Definition perform (c : call) : M (completion promise) :=
  match c with
  | CallWaitForChild parent childName recursive timeout =>
      normally (waitForChild parent childName recursive timeout)
  | CallWaitForChildWhichIsA parent className recursive timeout =>
      normally (waitForChildWhichIsA parent className recursive timeout)
  | CallWaitForChildOfClass parent className timeout =>
      normally (waitForChildOfClass parent className timeout)
  | CallWaitForChildren parent childrenNames recursive timeout =>
      normally (waitForChildren parent childrenNames recursive timeout)
  | CallWaitForPrimaryPart model timeout =>
      normally (waitForPrimaryPart model timeout)
  | CallWaitForObjectValue holder timeout =>
      normally (waitForObjectValue holder timeout)
  | CallWaitForCustom predicate timeout =>
      waitForCustom predicate timeout
  end.

(** A host in which nothing is connected yet, at time [t]. *)
Definition fresh (t : Q) : env :=
  mkEnv t [] (fun _ => None) (fun _ => None) false [] 0.

(** What a caller observes of a promise. *)
Inductive outcome : Type :=
| Pending
| Fulfilled (v : value)
| Failed (e : error)
| Abandoned.

Definition outcome_of (p : promise) : outcome :=
  match p with
  | Resolved v => Fulfilled v
  | Rejected e => Failed e
  | Cancelled => Abandoned
  | _ => Pending
  end.

(** The synchronous check a call starts with, and the candidate it finds.
    For [waitForChildren] the check is the one of each of its
    [waitForChild] calls, and the candidate is the array of what they
    find. *)
Definition found_all (parent : Instance) (names : list string) (recursive : bool)
  : option (list Instance) :=
  fold_right (fun name acc =>
                match FindFirstChild parent name recursive, acc with
                | Some child, Some children => Some (child :: children)
                | _, _ => None
                end)
             (Some []) names.

Definition initial_check (c : call) (s : env) : option value :=
  match c with
  | CallWaitForChild parent childName recursive _ =>
      option_map VInstance (FindFirstChild parent childName (default false recursive))
  | CallWaitForChildWhichIsA parent className recursive _ =>
      option_map VInstance (FindFirstChildWhichIsA parent className (default false recursive))
  | CallWaitForChildOfClass parent className _ =>
      option_map VInstance (FindFirstChildOfClass parent className)
  | CallWaitForChildren parent childrenNames recursive _ =>
      option_map (fun children => VArray (map VInstance children))
                 (found_all parent childrenNames (default false recursive))
  | CallWaitForPrimaryPart model _ =>
      option_map VInstance (primaryPart s (uid model))
  | CallWaitForObjectValue holder _ =>
      option_map VInstance (objectValue s (uid holder))
  | CallWaitForCustom predicate _ =>
      match predicate (calls s) with
      | Normal v => if is_undefined v then None else Some v
      | Throw _ => None
      end
  end.

Definition is_batch (c : call) : bool :=
  match c with CallWaitForChildren _ _ _ _ => true | _ => false end.

(** The instances of the examples: a vehicle with a left wheel, whose right
    wheel has not been added yet. *)
Definition LeftWheel : Instance := mkInstance 1 "LeftWheel" "Part" ["BasePart"; "Instance"] [].
Definition RightWheel : Instance := mkInstance 2 "RightWheel" "Part" ["BasePart"; "Instance"] [].
Definition vehicle : Instance := mkInstance 0 "Vehicle" "Model" ["Instance"] [LeftWheel].


(** ** Vocabulary of the properties *)

(** A connection after [Disconnect]. *)
Definition off (cn : connection) : connection :=
  mkConnection (signal cn) (handler cn) false.

(** The connection [waitForChildren] makes to a child's [Destroying]. *)
Definition watch (live : bool) (child : Instance) : connection :=
  mkConnection (Destroying child) SetDestroyed live.

Definition entry (s : env) (i : nat) : option connection :=
  nth_error (connections s) i.

(** No connection of the table is to an attribute-changed signal. *)
Definition quiet (s : env) : Prop :=
  Forall (fun cn => forall i a, signal cn <> SigAttributeChanged i a) (connections s).

(** [ext T s s']: state [s'] comes after [s].  The property [T] of the
    clock is kept, [destroyed] is not reset, the entries of the table keep
    their signal and their callback, and a connection whose callback is the
    closure of [waitForChildren] is as connected as it was. *)
Record ext (T : Q -> Prop) (s s' : env) : Prop := mkExt {
  ext_time : T (now s) -> T (now s');
  ext_destroyed : destroyed s = true -> destroyed s' = true;
  ext_entry : forall i cn, entry s i = Some cn ->
    exists cn', entry s' i = Some cn' /\ signal cn' = signal cn /\
                handler cn' = handler cn /\
                (handler cn = SetDestroyed -> Connected cn' = Connected cn);
  ext_quiet : quiet s -> quiet s'
}.

(** A property of values that depends on the state and lasts. *)
Definition lasting (T : Q -> Prop) (post : env -> value -> Prop) : Prop :=
  forall s s' v, ext T s s' -> post s v -> post s' v.

(** [sound T post s p]: in state [s], promise [p] can only resolve with a
    value that satisfies [post], and can only reject with [Destroyed], or
    with [TimedOut] at a time that satisfies [T]; its listeners are
    connections of the table whose callback is a promise's, and its
    callbacks lead from a state to a later one. *)
Inductive sound (T : Q -> Prop) : (env -> value -> Prop) -> env -> promise -> Prop :=
| sound_Resolved post s v :
    post s v -> sound T post s (Resolved v)
| sound_Destroyed post s :
    sound T post s (Rejected Destroyed)
| sound_TimedOut post s :
    T (now s) -> sound T post s (Rejected TimedOut)
| sound_Cancelled post s :
    sound T post s Cancelled
| sound_Listening post s c src listen :
    (exists cn, entry s c = Some cn /\ handler cn = PromiseListener) ->
    (forall e s1 args,
        ext T s s1 -> triggers e (now s1) src = Some args ->
        ext T s1 (snd (listen args s1)) /\
        forall q, fst (listen args s1) = Some q ->
                  sound T post (snd (listen args s1)) q) ->
    sound T post s (Listening c src listen)
| sound_AndThen post post' s p k :
    lasting T post' ->
    sound T post' s p ->
    (forall v s1,
        ext T s s1 -> post' s1 v ->
        ext T s1 (snd (k v s1)) /\
        sound T post (snd (k v s1)) (fst (k v s1))) ->
    sound T post s (AndThen p k)
| sound_Race post s ps :
    Forall (sound T post s) ps -> sound T post s (Race ps)
| sound_All post posts s ps :
    Forall (lasting T) posts ->
    Forall2 (fun po p => sound T po s p) posts ps ->
    (forall s1 vs,
        ext T s s1 -> Forall2 (fun po v => po s1 v) posts vs -> post s1 (VArray vs)) ->
    sound T post s (All ps).

(** What the promise of each function may resolve with. *)
Definition anything : env -> value -> Prop := fun _ _ => True.

Definition named (name : string) : env -> value -> Prop :=
  fun _ v => exists i, v = VInstance i /\ Name i = name.

Definition is_a (className : string) : env -> value -> Prop :=
  fun _ v => exists i, v = VInstance i /\ IsA i className = true.

Definition of_class (className : string) : env -> value -> Prop :=
  fun _ v => exists i, v = VInstance i /\ ClassName i = className.

Definition defined : env -> value -> Prop :=
  fun _ v => is_undefined v = false.

(** An instance of the given name whose [Destroying] signal is watched by
    a live connection of [waitForChildren]. *)
Definition watched (s : env) (i : Instance) : Prop :=
  exists c, entry s c = Some (watch true i).

Definition named_and_watched (name : string) : env -> value -> Prop :=
  fun s v => exists i, v = VInstance i /\ Name i = name /\ watched s i.

Definition named_all (names : list string) : env -> value -> Prop :=
  fun _ v => exists children,
    v = VArray (map VInstance children) /\ map Name children = names.

Definition timeout_of (c : call) : Q :=
  default DEFAULT_TIMEOUT
    match c with
    | CallWaitForChild _ _ _ timeout
    | CallWaitForChildWhichIsA _ _ _ timeout
    | CallWaitForChildOfClass _ _ timeout
    | CallWaitForChildren _ _ _ timeout
    | CallWaitForPrimaryPart _ timeout
    | CallWaitForObjectValue _ timeout
    | CallWaitForCustom _ timeout => timeout
    end.

Definition post_of (c : call) : env -> value -> Prop :=
  match c with
  | CallWaitForChild _ childName _ _ => named childName
  | CallWaitForChildWhichIsA _ className _ _ => is_a className
  | CallWaitForChildOfClass _ className _ => of_class className
  | CallWaitForChildren _ childrenNames _ _ => named_all childrenNames
  | CallWaitForPrimaryPart _ _ => anything
  | CallWaitForObjectValue _ _ => anything
  | CallWaitForCustom _ _ => defined
  end.

(** The states of a batch wait: still waiting on the promises of its
    children, each of which resolves with a watched child of its name and
    one of which at least is not resolved, or decided. *)
Definition batch_inv (T : Q -> Prop) (names : list string) (s : env) (p : promise) : Prop :=
  (exists ps,
      p = AndThen (All ps) check_destroyed /\
      Forall2 (fun name q => sound T (named_and_watched name) s q) names ps /\
      resolved_values ps = None)
  \/ (is_decided p = true /\ sound T (named_all names) s p).

(** The promise [waitForCustom] returns when its first invocation of the
    predicate gives [undefined]: a race of the timer [ct] against the
    listener [hb] of [RunService.Heartbeat]. *)
Definition polling (predicate : predicate_fn) (hb ct : nat) (deadline : Q) : promise :=
  Race [ Listening ct (SigTimer deadline) (Promise.on_timeout ct);
         Listening hb SigHeartbeat (poll predicate hb) ].

(** The sentence of the specification on the custom predicate, as a
    function of the events that follow a call whose first invocation gave
    [undefined]: the predicate is invoked once for each [Heartbeat], until
    it returns a value that is not [undefined], which resolves the promise,
    or until the clock is past the deadline, which rejects it with
    [TimedOut]; an invocation that throws is an invocation without a value.
    [t] is the clock and [n] the number of invocations so far; the result
    is what the caller observes and the number of invocations made. *)
Fixpoint polling_spec (predicate : predicate_fn) (deadline t : Q) (n : nat)
    (evs : list event) : outcome * nat :=
  match evs with
  | [] => (Pending, n)
  | EHeartbeat :: rest =>
      match predicate n with
      | Normal v =>
          if is_undefined v then polling_spec predicate deadline t (S n) rest
          else (Fulfilled v, S n)
      | Throw _ => polling_spec predicate deadline t (S n) rest
      end
  | EElapse dt :: rest =>
      if Qle_bool (t + dt) deadline then polling_spec predicate deadline (t + dt) n rest
      else (Failed TimedOut, n)
  | _ :: rest => polling_spec predicate deadline t n rest
  end.

(** The invariant of the promise of a call. *)
Definition good (T : Q -> Prop) (c : call) (s : env) (p : promise) : Prop :=
  match c with
  | CallWaitForChildren _ childrenNames _ _ => batch_inv T childrenNames s p
  | _ => sound T (post_of c) s p
  end.

(** Predicates of the examples.  [ready_at_third] gives [undefined] twice
    and then a value; [throws_at_second] gives [undefined], except for its
    second invocation, which throws. *)
Definition ready_at_third : predicate_fn :=
  fun n => if Nat.ltb n 2 then Normal VUndefined else Normal (VString "ready").

Definition throws_at_second : predicate_fn :=
  fun n => if Nat.eqb n 1 then Throw (VString "boom") else Normal VUndefined.



(** The host's clock does not run backwards. *)
Definition forward (e : event) : Prop :=
  match e with EElapse dt => 0 <= dt | _ => True end.

(** [d] is below [p] in the tree, at any depth. *)
Inductive descendant_of : Instance -> Instance -> Prop :=
| descendant_child p c : In c (Children p) -> descendant_of c p
| descendant_deeper p c d : In c (Children p) -> descendant_of d c -> descendant_of d p.

(** What the host fires when an instance is added somewhere below
    [parent] but not as its child: [ChildAdded] on the instance it is added
    to, and [DescendantAdded] on the ancestors. *)
Definition added_deeper (parent : Instance) (e : event) : Prop :=
  match e with
  | EChildAdded q _ => q <> uid parent
  | EDescendantAdded _ _ => True
  | _ => False
  end.

(** The promise of a wait on one signal of [parent]: a race of the timer
    [ct] against the race of the listener [c] of the signal and of the
    listener [cd] of [Destroying]. *)
Definition waiting (c cd ct : nat) (src : source) (predicate : value -> M bool)
    (parent : Instance) (deadline : Q) : promise :=
  Race [ Listening ct (SigTimer deadline) (Promise.on_timeout ct);
         Race [ Listening c src (Promise.on_firing c predicate);
                AndThen
                  (Listening cd (Destroying parent)
                     (Promise.on_firing cd (fun _ => ret true)))
                  (fun _ => Promise.reject Destroyed) ] ].

(** A model whose torso is two levels down. *)
Definition Torso : Instance := mkInstance 12 "Torso" "Part" ["BasePart"; "Instance"] [].
Definition Body : Instance := mkInstance 11 "Body" "Folder" ["Instance"] [Torso].
Definition character : Instance := mkInstance 10 "Character" "Model" ["Instance"] [Body].
Definition Head : Instance := mkInstance 13 "Head" "Part" ["BasePart"; "Instance"] [].


(** A folder with an empty shelf, and what the host fires when a part is
    put on the shelf. *)
Definition Shelf : Instance := mkInstance 21 "Shelf" "Folder" ["Instance"] [].
Definition garage : Instance := mkInstance 20 "Garage" "Folder" ["Instance"] [Shelf].
Definition head_put_on_shelf : list event :=
  [EChildAdded 21 Head; EDescendantAdded 21 Head; EDescendantAdded 20 Head].

Unset Implicit Arguments.

(** ** Induction on promises and on instances *)

Section PromiseInduction.
Variable P : promise -> Prop.
Hypothesis HResolved : forall v, P (Resolved v).
Hypothesis HRejected : forall e, P (Rejected e).
Hypothesis HCancelled : P Cancelled.
Hypothesis HListening : forall c src listen, P (Listening c src listen).
Hypothesis HAndThen : forall p k, P p -> P (AndThen p k).
Hypothesis HRace : forall ps, Forall P ps -> P (Race ps).
Hypothesis HAll : forall ps, Forall P ps -> P (All ps).

Fixpoint promise_ind2 (p : promise) : P p :=
  match p with
  | Resolved v => HResolved v
  | Rejected e => HRejected e
  | Cancelled => HCancelled
  | Listening c src listen => HListening c src listen
  | AndThen q k => HAndThen q k (promise_ind2 q)
  | Race ps =>
      HRace ps ((fix each (l : list promise) : Forall P l :=
                match l with
                | [] => Forall_nil P
                | q :: r => Forall_cons q (promise_ind2 q) (each r)
                end) ps)
  | All ps =>
      HAll ps ((fix each (l : list promise) : Forall P l :=
               match l with
               | [] => Forall_nil P
               | q :: r => Forall_cons q (promise_ind2 q) (each r)
               end) ps)
  end.
End PromiseInduction.

Section InstanceInduction.
Variable P : Instance -> Prop.
Hypothesis H : forall u n c sup kids, Forall P kids -> P (mkInstance u n c sup kids).

Fixpoint Instance_ind2 (i : Instance) : P i :=
  match i with
  | mkInstance u n c sup kids =>
      H u n c sup kids
        ((fix each (l : list Instance) : Forall P l :=
            match l with
            | [] => Forall_nil P
            | k :: r => Forall_cons k (Instance_ind2 k) (each r)
            end) kids)
  end.
End InstanceInduction.

(** ** Vocabulary of the proofs *)

(** Connection [c] is the listener of a promise. *)
Definition listener (s : env) (c : nat) : Prop :=
  exists cn, entry s c = Some cn /\ handler cn = PromiseListener.

(** A promise that is sound for some lasting property. *)
Definition tame (T : Q -> Prop) (s : env) (p : promise) : Prop :=
  exists post, lasting T post /\ sound T post s p.

(** Delivery of an event keeps a promise sound. *)
Definition kept (T : Q -> Prop) (e : event) (p : promise) : Prop :=
  forall post s, lasting T post -> sound T post s p ->
    sound T post (snd (deliver e p s)) (fst (deliver e p s)) /\
    ext T s (snd (deliver e p s)).

(** The clock after an event, and the events that keep [T]. *)
Definition time_after (e : event) (t : Q) : Q :=
  match e with EElapse dt => t + dt | _ => t end.

Definition keeps_time (T : Q -> Prop) (e : event) : Prop :=
  forall t, T t -> T (time_after e t).

(** The body of the loop of [waitForChildren], and what follows the loop. *)
Definition wait_and_watch (parent : Instance) (recursive : bool) (timeout : Q)
    (childName : string) : M promise :=
  found <- waitForChild parent childName (Some recursive) (Some timeout) ;;
  Promise.andThen found watch_child.

Definition finish (ps : list promise) : M promise :=
  together <- Promise.all ps ;; Promise.andThen together check_destroyed.

(** A predicate that reads the state and leaves it as it is. *)
Definition pure (predicate : value -> M bool) : Prop :=
  forall args s, snd (predicate args s) = s.

(** ** Vocabulary of the timers *)

(** The connections of the listeners of a promise. *)
Fixpoint ids (p : promise) : list nat :=
  match p with
  | Listening c _ _ => [c]
  | AndThen q _ => ids q
  | Race ps | All ps => flat_map ids ps
  | Resolved _ | Rejected _ | Cancelled => []
  end.

Definition is_resolved (p : promise) : bool :=
  match p with Resolved _ => true | _ => false end.

(** [tidy p]: the callbacks of [p] keep to their own connection.  A
    listener that settles its promise decides it and disconnects its own
    connection, and changes nothing in the table otherwise; a callback
    chained with [then] decides its promise and only adds connections. *)
Inductive tidy : promise -> Prop :=
| tidy_Resolved v : tidy (Resolved v)
| tidy_Rejected e : tidy (Rejected e)
| tidy_Cancelled : tidy Cancelled
| tidy_Listening c src listen :
    (forall args s,
        match fst (listen args s) with
        | None => connections (snd (listen args s)) = connections s
        | Some q =>
            is_decided q = true /\
            connections (snd (listen args s)) = set_nth c off (connections s)
        end) ->
    tidy (Listening c src listen)
| tidy_AndThen p k :
    tidy p ->
    (forall v s,
        is_decided (fst (k v s)) = true /\
        exists more, connections (snd (k v s)) = connections s ++ more) ->
    tidy (AndThen p k)
| tidy_Race ps : Forall tidy ps -> tidy (Race ps)
| tidy_All ps : Forall tidy ps -> tidy (All ps).

(** [frame own s s']: from [s] to [s'] the table has only grown, and its
    entries other than those of [own] are as they were. *)
Definition frame (own : list nat) (s s' : env) : Prop :=
  (List.length (connections s) <= List.length (connections s'))%nat /\
  forall i, (i < List.length (connections s))%nat -> ~ In i own ->
            nth_error (connections s') i = nth_error (connections s) i.

(** [ticking d s p]: the pending promise [p] is under a timer of deadline
    [d] that is connected in [s]: [p] is a race whose first promise is the
    timer's, or a promise chained on such a race, or an [All] of resolved
    promises and of such promises, not all of them resolved. *)
Inductive ticking (d : Q) (s : env) : promise -> Prop :=
| ticking_Race ct rest :
    is_connected ct s = true ->
    ticking d s (Race (Listening ct (SigTimer d) (Promise.on_timeout ct) :: rest))
| ticking_AndThen p k :
    ticking d s p -> ticking d s (AndThen p k)
| ticking_All ps :
    Forall (fun q => is_resolved q = true \/ ticking d s q) ps ->
    resolved_values ps = None ->
    ticking d s (All ps).

(** [within p p']: the listeners of [p'] are listeners of [p], none of
    them twice if none of [p] is; and the same of two lists of promises. *)
Definition within (p p' : promise) : Prop :=
  (forall i, In i (ids p') -> In i (ids p)) /\ (NoDup (ids p) -> NoDup (ids p')).

Definition within_each (ps ps' : list promise) : Prop :=
  (forall i, In i (flat_map ids ps') -> In i (flat_map ids ps)) /\
  (NoDup (flat_map ids ps) -> NoDup (flat_map ids ps')).

(** What delivery does to a tidy promise: the promise stays tidy, with no
    other listeners than it had, and the table changes at its own
    connections only. *)
Definition orderly (e : event) (p : promise) : Prop :=
  forall s, tidy p ->
    tidy (fst (deliver e p s)) /\
    frame (ids p) s (snd (deliver e p s)) /\
    within p (fst (deliver e p s)).

(** Delivery of an event to a promise under a connected timer decides the
    promise or leaves it under the timer, still connected. *)
Definition steady (d : Q) (e : event) (p : promise) : Prop :=
  forall s, tidy p -> NoDup (ids p) -> ticking d s p ->
    is_decided (fst (deliver e p s)) = true \/
    ticking d (snd (deliver e p s)) (fst (deliver e p s)).

(** A pending promise under its timer. *)
Definition live (d : Q) (s : env) (p : promise) : Prop :=
  tidy p /\ NoDup (ids p) /\ ticking d s p.

(** A promise made between [s] and [s'], resolved or under a timer of
    deadline [d], whose connections are those made in between. *)
Definition armed (d : Q) (s s' : env) (p : promise) : Prop :=
  (is_resolved p = true \/ live d s' p) /\
  (exists more, connections s' = connections s ++ more) /\
  (forall i, In i (ids p) ->
             (List.length (connections s) <= i < List.length (connections s'))%nat) /\
  now s' = now s.

(** The promise of a call, at any time: settled, or under its timer. *)
Definition alive (d : Q) (s : env) (p : promise) : Prop :=
  is_settled p = true \/ live d s p \/
  exists ps, p = AndThen (All ps) check_destroyed /\ live d s (All ps).

(** ** Vocabulary of the single waits *)

(** The promise [watchDestroying(instance, w).timeout(...)] builds over a
    pending promise [w]: a race of the timer [ct] against the race of [w]
    and of the listener [cd] of the instance's [Destroying]. *)
Definition guard (w : promise) (cd ct : nat) (instance : Instance) (deadline : Q)
  : promise :=
  Race [ Listening ct (SigTimer deadline) (Promise.on_timeout ct);
         Race [ w;
                AndThen
                  (Listening cd (Destroying instance)
                     (Promise.on_firing cd (fun _ => ret true)))
                  (fun _ => Promise.reject Destroyed) ] ].

(** What an event does to a connected [Promise.fromEvent(src, predicate)]:
    the arguments of the firing, if [src] fires and the predicate accepts
    them. *)
Definition accepted (src : source) (predicate : value -> M bool) (e : event) (s : env)
  : option value :=
  match triggers e (now s) src with
  | Some args => if fst (predicate args s) then Some args else None
  | None => None
  end.

(** The promise of one child of [waitForChildren] that was not found at
    once: the wait on the parent's signal, whose listener is connection
    [c], its [Destroying] listener [c + 1] and its timer [c + 2], chained
    with the callback that watches the child. *)
Definition child_wait (c : nat) (parent : Instance) (recursive : bool) (name : string)
    (deadline : Q) : promise :=
  AndThen
    (guard (Listening c (if recursive then DescendantAdded parent else ChildAdded parent)
              (Promise.on_firing c (on_instance (fun i => String.eqb (Name i) name))))
           (S c) (S (S c)) parent deadline)
    watch_child.

(** The three connections of a wait are connected. *)
Definition standing (c : nat) (s : env) : Prop :=
  is_connected c s = true /\ is_connected (S c) s = true /\
  is_connected (S (S c)) s = true.

(** The promise of the child of a batch for [name]: resolved, or still
    waiting with its connections connected. *)
Definition waits_for (parent : Instance) (recursive : bool) (d : Q) (s : env)
    (name : string) (q : promise) : Prop :=
  is_resolved q = true \/
  exists c, q = child_wait c parent recursive name d /\ standing c s.

(** The states of a batch wait, as to its children. *)
Definition batch_waiting (parent : Instance) (recursive : bool) (d : Q)
    (names : list string) (s : env) (p : promise) : Prop :=
  is_settled p = true \/
  exists ps, p = AndThen (All ps) check_destroyed /\
             Forall2 (waits_for parent recursive d s) names ps /\
             NoDup (flat_map ids ps) /\
             resolved_values ps = None.

(** The instance whose [Destroying] a call watches. *)
Definition container (c : call) : option Instance :=
  match c with
  | CallWaitForChild parent _ _ _
  | CallWaitForChildWhichIsA parent _ _ _
  | CallWaitForChildOfClass parent _ _
  | CallWaitForChildren parent _ _ _ => Some parent
  | CallWaitForPrimaryPart model _ => Some model
  | CallWaitForObjectValue holder _ => Some holder
  | CallWaitForCustom _ _ => None
  end.

(** The instance an event is about. *)
Definition about (e : event) : option nat :=
  match e with
  | EChildAdded parent _ => Some parent
  | EDescendantAdded ancestor _ => Some ancestor
  | EDestroying i => Some i
  | ESetPrimaryPart model _ => Some model
  | ESetValue holder _ => Some holder
  | EHeartbeat | EElapse _ => None
  end.

(** Whether an event is about the instance a call watches. *)
Definition about_container (c : call) (e : event) : bool :=
  match container c, about e with
  | Some i, Some u => Nat.eqb u (uid i)
  | _, _ => false
  end.

(** The events that can run a callback a call has connected: the passing
    of time, an event about the instance the call watches, a [Heartbeat]
    for [waitForCustom] and, for [waitForChildren], the [Destroying] of any
    instance, since the call connects a closure to the [Destroying] of each
    child it finds. *)
Definition concerns (c : call) (e : event) : bool :=
  match e with
  | EElapse _ => true
  | EHeartbeat => match c with CallWaitForCustom _ _ => true | _ => false end
  | EDestroying _ =>
      match c with
      | CallWaitForChildren _ _ _ _ => true
      | _ => about_container c e
      end
  | _ => about_container c e
  end.

(** The value with which an event resolves the pending promise of a call
    on one signal, read off the listener the call connects: the signal and
    the predicate given to [Promise.fromEvent] and, for the waits on a
    property, the callback chained on it. *)
Definition answer (c : call) (e : event) (s : env) : option value :=
  match c with
  | CallWaitForChild parent childName recursive _ =>
      accepted (if default false recursive then DescendantAdded parent else ChildAdded parent)
        (on_instance (fun i => String.eqb (Name i) childName)) e s
  | CallWaitForChildWhichIsA parent className _ _ =>
      accepted (ChildAdded parent) (on_instance (fun i => IsA i className)) e s
  | CallWaitForChildOfClass parent className _ =>
      accepted (ChildAdded parent)
        (on_instance (fun i => String.eqb (ClassName i) className)) e s
  | CallWaitForPrimaryPart model _ =>
      match accepted (GetPropertyChangedSignal model "PrimaryPart")
              (fun _ => part <- PrimaryPart model ;;
                        ret (match part with Some _ => true | None => false end)) e s with
      | Some _ => Some (of_option (primaryPart s (uid model)))
      | None => None
      end
  | CallWaitForObjectValue holder _ =>
      match accepted (Changed holder) (fun v => ret (negb (is_undefined v))) e s with
      | Some _ => Some (of_option (objectValue s (uid holder)))
      | None => None
      end
  | CallWaitForChildren _ _ _ _ | CallWaitForCustom _ _ => None
  end.

(** The calls that wait on one signal of one instance. *)
Definition is_single (c : call) : bool :=
  match c with
  | CallWaitForChildren _ _ _ _ | CallWaitForCustom _ _ => false
  | _ => true
  end.

(** ** Vocabulary of the connections a call leaves *)

(** [neat R p]: the callbacks of [p] keep to their own connection, as for
    [tidy], and keep the record [R] of the connections made by callbacks
    chained with [then]: a connected connection that such a callback adds
    is recorded, and nothing is struck off the record. *)
Inductive neat (R : env -> nat -> Prop) : promise -> Prop :=
| neat_Resolved v : neat R (Resolved v)
| neat_Rejected e : neat R (Rejected e)
| neat_Cancelled : neat R Cancelled
| neat_Listening c src listen :
    (forall args s,
        (forall i, R s i -> R (snd (listen args s)) i) /\
        match fst (listen args s) with
        | None => connections (snd (listen args s)) = connections s
        | Some q =>
            is_decided q = true /\
            connections (snd (listen args s)) = set_nth c off (connections s)
        end) ->
    neat R (Listening c src listen)
| neat_AndThen p k :
    neat R p ->
    (forall v s,
        is_decided (fst (k v s)) = true /\
        (exists more, connections (snd (k v s)) = connections s ++ more) /\
        (forall i, R s i -> R (snd (k v s)) i) /\
        (forall i, (List.length (connections s) <= i)%nat ->
                   is_connected i (snd (k v s)) = true -> R (snd (k v s)) i)) ->
    neat R (AndThen p k)
| neat_Race ps : Forall (neat R) ps -> neat R (Race ps)
| neat_All ps : Forall (neat R) ps -> neat R (All ps).

(** [calm s s']: from [s] to [s'] the table has only grown and no
    connection of [s] has been connected again. *)
Definition calm (s s' : env) : Prop :=
  (List.length (connections s) <= List.length (connections s'))%nat /\
  forall i, (i < List.length (connections s))%nat ->
            is_connected i s' = true -> is_connected i s = true.

(** The listeners of a promise, or of promises, are in the table. *)
Definition bounded (s : env) (l : list nat) : Prop :=
  forall i, In i l -> (i < List.length (connections s))%nat.

(** What a delivery from [s] to [s'], of promises whose listeners were [l]
    and are now [l'], does to the table: a listener that is dropped is
    disconnected, and a connected connection that is added is recorded. *)
Definition tended (R : env -> nat -> Prop) (s s' : env) (l l' : list nat) : Prop :=
  calm s s' /\
  (forall i, In i l' -> In i l) /\
  (forall i, In i l -> is_connected i s' = true -> In i l') /\
  (forall i, (List.length (connections s) <= i)%nat ->
             is_connected i s' = true -> R s' i) /\
  (forall i, R s i -> R s' i).

(** [cover R base s l]: every connection of index [base] or more that is
    connected in [s] is a listener of [l] or is recorded. *)
Definition cover (R : env -> nat -> Prop) (base : nat) (s : env) (l : list nat) : Prop :=
  bounded s l /\
  forall i, (base <= i)%nat -> is_connected i s = true -> In i l \/ R s i.

(** The two records: nothing, for the waits that connect listeners only,
    and the array [destroying] of [waitForChildren]. *)
Definition no_record : env -> nat -> Prop := fun _ _ => False.

Definition in_destroying : env -> nat -> Prop := fun s i => In i (destroying s).

(** Delivery of an event to a promise tends the table. *)
Definition tends (R : env -> nat -> Prop) (e : event) (p : promise) : Prop :=
  forall s, neat R p -> bounded s (ids p) ->
    neat R (fst (deliver e p s)) /\
    tended R s (snd (deliver e p s)) (ids p) (ids (fst (deliver e p s))).

(** The states of a batch wait, as to the connections it has made since
    the table had [base] connections: still waiting, with its connected
    connections being listeners of its children or recorded in
    [destroying]; resolved, with none of them connected; or failed. *)
Definition batch_tending (base : nat) (s : env) (p : promise) : Prop :=
  (exists ps, p = AndThen (All ps) check_destroyed /\
              neat in_destroying (All ps) /\
              cover in_destroying base s (ids (All ps)))
  \/ (is_resolved p = true /\
      forall i, (base <= i)%nat -> is_connected i s = false)
  \/ is_rejected p = true.

(** ** Vocabulary of the children a batch gathers *)

(** The instance that an event makes the wait of [name] hear: one of that
    name passed by the parent's [ChildAdded], or by its [DescendantAdded]
    if [recursive] is set. *)
Definition heard (parent : Instance) (recursive : bool) (name : string) (e : event)
  : option Instance :=
  match e with
  | EChildAdded p c =>
      if negb recursive && Nat.eqb p (uid parent) && String.eqb (Name c) name
      then Some c else None
  | EDescendantAdded p c =>
      if recursive && Nat.eqb p (uid parent) && String.eqb (Name c) name
      then Some c else None
  | _ => None
  end.

(** The child that a wait has for [name] after one more event, given the
    child [got] it had before. *)
Definition hears (parent : Instance) (recursive : bool) (got : string -> option Instance)
    (e : event) : string -> option Instance :=
  fun name =>
    match got name with
    | Some c => Some c
    | None => heard parent recursive name e
    end.

(** The child of each name after the events: the one found at call time,
    or else the first one heard. *)
Definition seen (parent : Instance) (recursive : bool) (evs : list event)
  : string -> option Instance :=
  fold_left (hears parent recursive) evs (fun name => FindFirstChild parent name recursive).

(** The children of all the names, if each name has one. *)
Definition gather (got : string -> option Instance) (names : list string)
  : option (list Instance) :=
  fold_right (fun name acc =>
                match got name, acc with
                | Some child, Some children => Some (child :: children)
                | _, _ => None
                end)
             (Some []) names.

(** Events that destroy nothing. *)
Definition gentle (e : event) : Prop :=
  match e with EDestroying _ => False | _ => True end.

(** The time that events take. *)
Fixpoint elapsed (evs : list event) : Q :=
  match evs with
  | [] => 0
  | EElapse dt :: rest => dt + elapsed rest
  | _ :: rest => elapsed rest
  end.

(** [same_host s s']: the clock and the flag [destroyed] are the same. *)
Definition same_host (s s' : env) : Prop :=
  now s' = now s /\ destroyed s' = destroyed s.

(** [inert p]: the callbacks of [p] leave the clock and the flag
    [destroyed] as they are, and decide the promises they settle. *)
Inductive inert : promise -> Prop :=
| inert_Resolved v : inert (Resolved v)
| inert_Rejected e : inert (Rejected e)
| inert_Cancelled : inert Cancelled
| inert_Listening c src listen :
    (forall args s,
        same_host s (snd (listen args s)) /\
        match fst (listen args s) with
        | None => True
        | Some q => is_decided q = true
        end) ->
    inert (Listening c src listen)
| inert_AndThen p k :
    inert p ->
    (forall v s, same_host s (snd (k v s)) /\ is_decided (fst (k v s)) = true) ->
    inert (AndThen p k)
| inert_Race ps : Forall inert ps -> inert (Race ps)
| inert_All ps : Forall inert ps -> inert (All ps).

(** The promise of the child of a batch for [name], given the child found
    or heard so far: resolved with it, or still waiting. *)
Definition status (parent : Instance) (recursive : bool) (d : Q)
    (got : string -> option Instance) (s : env) (name : string) (q : promise) : Prop :=
  match got name with
  | Some c => q = Resolved (VInstance c)
  | None => exists k, q = child_wait k parent recursive name d /\ standing k s
  end.

(** The closures [() => { destroyed = true }] that are connected are
    connected to a [Destroying] signal, as [waitForChildren] connects
    them. *)
Definition proper_at (s : env) (i : nat) : Prop :=
  match nth_error (connections s) i with
  | Some cn => handler cn = SetDestroyed -> exists u, signal cn = SigDestroying u
  | None => False
  end.

Definition sane (s : env) : Prop :=
  forall i, is_connected i s = true -> proper_at s i.

(** The states of a batch wait that nothing rejects. *)
Definition gathering (parent : Instance) (recursive : bool) (d : Q) (names : list string)
    (got : string -> option Instance) (s : env) (p : promise) : Prop :=
  destroyed s = false /\ sane s /\
  match gather got names with
  | Some children => p = Resolved (VArray (map VInstance children))
  | None =>
      exists ps, p = AndThen (All ps) check_destroyed /\
                 Forall2 (status parent recursive d got s) names ps /\
                 NoDup (flat_map ids ps)
  end.

(** The states of a batch wait, whatever happens: rejected, resolved with
    the children of the names, or waiting for some of them. *)
Definition collecting (parent : Instance) (recursive : bool) (d : Q) (names : list string)
    (got : string -> option Instance) (s : env) (p : promise) : Prop :=
  is_rejected p = true \/
  (exists children, gather got names = Some children /\
                    p = Resolved (VArray (map VInstance children))) \/
  (exists ps, p = AndThen (All ps) check_destroyed /\
              Forall2 (status parent recursive d got s) names ps /\
              NoDup (flat_map ids ps)).


(** What each call awaits, as a property of the value it resolves with. *)
Definition awaited (c : call) (v : value) : Prop :=
  match c with
  | CallWaitForChild _ childName _ _ => exists i, v = VInstance i /\ Name i = childName
  | CallWaitForChildWhichIsA _ className _ _ =>
      exists i, v = VInstance i /\ IsA i className = true
  | CallWaitForChildOfClass _ className _ =>
      exists i, v = VInstance i /\ ClassName i = className
  | CallWaitForChildren _ childrenNames _ _ =>
      exists children, v = VArray (map VInstance children) /\
                       map Name children = childrenNames
  | CallWaitForPrimaryPart _ _ | CallWaitForObjectValue _ _ => exists i, v = VInstance i
  | CallWaitForCustom _ _ => is_undefined v = false
  end.
(** * Properties *)

Unset Implicit Arguments.

(** ** Timers *)

Lemma Qle_bool_false x y : Qle_bool x y = false <-> y < x.
Proof.
  split; intros H.
  - apply Qnot_le_lt. intros Hle. apply Qle_bool_iff in Hle. congruence.
  - destruct (Qle_bool x y) eqn:E; [|reflexivity].
    apply Qle_bool_iff in E. exfalso. eapply Qlt_not_le; eauto.
Qed.

Lemma delay_time_le seconds : seconds <= Promise.delay_time seconds.
Proof.
  unfold Promise.delay_time. destruct (Qle_bool (1 # 60) seconds) eqn:E.
  - apply Qle_refl.
  - apply Qle_bool_false in E. now apply Qlt_le_weak.
Qed.


(** A timer fires when time passes, if the clock is then past the
    deadline. *)
Lemma triggers_timer e t d :
  triggers e t (SigTimer d) =
  match e with
  | EElapse _ => if Qle_bool t d then None else Some VUndefined
  | _ => None
  end.
Proof. destruct e; reflexivity. Qed.

Lemma timer_due e t d args : triggers e t (SigTimer d) = Some args -> d < t.
Proof.
  rewrite triggers_timer. destruct e; try discriminate.
  destruct (Qle_bool t d) eqn:E; [discriminate|]. intros _. now apply Qle_bool_false.
Qed.

(** ** Settled promises *)

Lemma deliver_settled e p s : is_settled p = true -> deliver e p s = (p, s).
Proof. destruct p; simpl; intros H; try discriminate; reflexivity. Qed.

Lemma step_settled e p s :
  is_settled p = true ->
  step e (p, s) = (p, run_callbacks e (host_update e s)).
Proof. intros H. unfold step. simpl. now apply deliver_settled. Qed.

Lemma run_settled evs : forall p s,
  is_settled p = true -> fst (run evs (p, s)) = p.
Proof.
  induction evs as [|e evs IH]; intros p s H; simpl; [reflexivity|].
  rewrite step_settled by assumption. now apply IH.
Qed.

Lemma connections_host_update e s : connections (host_update e s) = connections s.
Proof. destruct e; reflexivity. Qed.

Lemma connections_run_callbacks e s : connections (run_callbacks e s) = connections s.
Proof. unfold run_callbacks. destruct (existsb _ _); reflexivity. Qed.

Lemma calls_host_update e s : calls (host_update e s) = calls s.
Proof. destruct e; reflexivity. Qed.

Lemma calls_run_callbacks e s : calls (run_callbacks e s) = calls s.
Proof. unfold run_callbacks. destruct (existsb _ _); reflexivity. Qed.

Lemma run_settled_env evs : forall p s,
  is_settled p = true ->
  connections (snd (run evs (p, s))) = connections s /\
  calls (snd (run evs (p, s))) = calls s.
Proof.
  induction evs as [|e evs IH]; intros p s H; simpl; [split; reflexivity|].
  rewrite step_settled by assumption.
  destruct (IH p (run_callbacks e (host_update e s)) H) as [Hc Hn].
  rewrite Hc, Hn, connections_run_callbacks, connections_host_update,
    calls_run_callbacks, calls_host_update. split; reflexivity.
Qed.

(** ** The empty batch *)

(** C9.  [waitForChildren] called with no name resolves with the empty
    array, whatever the parent, the flag and the timeout; it connects
    nothing, and no later event turns the result into a rejection. *)
Theorem waitForChildren_of_no_name_resolves_empty
    (parent : Instance) (recursive : option bool) (timeout : option Q)
    (s : env) (evs : list event) :
  fst (waitForChildren parent [] recursive timeout s) = Resolved (VArray []) /\
  connections (snd (waitForChildren parent [] recursive timeout s)) = connections s /\
  fst (run evs (waitForChildren parent [] recursive timeout s)) = Resolved (VArray []).
Proof.
  assert (H : waitForChildren parent [] recursive timeout s
              = (Resolved (VArray []), set_destroyed false (set_destroying [] s))).
  { reflexivity. }
  rewrite H. simpl. repeat split.
  now apply run_settled.
Qed.

(** ** The table of connections *)

Lemma Disconnect_eq c s :
  Disconnect c s = (tt, set_connections (set_nth c off (connections s)) s).
Proof. reflexivity. Qed.

Lemma set_nth_app_here {A} (f : A -> A) (l : list A) (a : A) (r : list A) :
  set_nth (List.length l) f (l ++ a :: r) = l ++ f a :: r.
Proof. induction l as [|x l IH]; simpl; [reflexivity|]. now rewrite IH. Qed.

Lemma forM_Disconnect ids : forall s,
  forM_ ids Disconnect s =
  (tt, set_connections (fold_left (fun l c => set_nth c off l) ids (connections s)) s).
Proof.
  induction ids as [|c ids IH]; intros s; simpl.
  - destruct s; reflexivity.
  - unfold bind. rewrite Disconnect_eq, IH. destruct s; reflexivity.
Qed.

Lemma disconnect_suffix (w : list connection) : forall l,
  fold_left (fun l c => set_nth c off l) (seq (List.length l) (List.length w)) (l ++ w)
  = l ++ map off w.
Proof.
  induction w as [|a w IH]; intros l; simpl; [reflexivity|].
  rewrite set_nth_app_here.
  change (l ++ off a :: w) with (l ++ [off a] ++ w). rewrite app_assoc.
  replace (S (List.length l)) with (List.length (l ++ [off a]))
    by (rewrite length_app; simpl; lia).
  rewrite IH, <- app_assoc. reflexivity.
Qed.

(** ** A candidate that exists at call time *)

Lemma found_all_cons parent name names recursive children :
  found_all parent (name :: names) recursive = Some children ->
  exists child rest,
    children = child :: rest /\
    FindFirstChild parent name recursive = Some child /\
    found_all parent names recursive = Some rest.
Proof.
  simpl. destruct (FindFirstChild parent name recursive) as [child|]; [|discriminate].
  destruct (found_all parent names recursive) as [rest|]; [|discriminate].
  intros H. inversion H. eauto.
Qed.

(** The loop of [waitForChildren] when every name is found at once: one
    live watch per child, in the order of the names. *)
Lemma wait_each_found parent recursive timeout names : forall children s,
  found_all parent names recursive = Some children ->
  mapM (fun childName =>
          found <- waitForChild parent childName (Some recursive) (Some timeout) ;;
          Promise.andThen found watch_child) names s
  = (map (fun c => Resolved (VInstance c)) children,
     set_destroying (destroying s ++ seq (List.length (connections s)) (List.length children))
       (set_connections (connections s ++ map (watch true) children) s)).
Proof.
  induction names as [|name names IH]; intros children s H.
  - simpl in H. inversion H. simpl. rewrite !app_nil_r. destruct s; reflexivity.
  - apply found_all_cons in H. destruct H as (child & rest & -> & Hc & Hr).
    cbn [mapM]. unfold bind at 1. unfold waitForChild at 1. cbn [default].
    rewrite Hc. cbn. unfold bind at 1.
    rewrite (IH rest _ Hr). cbn.
    rewrite length_app. cbn. rewrite <- !app_assoc. cbn.
    replace (List.length (connections s) + 1)%nat with (S (List.length (connections s))) by lia.
    reflexivity.
Qed.

Lemma all_resolved (vs : list value) :
  Promise.all (map Resolved vs) = ret (Resolved (VArray vs)).
Proof.
  unfold Promise.all.
  assert (Hv : resolved_values (map Resolved vs) = Some vs)
    by (induction vs as [|v vs IH]; simpl; [|rewrite IH]; reflexivity).
  assert (Hr : first_rejected (map Resolved vs) = None)
    by (clear Hv; induction vs; simpl; auto).
  now rewrite Hr, Hv.
Qed.

Lemma waitForChildren_found parent names recursive timeout s children :
  found_all parent names (default false recursive) = Some children ->
  waitForChildren parent names recursive timeout s
  = (Resolved (VArray (map VInstance children)),
     set_destroyed false
       (set_destroying (seq (List.length (connections s)) (List.length children))
          (set_connections (connections s ++ map (watch false) children) s))).
Proof.
  intros H. unfold waitForChildren.
  unfold bind at 1. cbn [modify]. unfold bind at 1. cbn [modify].
  unfold bind at 1.
  rewrite (wait_each_found parent (default false recursive) (default DEFAULT_TIMEOUT timeout)
             names children _ H).
  replace (map (fun c => Resolved (VInstance c)) children)
    with (map Resolved (map VInstance children)) by (now rewrite map_map).
  unfold bind at 1. rewrite all_resolved. cbn [ret Promise.andThen].
  unfold check_destroyed. unfold bind at 1. cbn [gets].
  unfold bind at 1. rewrite forM_Disconnect. cbn.
  rewrite <- (length_map (watch true) children) at 1.
  rewrite disconnect_suffix, map_map. reflexivity.
Qed.

(** C1 (as the code has it).  When the synchronous check of a call finds
    its candidate, the call returns a promise already resolved with that
    candidate.  Every function but [waitForChildren] then leaves the table
    of connections as it was: nothing is connected, no timer is armed.
    [waitForChildren] connects one callback to the [Destroying] signal of
    each child it found, in the order of the names, and has disconnected
    all of them when it returns. *)
Theorem found_at_call_time_resolves_at_once (c : call) (s : env) (v : value) :
  initial_check c s = Some v ->
  fst (perform c s) = Normal (Resolved v) /\
  (is_batch c = false -> connections (snd (perform c s)) = connections s) /\
  (forall parent names recursive timeout,
      c = CallWaitForChildren parent names recursive timeout ->
      exists children,
        found_all parent names (default false recursive) = Some children /\
        connections (snd (perform c s)) = connections s ++ map (watch false) children).
Proof.
  intros H. destruct c; simpl in H.
  - destruct (FindFirstChild parent childName (default false recursive)) eqn:E;
      [|discriminate].
    inversion H; subst. unfold perform, normally, bind, waitForChild.
    rewrite E. simpl. repeat split; intros; discriminate.
  - destruct (FindFirstChildWhichIsA parent className (default false recursive)) eqn:E;
      [|discriminate].
    inversion H; subst. unfold perform, normally, bind, waitForChildWhichIsA.
    rewrite E. simpl. repeat split; intros; discriminate.
  - destruct (FindFirstChildOfClass parent className) eqn:E; [|discriminate].
    inversion H; subst. unfold perform, normally, bind, waitForChildOfClass.
    rewrite E. simpl. repeat split; intros; discriminate.
  - destruct (found_all parent childrenNames (default false recursive)) as [children|] eqn:E;
      [|discriminate].
    inversion H; subst. unfold perform, normally, bind.
    rewrite (waitForChildren_found _ _ _ timeout s _ E). simpl.
    split; [reflexivity|]. split; [discriminate|].
    intros parent' names' recursive' timeout' Hc. inversion Hc; subst.
    exists children. split; [assumption|reflexivity].
  - destruct (primaryPart s (uid model)) eqn:E; [|discriminate].
    inversion H; subst. unfold perform, normally, waitForPrimaryPart, PrimaryPart, gets, bind.
    cbv beta iota. rewrite E. simpl. repeat split; intros; discriminate.
  - destruct (objectValue s (uid holder)) eqn:E; [|discriminate].
    inversion H; subst. unfold perform, normally, waitForObjectValue, Value, gets, bind.
    cbv beta iota. rewrite E. simpl. repeat split; intros; discriminate.
  - destruct (predicate (calls s)) as [v0|exn] eqn:E; [|discriminate].
    destruct (is_undefined v0) eqn:U; [discriminate|].
    inversion H; subst. unfold perform, waitForCustom, invoke, gets, modify, ret, bind.
    cbv beta iota. rewrite E. cbv beta iota. rewrite U. simpl. repeat split; intros; discriminate.
Qed.

Lemma found_at_call_time_resolves_at_once_witness :
  initial_check (CallWaitForChild vehicle "LeftWheel" None None) (fresh 0)
    = Some (VInstance LeftWheel) /\
  fst (perform (CallWaitForChild vehicle "LeftWheel" None None) (fresh 0))
    = Normal (Resolved (VInstance LeftWheel)).
Proof.
  split; [reflexivity|].
  apply (found_at_call_time_resolves_at_once
           (CallWaitForChild vehicle "LeftWheel" None None) (fresh 0)
           (VInstance LeftWheel)).
  reflexivity.
Defined.

(** C1, as stated, fails for the batch wait: [waitForChildren] of a child
    that is there resolves at once and yet has made a connection, to the
    child's [Destroying] signal. *)
Lemma found_at_call_time_still_connects_in_batch :
  let c := CallWaitForChildren vehicle ["LeftWheel"] None None in
  initial_check c (fresh 0) = Some (VArray [VInstance LeftWheel]) /\
  fst (perform c (fresh 0)) = Normal (Resolved (VArray [VInstance LeftWheel])) /\
  connections (snd (perform c (fresh 0)))
    = [mkConnection (SigDestroying 1) SetDestroyed false] /\
  connections (snd (perform c (fresh 0))) <> connections (fresh 0).
Proof.
  cbv zeta. repeat split; try reflexivity.
  intros H. vm_compute in H. discriminate.
Qed.


(** ** States that come later *)

Lemma nth_error_set_nth {A} (f : A -> A) (l : list A) : forall c i,
  nth_error (set_nth c f l) i =
  if Nat.eqb i c then option_map f (nth_error l i) else nth_error l i.
Proof.
  induction l as [|a l IH]; intros [|c] [|i]; simpl; try reflexivity.
  - now destruct (Nat.eqb i c).
  - apply IH.
Qed.

Lemma Forall_set_nth {A} (P : A -> Prop) (f : A -> A) (l : list A) :
  (forall a, P a -> P (f a)) -> forall c, Forall P l -> Forall P (set_nth c f l).
Proof.
  intros Hf. induction l as [|a l IH]; intros [|c] H; simpl; auto;
    inversion H; subst; constructor; auto.
Qed.

Section Soundness.
Variable T : Q -> Prop.

Lemma ext_refl s : ext T s s.
Proof. constructor; auto. intros i cn H. exists cn. auto. Qed.

Lemma ext_trans s1 s2 s3 : ext T s1 s2 -> ext T s2 s3 -> ext T s1 s3.
Proof.
  intros [t1 d1 e1 q1] [t2 d2 e2 q2]. constructor; auto.
  intros i cn H.
  destruct (e1 i cn H) as (cn1 & H1 & Hs1 & Hh1 & Hc1).
  destruct (e2 i cn1 H1) as (cn2 & H2 & Hs2 & Hh2 & Hc2).
  exists cn2. repeat split; try congruence.
  intros Hw. rewrite Hc2 by congruence. auto.
Qed.


Lemma listener_ext s s' c : ext T s s' -> listener s c -> listener s' c.
Proof.
  intros He (cn & H & Hh).
  destruct (ext_entry He _ H) as (cn' & H' & _ & Hh' & _).
  exists cn'. split; congruence.
Qed.

Lemma ext_Disconnect s c : listener s c -> ext T s (snd (Disconnect c s)).
Proof.
  intros (cn & H & Hh). rewrite Disconnect_eq. simpl.
  constructor; simpl; auto.
  - intros i cn0 H0. unfold entry in *. simpl.
    rewrite nth_error_set_nth. destruct (Nat.eqb_spec i c) as [->|Hne].
    + rewrite H0. simpl. exists (off cn0). repeat split.
      intros Hw. congruence.
    + exists cn0. auto.
  - unfold quiet. simpl. apply Forall_set_nth. auto.
Qed.

Lemma ext_Connect s src h :
  (forall i a, src <> SigAttributeChanged i a) ->
  ext T s (snd (Connect src h s)).
Proof.
  intros Hq. unfold Connect. simpl. constructor; simpl; auto.
  - intros i cn H. unfold entry in *. simpl. exists cn.
    rewrite nth_error_app1 by (apply nth_error_Some; congruence). auto.
  - unfold quiet. simpl. intros H. apply Forall_app. split; auto.
Qed.

Lemma entry_Connect s src h :
  entry (snd (Connect src h s)) (fst (Connect src h s)) = Some (mkConnection src h true).
Proof.
  unfold Connect, entry. simpl. rewrite nth_error_app2 by lia.
  now rewrite Nat.sub_diag.
Qed.

(** A sound promise stays sound in a later state. *)
Lemma sound_later p : forall post s s',
  lasting T post -> sound T post s p -> ext T s s' -> sound T post s' p.
Proof.
  induction p as [v|e| |c src listen|p k IH|ps IH|ps IH] using promise_ind2;
    intros post s s' Hl H He; inversion H; subst.
  - constructor. eapply Hl; eauto.
  - constructor.
  - constructor. eapply ext_time; eauto.
  - constructor.
  - constructor.
    + eapply listener_ext; eauto.
    + intros e s1 args He1 Htr. match goal with Hk : forall _ _ _, _ |- _ => apply (Hk e) end; auto.
      eapply ext_trans; eauto.
  - econstructor; eauto.
    intros v s1 He1 Hv. match goal with Hk : forall _ _, _ |- _ => apply Hk end; auto.
    eapply ext_trans; eauto.
  - constructor. rewrite Forall_forall in *. intros q Hq. eapply IH; eauto.
  - econstructor; eauto.
    + match goal with H2 : Forall2 _ _ _, Hm : Forall _ posts |- _ =>
        clear - IH H2 Hm He; induction H2 as [|po q posts' ps' Hq H2 IH2];
          constructor; inversion IH; inversion Hm; subst; eauto end.
    + intros s1 vs He1 Hvs. match goal with Hk : forall _ _, _ |- _ => apply Hk end; auto.
      eapply ext_trans; eauto.
Qed.


Lemma cancel_Race ps : cancel (Race ps) = cancel_each ps.
Proof.
  induction ps as [|q r IH]; [reflexivity|].
  simpl in *. unfold cancel_each in *. simpl. now rewrite IH.
Qed.

Lemma cancel_All ps : cancel (All ps) = cancel_each ps.
Proof.
  induction ps as [|q r IH]; [reflexivity|].
  simpl in *. unfold cancel_each in *. simpl. now rewrite IH.
Qed.

Lemma tame_later s s' p : tame T s p -> ext T s s' -> tame T s' p.
Proof. intros (post & Hl & H) He. exists post. split; auto. eapply sound_later; eauto. Qed.

Lemma cancel_each_ext_with ps :
  Forall (fun p => forall s, tame T s p -> ext T s (snd (cancel p s))) ps ->
  forall s, Forall (tame T s) ps -> ext T s (snd (cancel_each ps s)).
Proof.
  induction 1 as [|q r Hq Hr IH]; intros s Hs; unfold cancel_each in *; simpl.
  - apply ext_refl.
  - inversion Hs; subst. unfold bind.
    destruct (cancel q s) as [u s1] eqn:E.
    assert (He : ext T s s1) by (specialize (Hq s); rewrite E in Hq; auto).
    eapply ext_trans; [exact He|]. apply IH.
    eapply Forall_impl; [|eassumption]. intros p Hp. eapply tame_later; eauto.
Qed.

Lemma Forall2_tame posts ps s :
  Forall (lasting T) posts ->
  Forall2 (fun po p => sound T po s p) posts ps ->
  Forall (tame T s) ps.
Proof.
  intros Hm H2. induction H2; inversion Hm; subst; constructor; auto.
  eexists; eauto.
Qed.

Lemma cancel_ext p : forall s, tame T s p -> ext T s (snd (cancel p s)).
Proof.
  induction p as [v|e| |c src listen|p k IH|ps IH|ps IH] using promise_ind2;
    intros s (post & Hl & H); try (simpl; apply ext_refl).
  - inversion H; subst. simpl. now apply ext_Disconnect.
  - inversion H; subst. simpl. apply IH. eexists; eauto.
  - inversion H; subst. rewrite cancel_Race. apply cancel_each_ext_with; auto.
    eapply Forall_impl; [|eassumption]. intros; eexists; eauto.
  - inversion H; subst. rewrite cancel_All. apply cancel_each_ext_with; auto.
    eapply Forall2_tame; eauto.
Qed.

Lemma cancel_each_ext ps s : Forall (tame T s) ps -> ext T s (snd (cancel_each ps s)).
Proof.
  apply cancel_each_ext_with. apply Forall_forall. intros p _ s0. apply cancel_ext.
Qed.

(** The combinators of the library build sound promises. *)
Lemma sound_Rejected_any post post' s e :
  sound T post s (Rejected e) -> sound T post' s (Rejected e).
Proof. intros H. inversion H; subst; constructor; auto. Qed.

Lemma andThen_sound post post' p k s :
  lasting T post' -> sound T post' s p ->
  (forall v s1, ext T s s1 -> post' s1 v ->
      ext T s1 (snd (k v s1)) /\ sound T post (snd (k v s1)) (fst (k v s1))) ->
  sound T post (snd (Promise.andThen p k s)) (fst (Promise.andThen p k s)) /\
  ext T s (snd (Promise.andThen p k s)).
Proof.
  intros Hl H Hk. destruct p; simpl;
    try (split; [econstructor; eauto | apply ext_refl]).
  - inversion H; subst. destruct (Hk v s (ext_refl s)) as [He Hs]; auto.
  - split; [|apply ext_refl]. eapply sound_Rejected_any; eauto.
Qed.

Lemma first_decided_In ps : forall r, first_decided ps = Some r -> In r ps.
Proof.
  induction ps as [|p ps IH]; intros r H; simpl in *; [discriminate|].
  destruct p; try (right; now apply IH); inversion H; subst; now left.
Qed.

Lemma first_rejected_In ps : forall e, first_rejected ps = Some e -> In (Rejected e) ps.
Proof.
  induction ps as [|p ps IH]; intros r H; simpl in *; [discriminate|].
  destruct p; try (right; now apply IH). inversion H; subst; now left.
Qed.

Lemma resolved_values_map ps : forall vs, resolved_values ps = Some vs -> ps = map Resolved vs.
Proof.
  induction ps as [|p ps IH]; intros vs H; simpl in *.
  - inversion H. reflexivity.
  - destruct p; try discriminate.
    destruct (resolved_values ps) as [vs'|]; [|discriminate].
    inversion H; subst. simpl. now rewrite (IH vs' eq_refl).
Qed.

Lemma race_sound post ps s :
  lasting T post -> Forall (sound T post s) ps ->
  sound T post (snd (Promise.race ps s)) (fst (Promise.race ps s)) /\
  ext T s (snd (Promise.race ps s)).
Proof.
  intros Hl H. unfold Promise.race.
  destruct (first_decided ps) as [r|] eqn:E.
  - unfold bind, ret. destruct (cancel_each ps s) as [u s'] eqn:Ec. simpl.
    assert (He : ext T s s').
    { replace s' with (snd (cancel_each ps s)) by (now rewrite Ec).
      apply cancel_each_ext. eapply Forall_impl; [|exact H].
      intros p Hp. exists post. auto. }
    split; auto. apply sound_later with (s := s); auto.
    rewrite Forall_forall in H. apply H. now apply first_decided_In.
  - simpl. split; [now constructor | apply ext_refl].
Qed.

Lemma Forall2_resolved posts vs s :
  Forall2 (fun po p => sound T po s p) posts (map Resolved vs) ->
  Forall2 (fun po v => po s v) posts vs.
Proof.
  revert posts. induction vs as [|v vs IH]; intros posts H; simpl in H;
    inversion H; subst; constructor; auto.
  match goal with Hs : sound _ _ _ (Resolved _) |- _ => now inversion Hs end.
Qed.

Lemma Forall2_In_r {A B} (R : A -> B -> Prop) l l' b :
  Forall2 R l l' -> In b l' -> exists a, In a l /\ R a b.
Proof.
  induction 1 as [|a b' l l' Hab H IH]; simpl; [tauto|].
  intros [->|Hin]; [eauto|]. destruct (IH Hin) as (a' & ? & ?). eauto.
Qed.

Lemma all_sound post posts ps s :
  Forall (lasting T) posts ->
  Forall2 (fun po p => sound T po s p) posts ps ->
  (forall s1 vs, ext T s s1 -> Forall2 (fun po v => po s1 v) posts vs -> post s1 (VArray vs)) ->
  sound T post (snd (Promise.all ps s)) (fst (Promise.all ps s)) /\
  ext T s (snd (Promise.all ps s)).
Proof.
  intros Hm H Hk. unfold Promise.all.
  destruct (first_rejected ps) as [e|] eqn:E.
  - unfold bind, ret. destruct (cancel_each ps s) as [u s'] eqn:Ec. simpl.
    assert (He : ext T s s').
    { replace s' with (snd (cancel_each ps s)) by (now rewrite Ec).
      apply cancel_each_ext. eapply Forall2_tame; eauto. }
    split; auto.
    apply first_rejected_In in E.
    destruct (Forall2_In_r _ _ _ _ H E) as (po & _ & Hs).
    inversion Hs; subst; constructor. eapply ext_time; eauto.
  - destruct (resolved_values ps) as [vs|] eqn:Ev; simpl.
    + split; [|apply ext_refl]. constructor. apply Hk; [apply ext_refl|].
      apply resolved_values_map in Ev. subst. now apply Forall2_resolved.
    + split; [|apply ext_refl]. econstructor; eauto.
Qed.


Lemma deliver_until_sound stop e ps :
  Forall (kept T e) ps ->
  forall posts s,
    Forall (lasting T) posts ->
    Forall2 (fun po p => sound T po s p) posts ps ->
    Forall2 (fun po p => sound T po (snd (deliver_until stop e ps s)) p)
            posts (fst (deliver_until stop e ps s)) /\
    ext T s (snd (deliver_until stop e ps s)).
Proof.
  induction 1 as [|q r Hq Hr IH]; intros posts s Hm H2; inversion H2; subst; simpl.
  - split; [constructor | apply ext_refl].
  - inversion Hm; subst. unfold bind.
    match goal with Hs : sound T ?po s q |- _ =>
      destruct (Hq po s) as [Hs1 He1]; auto end.
    destruct (deliver e q s) as [q' s1]. simpl in *.
    assert (Hr1 : Forall2 (fun po p => sound T po s1 p) l r).
    { match goal with HF : Forall2 _ l r, HL : Forall _ l |- _ =>
        clear - HF HL He1; induction HF; inversion HL; subst; constructor; auto;
        eapply sound_later; eauto end. }
    destruct (stop q').
    + simpl. split; [constructor; auto | auto].
    + destruct (IH l s1) as [Hs2 He2]; auto.
      destruct (deliver_until stop e r s1) as [r' s2]. simpl in *.
      split; [|eapply ext_trans; eauto].
      constructor; auto. eapply sound_later; eauto.
Qed.

Lemma deliver_Race e ps :
  deliver e (Race ps) = (ps' <- deliver_until is_decided e ps ;; Promise.race ps').
Proof. reflexivity. Qed.

Lemma deliver_All e ps :
  deliver e (All ps) = (ps' <- deliver_until is_rejected e ps ;; Promise.all ps').
Proof. reflexivity. Qed.

Lemma Forall2_same post s ps :
  Forall (sound T post s) ps ->
  Forall2 (fun po p => sound T po s p) (map (fun _ => post) ps) ps.
Proof. induction 1; simpl; constructor; auto. Qed.

Lemma Forall2_same_inv post s (ps : list promise) : forall ps',
  Forall2 (fun po p => sound T po s p) (map (fun _ => post) ps) ps' ->
  Forall (sound T post s) ps'.
Proof.
  induction ps as [|p ps IH]; intros ps' H; simpl in H; inversion H; subst;
    constructor; auto.
Qed.

Lemma deliver_sound e p : kept T e p.
Proof.
  induction p as [v|err| |c src listen|p k IH|ps IH|ps IH] using promise_ind2;
    intros post s Hl H.
  - simpl. split; [assumption | apply ext_refl].
  - simpl. split; [assumption | apply ext_refl].
  - simpl. split; [assumption | apply ext_refl].
  - simpl. destruct (is_connected c s); [|split; [assumption | apply ext_refl]].
    destruct (triggers e (now s) src) as [args|] eqn:Et;
      [|split; [assumption | apply ext_refl]].
    inversion H; subst.
    match goal with Hk : forall _ _ _, _ |- _ =>
      destruct (Hk e s args (ext_refl s) Et) as [He Hq] end.
    destruct (listen args s) as [[q|] s']; simpl in *.
    + split; auto.
    + split; auto. eapply sound_later; eauto.
  - inversion H; subst. simpl. unfold bind.
    match goal with Hp : sound T ?po s p |- _ =>
      destruct (IH po s) as [Hs1 He1]; auto end.
    destruct (deliver e p s) as [p1 s1]. simpl in *.
    match goal with Hp : lasting T ?po, Hk : forall _ _, _ |- _ =>
      destruct (andThen_sound post po p1 k s1 Hp Hs1) as [Hs2 He2] end.
    { intros v s2 He2 Hv. match goal with Hk : forall _ _, _ |- _ => apply Hk end; auto.
      eapply ext_trans; eauto. }
    split; auto. eapply ext_trans; eauto.
  - inversion H; subst. rewrite deliver_Race. unfold bind.
    destruct (deliver_until_sound is_decided e ps IH (map (fun _ => post) ps) s)
      as [Hs1 He1].
    { apply Forall_forall. intros po Hin. apply in_map_iff in Hin.
      destruct Hin as (? & <- & _). assumption. }
    { now apply Forall2_same. }
    destruct (deliver_until is_decided e ps s) as [ps1 s1]. simpl in *.
    apply Forall2_same_inv in Hs1.
    destruct (race_sound post ps1 s1 Hl Hs1) as [Hs2 He2].
    split; auto. eapply ext_trans; eauto.
  - inversion H; subst. rewrite deliver_All. unfold bind.
    match goal with Hm : Forall (lasting T) ?posts, H2 : Forall2 _ ?posts ps |- _ =>
      destruct (deliver_until_sound is_rejected e ps IH posts s Hm H2) as [Hs1 He1];
      destruct (deliver_until is_rejected e ps s) as [ps1 s1]; simpl in *;
      destruct (all_sound post posts ps1 s1 Hm Hs1) as [Hs2 He2]
    end.
    { intros s2 vs He2 Hvs. match goal with Hk : forall _ _, _ |- _ => apply Hk end; auto.
      eapply ext_trans; eauto. }
    split; auto. eapply ext_trans; eauto.
Qed.


Lemma ext_host e s :
  keeps_time T e -> ext T s (run_callbacks e (host_update e s)).
Proof.
  intros Hk.
  assert (H1 : ext T s (host_update e s)).
  { destruct e; try apply ext_refl; constructor; simpl; auto.
    - intros i cn H; exists cn; auto.
    - intros i cn H; exists cn; auto.
    - apply (Hk (now s)).
    - intros i cn H; exists cn; auto. }
  eapply ext_trans; [exact H1|].
  unfold run_callbacks. destruct (existsb _ _); [|apply ext_refl].
  constructor; simpl; auto. intros i cn H; exists cn; auto.
Qed.

Lemma step_sound e post p s :
  keeps_time T e -> lasting T post -> sound T post s p ->
  sound T post (snd (step e (p, s))) (fst (step e (p, s))) /\
  ext T s (snd (step e (p, s))).
Proof.
  intros Hk Hl H. unfold step. simpl.
  pose proof (ext_host e s Hk) as He.
  destruct (deliver_sound e p post _ Hl (sound_later p post s _ Hl H He)) as [Hs1 He1].
  split; auto. eapply ext_trans; eauto.
Qed.

Lemma run_sound evs : forall post p s,
  Forall (keeps_time T) evs -> lasting T post -> sound T post s p ->
  sound T post (snd (run evs (p, s))) (fst (run evs (p, s))) /\
  ext T s (snd (run evs (p, s))).
Proof.
  induction evs as [|e evs IH]; intros post p s Hk Hl H; simpl.
  - split; [assumption | apply ext_refl].
  - inversion Hk; subst.
    destruct (step_sound e post p s) as [Hs1 He1]; auto.
    destruct (step e (p, s)) as [p1 s1]. simpl in *.
    destruct (IH post p1 s1) as [Hs2 He2]; auto.
    split; auto. eapply ext_trans; eauto.
Qed.

(** The promises built by the module are sound. *)
Lemma lasting_const (P : value -> Prop) : lasting T (fun _ v => P v).
Proof. intros s s' v _ H. exact H. Qed.

Lemma fromEvent_sound post src predicate s :
  lasting T post ->
  (forall i a, src <> SigAttributeChanged i a) ->
  (forall e s1 args, triggers e (now s1) src = Some args ->
      snd (predicate args s1) = s1 /\
      (fst (predicate args s1) = true -> post s1 args)) ->
  sound T post (snd (Promise.fromEvent src predicate s))
               (fst (Promise.fromEvent src predicate s)) /\
  ext T s (snd (Promise.fromEvent src predicate s)).
Proof.
  intros Hl Hq Hp. unfold Promise.fromEvent, bind, ret.
  pose proof (ext_Connect s src PromiseListener Hq) as He.
  pose proof (entry_Connect s src PromiseListener) as Hc.
  destruct (Connect src PromiseListener s) as [c s0]. simpl in *.
  split; auto. constructor.
  - eexists; split; [exact Hc | reflexivity].
  - intros e s1 args He1 Ht. unfold Promise.on_firing, bind.
    destruct (Hp e s1 args Ht) as [Hs Hok].
    destruct (predicate args s1) as [ok s1']. simpl in *. subst s1'.
    destruct ok; simpl.
    + assert (Hd : ext T s1 (snd (Disconnect c s1))).
      { apply ext_Disconnect. eapply listener_ext; eauto.
        eexists; split; [exact Hc | reflexivity]. }
      split; auto. intros q Hq'. inversion Hq'; subst.
      constructor. eapply Hl; eauto.
    + split; [apply ext_refl | discriminate].
Qed.

Lemma timeout_sound post p seconds s :
  lasting T post -> sound T post s p ->
  (forall t, now s + Promise.delay_time seconds < t -> T t) ->
  sound T post (snd (Promise.timeout p seconds s)) (fst (Promise.timeout p seconds s)) /\
  ext T s (snd (Promise.timeout p seconds s)).
Proof.
  intros Hl H HT. unfold Promise.timeout, bind, gets.
  set (d := now s + Promise.delay_time seconds) in *.
  assert (Hq : forall i a, SigTimer d <> SigAttributeChanged i a) by discriminate.
  pose proof (ext_Connect s (SigTimer d) PromiseListener Hq) as He.
  pose proof (entry_Connect s (SigTimer d) PromiseListener) as Hc.
  destruct (Connect (SigTimer d) PromiseListener s) as [c s0]. simpl in *.
  match goal with |- context [Promise.race ?l s0] =>
    destruct (race_sound post l s0 Hl) as [Hs1 He1] end.
  { constructor; [|constructor; [|constructor]].
    - constructor.
      + eexists; split; [exact Hc | reflexivity].
      + intros e s1 args He1 Ht.
        assert (Hd : ext T s1 (snd (Disconnect c s1))).
        { apply ext_Disconnect. eapply listener_ext; eauto.
          eexists; split; [exact Hc | reflexivity]. }
        unfold Promise.on_timeout, bind, ret. simpl. split; auto.
        intros q Hq'. inversion Hq'; subst. constructor.
        simpl. apply HT. apply timer_due in Ht. exact Ht.
    - eapply sound_later; eauto. }
  split; auto. eapply ext_trans; eauto.
Qed.

Lemma watchDestroying_sound post instance p s :
  lasting T post -> sound T post s p ->
  sound T post (snd (watchDestroying instance p s)) (fst (watchDestroying instance p s)) /\
  ext T s (snd (watchDestroying instance p s)).
Proof.
  intros Hl H. unfold watchDestroying, bind.
  destruct (fromEvent_sound anything (Destroying instance) (fun _ => ret true) s)
    as [Hs1 He1].
  { apply lasting_const. }
  { discriminate. }
  { intros; split; [reflexivity | intros; exact I]. }
  destruct (Promise.fromEvent (Destroying instance) (fun _ => ret true) s) as [d s1].
  simpl in *.
  destruct (andThen_sound post anything d (fun _ => Promise.reject Destroyed) s1)
    as [Hs2 He2]; auto.
  { apply lasting_const. }
  { intros v s2 _ _. simpl. split; [apply ext_refl | constructor]. }
  destruct (Promise.andThen d (fun _ => Promise.reject Destroyed) s1) as [r s2].
  simpl in *.
  destruct (race_sound post [p; r] s2 Hl) as [Hs3 He3].
  { constructor; [|constructor; [assumption | constructor]].
    eapply sound_later; eauto. eapply ext_trans; eauto. }
  split; auto. eapply ext_trans; [|exact He3]. eapply ext_trans; eauto.
Qed.

(** The three steps shared by the waits on one candidate. *)
Lemma guarded_sound post instance p seconds s :
  lasting T post -> sound T post s p ->
  (forall t, now s + Promise.delay_time seconds < t -> T t) ->
  let r := (watched <- watchDestroying instance p ;; Promise.timeout watched seconds) s in
  sound T post (snd r) (fst r) /\ ext T s (snd r) /\ now (snd r) = now s.
Proof.
  intros Hl H HT. cbv zeta. unfold bind.
  destruct (watchDestroying_sound post instance p s Hl H) as [Hs1 He1].
  assert (Hn1 : now (snd (watchDestroying instance p s)) = now s).
  { unfold watchDestroying, Promise.fromEvent, Promise.andThen, Promise.race, bind.
    simpl. destruct p; reflexivity. }
  destruct (watchDestroying instance p s) as [w s1]. simpl in *.
  destruct (timeout_sound post w seconds s1 Hl Hs1) as [Hs2 He2].
  { rewrite Hn1. exact HT. }
  assert (Hn2 : now (snd (Promise.timeout w seconds s1)) = now s1).
  { unfold Promise.timeout, Promise.race, bind. simpl. destruct w; reflexivity. }
  split; [exact Hs2|]. split; [eapply ext_trans; eauto | congruence].
Qed.

Lemma bind_run {A B} (m : M A) (k : A -> M B) s :
  bind m k s = k (fst (m s)) (snd (m s)).
Proof. unfold bind. destruct (m s); reflexivity. Qed.

Lemma ext_same_table s s' :
  now s' = now s -> destroyed s' = destroyed s -> connections s' = connections s ->
  ext T s s'.
Proof.
  intros Hn Hd Hc. constructor.
  - now rewrite Hn.
  - now rewrite Hd.
  - intros i cn H. exists cn. unfold entry in *. rewrite Hc. auto.
  - unfold quiet. now rewrite Hc.
Qed.

Lemma wait_on_signal_sound post instance src predicate seconds s :
  lasting T post ->
  (forall i a, src <> SigAttributeChanged i a) ->
  (forall e s1 args, triggers e (now s1) src = Some args ->
      snd (predicate args s1) = s1 /\
      (fst (predicate args s1) = true -> post s1 args)) ->
  (forall t, now s + Promise.delay_time seconds < t -> T t) ->
  let r := (added <- Promise.fromEvent src predicate ;;
            watched <- watchDestroying instance added ;;
            Promise.timeout watched seconds) s in
  sound T post (snd r) (fst r) /\ ext T s (snd r).
Proof.
  intros Hl Hq Hp HT. cbv zeta. unfold bind at 1 3 5.
  destruct (fromEvent_sound post src predicate s Hl Hq Hp) as [Hs1 He1].
  assert (Hn : now (snd (Promise.fromEvent src predicate s)) = now s) by reflexivity.
  destruct (Promise.fromEvent src predicate s) as [added s1]. simpl in Hs1, He1, Hn.
  destruct (guarded_sound post instance added seconds s1 Hl Hs1) as (Hs2 & He2 & _).
  { rewrite Hn. exact HT. }
  split; [exact Hs2 | eapply ext_trans; eauto].
Qed.

(** The waits on a property: the listener's promise is chained with a
    callback that reads the property. *)
Lemma property_wait_sound instance src predicate k seconds s :
  (forall i a, src <> SigAttributeChanged i a) ->
  (forall args s1, snd (predicate args s1) = s1) ->
  (forall v s2, snd (k v s2) = s2 /\ exists w, fst (k v s2) = Resolved w) ->
  (forall t, now s + Promise.delay_time seconds < t -> T t) ->
  let r := (changed <- Promise.fromEvent src predicate ;;
            read <- Promise.andThen changed k ;;
            watched <- watchDestroying instance read ;;
            Promise.timeout watched seconds) s in
  sound T anything (snd r) (fst r) /\ ext T s (snd r).
Proof.
  intros Hq Hp Hk HT. cbv zeta.
  destruct (fromEvent_sound anything src predicate s) as [Hs1 He1]; auto.
  { apply lasting_const. }
  { intros e s1 args _. split; [apply Hp | intros; exact I]. }
  set (changed := fst (Promise.fromEvent src predicate s)) in *.
  set (s1 := snd (Promise.fromEvent src predicate s)) in *.
  assert (Hn : now s1 = now s) by reflexivity.
  destruct (guarded_sound anything instance (AndThen changed k) seconds s1)
    as (Hs2 & He2 & _).
  { apply lasting_const. }
  { apply sound_AndThen with (post' := anything); auto.
    - apply lasting_const.
    - intros v s2 _ _. destruct (Hk v s2) as [Hs (w & Hw)].
      rewrite Hs, Hw. split; [apply ext_refl | constructor; exact I]. }
  { rewrite Hn. exact HT. }
  split; [exact Hs2 | eapply ext_trans; eauto].
Qed.

Lemma on_instance_spec (f : Instance -> bool) (P : Instance -> Prop) :
  (forall c, f c = true -> P c) ->
  forall args s1,
    snd (on_instance f args s1) = s1 /\
    (fst (on_instance f args s1) = true -> exists i, args = VInstance i /\ P i).
Proof.
  intros Hf args s1. split; [reflexivity|]. unfold on_instance, ret. simpl.
  destruct args; try discriminate. intros H. eauto.
Qed.

Lemma poll_sound predicate hb s :
  listener s hb ->
  sound T defined s (Listening hb SigHeartbeat (poll predicate hb)).
Proof.
  intros Hb. constructor; auto.
  intros e s1 args He1 _. unfold poll, invoke, bind, gets, modify, ret. simpl.
  assert (Hc : ext T s1 (set_calls (S (calls s1)) s1))
    by (apply ext_same_table; reflexivity).
  destruct (predicate (calls s1)) as [v|exn]; simpl.
  - destruct (is_undefined v) eqn:U; simpl.
    + split; [exact Hc | discriminate].
    + assert (Hd : ext T (set_calls (S (calls s1)) s1)
                     (snd (Disconnect hb (set_calls (S (calls s1)) s1)))).
      { apply ext_Disconnect. eapply listener_ext; [|exact Hb].
        eapply ext_trans; eauto. }
      split; [eapply ext_trans; eauto|].
      intros q Hq. inversion Hq; subst. constructor. exact U.
  - split; [exact Hc | discriminate].
Qed.

Lemma waitForPrimaryPart_sound model timeout s :
  (forall t, now s + Promise.delay_time (default DEFAULT_TIMEOUT timeout) < t -> T t) ->
  sound T anything (snd (waitForPrimaryPart model timeout s))
                   (fst (waitForPrimaryPart model timeout s)) /\
  ext T s (snd (waitForPrimaryPart model timeout s)).
Proof.
  intros HT.
  remember (waitForPrimaryPart model timeout s) as r eqn:Er.
  unfold waitForPrimaryPart in Er. unfold bind at 1 in Er.
  unfold PrimaryPart at 1, gets at 1 in Er.
  destruct (primaryPart s (uid model)) as [part|].
  - subst r. simpl. split; [|apply ext_refl]. constructor. exact I.
  - subst r. apply property_wait_sound; auto.
    + discriminate.
    + intros v s2. split; [reflexivity | eexists; reflexivity].
Qed.

Lemma waitForObjectValue_sound holder timeout s :
  (forall t, now s + Promise.delay_time (default DEFAULT_TIMEOUT timeout) < t -> T t) ->
  sound T anything (snd (waitForObjectValue holder timeout s))
                   (fst (waitForObjectValue holder timeout s)) /\
  ext T s (snd (waitForObjectValue holder timeout s)).
Proof.
  intros HT.
  remember (waitForObjectValue holder timeout s) as r eqn:Er.
  unfold waitForObjectValue in Er. unfold bind at 1 in Er.
  unfold Value at 1, gets at 1 in Er.
  destruct (objectValue s (uid holder)) as [v0|].
  - subst r. simpl. split; [|apply ext_refl]. constructor. exact I.
  - subst r. apply property_wait_sound; auto.
    + discriminate.
    + intros v s2. split; [reflexivity | eexists; reflexivity].
Qed.

Lemma waitForCustom_sound predicate timeout s :
  (forall t, now s + Promise.delay_time (default DEFAULT_TIMEOUT timeout) < t -> T t) ->
  match fst (waitForCustom predicate timeout s) with
  | Normal p =>
      sound T defined (snd (waitForCustom predicate timeout s)) p /\
      ext T s (snd (waitForCustom predicate timeout s))
  | Throw _ => True
  end.
Proof.
  intros HT.
  remember (waitForCustom predicate timeout s) as r eqn:Er.
  unfold waitForCustom, invoke in Er. unfold bind, gets, modify, ret in Er.
  assert (Hc : ext T s (set_calls (S (calls s)) s))
    by (apply ext_same_table; reflexivity).
  destruct (predicate (calls s)) as [v|exn]; [|subst r; exact I].
  destruct (is_undefined v) eqn:U; cbn [negb] in Er; cbv iota in Er.
  - set (s0 := set_calls (S (calls s)) s) in *.
    assert (Hq : forall i a, SigHeartbeat <> SigAttributeChanged i a) by discriminate.
    pose proof (ext_Connect s0 SigHeartbeat PromiseListener Hq) as He.
    pose proof (entry_Connect s0 SigHeartbeat PromiseListener) as Hh.
    assert (Hn : now (snd (Connect SigHeartbeat PromiseListener s0)) = now s)
      by reflexivity.
    destruct (Connect SigHeartbeat PromiseListener s0) as [hb s1].
    cbn [fst snd] in He, Hh, Hn.
    destruct (timeout_sound defined (Listening hb SigHeartbeat (poll predicate hb))
                (default DEFAULT_TIMEOUT timeout) s1) as [Hs2 He2].
    { apply lasting_const. }
    { apply poll_sound. eexists; split; [exact Hh | reflexivity]. }
    { rewrite Hn. exact HT. }
    destruct (Promise.timeout (Listening hb SigHeartbeat (poll predicate hb))
                (default DEFAULT_TIMEOUT timeout) s1) as [p s2].
    subst r. cbn [fst snd] in *. split; [exact Hs2|].
    eapply ext_trans; [exact Hc|]. eapply ext_trans; eauto.
  - subst r. cbn [fst snd]. split; [|exact Hc]. constructor. exact U.
Qed.

(** Every function but [waitForChildren] returns a sound promise. *)
Lemma perform_sound c s :
  is_batch c = false ->
  (forall t, now s + Promise.delay_time (timeout_of c) < t -> T t) ->
  match fst (perform c s) with
  | Normal p => sound T (post_of c) (snd (perform c s)) p /\ ext T s (snd (perform c s))
  | Throw _ => True
  end.
Proof.
  intros Hb HT. destruct c; try discriminate; simpl in HT; simpl perform.
  - unfold normally, bind at 1, waitForChild.
    destruct (FindFirstChild parent childName (default false recursive)) as [child|] eqn:E.
    + simpl. split; [|apply ext_refl]. constructor. exists child. split; auto.
      apply find_some in E. now apply String.eqb_eq.
    + match goal with |- context [bind ?m ?k s] =>
        pose proof (wait_on_signal_sound (named childName) parent
          (if default false recursive then DescendantAdded parent else ChildAdded parent)
          (on_instance (fun c => String.eqb (Name c) childName))
          (default DEFAULT_TIMEOUT timeout) s) as Hw end.
      cbv zeta in Hw. simpl.
      match type of Hw with _ -> _ -> _ -> _ -> ?G => assert (Hg : G) end.
      { apply Hw; auto.
        - apply lasting_const.
        - destruct (default false recursive); discriminate.
        - intros e s1 args _.
          apply (on_instance_spec _ (fun i => Name i = childName)).
          intros c. apply String.eqb_eq. }
      destruct Hg as [Hs He]. split; assumption.
  - unfold normally, bind at 1, waitForChildWhichIsA.
    destruct (FindFirstChildWhichIsA parent className (default false recursive))
      as [child|] eqn:E.
    + simpl. split; [|apply ext_refl]. constructor. exists child. split; auto.
      apply find_some in E. tauto.
    + pose proof (wait_on_signal_sound (is_a className) parent (ChildAdded parent)
          (on_instance (fun c => IsA c className))
          (default DEFAULT_TIMEOUT timeout) s) as Hw.
      cbv zeta in Hw. simpl.
      match type of Hw with _ -> _ -> _ -> _ -> ?G => assert (Hg : G) end.
      { apply Hw; auto.
        - apply lasting_const.
        - discriminate.
        - intros e s1 args _.
          apply (on_instance_spec _ (fun i => IsA i className = true)). auto. }
      destruct Hg as [Hs He]. split; assumption.
  - unfold normally, bind at 1, waitForChildOfClass.
    destruct (FindFirstChildOfClass parent className) as [child|] eqn:E.
    + simpl. split; [|apply ext_refl]. constructor. exists child. split; auto.
      apply find_some in E. now apply String.eqb_eq.
    + pose proof (wait_on_signal_sound (of_class className) parent (ChildAdded parent)
          (on_instance (fun c => String.eqb (ClassName c) className))
          (default DEFAULT_TIMEOUT timeout) s) as Hw.
      cbv zeta in Hw. simpl.
      match type of Hw with _ -> _ -> _ -> _ -> ?G => assert (Hg : G) end.
      { apply Hw; auto.
        - apply lasting_const.
        - discriminate.
        - intros e s1 args _.
          apply (on_instance_spec _ (fun i => ClassName i = className)).
          intros c. apply String.eqb_eq. }
      destruct Hg as [Hs He]. split; assumption.
  - unfold normally. rewrite bind_run. unfold ret. cbn [fst snd].
    apply waitForPrimaryPart_sound. exact HT.
  - unfold normally. rewrite bind_run. unfold ret. cbn [fst snd].
    apply waitForObjectValue_sound. exact HT.
  - apply waitForCustom_sound. exact HT.
Qed.

(** ** The batch wait *)

Lemma lasting_named_and_watched name : lasting T (named_and_watched name).
Proof.
  intros s s' v He (i & -> & Hn & c & Hc).
  exists i. repeat split; auto.
  destruct (ext_entry He _ Hc) as (cn' & H' & Hs & Hh & Hk).
  exists c. rewrite H'. f_equal. destruct cn' as [sg hd cd]. simpl in *.
  unfold watch. rewrite Hs, Hh, (Hk eq_refl). reflexivity.
Qed.

Lemma watch_child_sound name v s :
  named name s v ->
  ext T s (snd (watch_child v s)) /\
  sound T (named_and_watched name) (snd (watch_child v s)) (fst (watch_child v s)).
Proof.
  intros (i & -> & Hn). unfold watch_child, bind, modify, Promise.resolve, ret.
  assert (Hq : forall j a, Destroying i <> SigAttributeChanged j a) by discriminate.
  pose proof (ext_Connect s (Destroying i) SetDestroyed Hq) as He.
  pose proof (entry_Connect s (Destroying i) SetDestroyed) as Hc.
  destruct (Connect (Destroying i) SetDestroyed s) as [cn s1]. cbn [fst snd] in *.
  split.
  - eapply ext_trans; [exact He|]. apply ext_same_table; reflexivity.
  - constructor. exists i. repeat split; auto. exists cn. exact Hc.
Qed.

Lemma waitForChild_sound parent childName recursive timeout s :
  (forall t, now s + Promise.delay_time (default DEFAULT_TIMEOUT timeout) < t -> T t) ->
  sound T (named childName) (snd (waitForChild parent childName recursive timeout s))
        (fst (waitForChild parent childName recursive timeout s)) /\
  ext T s (snd (waitForChild parent childName recursive timeout s)).
Proof.
  intros HT.
  pose proof (perform_sound (CallWaitForChild parent childName recursive timeout) s
                eq_refl HT) as H.
  simpl in H. unfold normally in H. rewrite bind_run in H. exact H.
Qed.

Lemma now_waitForChild parent childName recursive timeout s :
  now (snd (waitForChild parent childName recursive timeout s)) = now s.
Proof.
  unfold waitForChild.
  destruct (FindFirstChild parent childName (default false recursive)); reflexivity.
Qed.

Lemma now_andThen p k s :
  (forall v s1, now (snd (k v s1)) = now s1) ->
  now (snd (Promise.andThen p k s)) = now s.
Proof. intros Hk. destruct p; simpl; auto. Qed.

Lemma now_watch_child v s : now (snd (watch_child v s)) = now s.
Proof. destruct v; reflexivity. Qed.


Lemma wait_and_watch_sound parent recursive timeout childName s :
  (forall t, now s + Promise.delay_time timeout < t -> T t) ->
  let r := wait_and_watch parent recursive timeout childName s in
  sound T (named_and_watched childName) (snd r) (fst r) /\
  ext T s (snd r) /\ now (snd r) = now s.
Proof.
  intros HT. cbv zeta. unfold wait_and_watch. rewrite bind_run.
  destruct (waitForChild_sound parent childName (Some recursive) (Some timeout) s HT)
    as [Hs1 He1].
  pose proof (now_waitForChild parent childName (Some recursive) (Some timeout) s) as Hn1.
  destruct (waitForChild parent childName (Some recursive) (Some timeout) s)
    as [found s1]. cbn [fst snd] in *.
  destruct (andThen_sound (named_and_watched childName) (named childName)
              found watch_child s1) as [Hs2 He2]; auto.
  { apply lasting_const. }
  { intros v s2 _ Hv. destruct (watch_child_sound childName v s2 Hv). auto. }
  split; auto. split; [eapply ext_trans; eauto|].
  rewrite now_andThen; auto. intros; apply now_watch_child.
Qed.

Lemma children_sound parent recursive timeout names : forall s,
  (forall t, now s + Promise.delay_time timeout < t -> T t) ->
  let r := mapM (wait_and_watch parent recursive timeout) names s in
  Forall2 (fun name q => sound T (named_and_watched name) (snd r) q) names (fst r) /\
  ext T s (snd r) /\ now (snd r) = now s.
Proof.
  induction names as [|name names IH]; intros s HT; cbv zeta.
  - simpl. split; [constructor|]. split; [apply ext_refl | reflexivity].
  - cbn [mapM]. rewrite bind_run.
    destruct (wait_and_watch_sound parent recursive timeout name s HT)
      as (Hs1 & He1 & Hn1).
    destruct (wait_and_watch parent recursive timeout name s) as [q s1].
    cbn [fst snd] in *. rewrite bind_run.
    destruct (IH s1) as (Hs2 & He2 & Hn2).
    { rewrite Hn1. exact HT. }
    destruct (mapM (wait_and_watch parent recursive timeout) names s1) as [qs s2].
    cbn [fst snd ret] in *.
    split; [|split; [eapply ext_trans; eauto | congruence]].
    constructor; auto. eapply sound_later; eauto.
    apply lasting_named_and_watched.
Qed.

Lemma check_destroyed_eq v s :
  check_destroyed v s =
  (if destroyed s then Rejected Destroyed else Resolved v,
   set_connections
     (fold_left (fun l c => set_nth c off l) (destroying s) (connections s)) s).
Proof.
  unfold check_destroyed, bind, gets. rewrite forM_Disconnect. simpl.
  destruct (destroyed s); reflexivity.
Qed.

Lemma quiet_fold_off ids : forall l,
  Forall (fun cn => forall i a, signal cn <> SigAttributeChanged i a) l ->
  Forall (fun cn => forall i a, signal cn <> SigAttributeChanged i a)
         (fold_left (fun l c => set_nth c off l) ids l).
Proof.
  induction ids as [|c ids IH]; intros l H; simpl; auto.
  apply IH. apply Forall_set_nth; auto.
Qed.

Lemma all_shape ps s :
  (exists e, fst (Promise.all ps s) = Rejected e) \/
  (exists vs, Promise.all ps s = (Resolved (VArray vs), s)) \/
  (Promise.all ps s = (All ps, s) /\ resolved_values ps = None).
Proof.
  unfold Promise.all. destruct (first_rejected ps) as [e|].
  - left. exists e. unfold bind, ret. now destruct (cancel_each ps s).
  - destruct (resolved_values ps) as [vs|];
      [right; left; exists vs; reflexivity | right; right; split; reflexivity].
Qed.

Lemma named_all_of names : forall s vs,
  Forall2 (fun po v => po s v) (map named_and_watched names) vs ->
  named_all names s (VArray vs).
Proof.
  induction names as [|name names IH]; intros s vs H; simpl in H; inversion H; subst.
  - exists []. split; reflexivity.
  - match goal with Hv : named_and_watched _ _ _ |- _ =>
      destruct Hv as (i & -> & Hn & _) end.
    destruct (IH s l') as (children & Hc & Hm); auto.
    inversion Hc; subst. exists (i :: children). split; reflexivity.
Qed.

Lemma Forall2_posts {A} (f : A -> env -> value -> Prop) s (names : list A) ps :
  Forall2 (fun name q => sound T (f name) s q) names ps <->
  Forall2 (fun po q => sound T po s q) (map f names) ps.
Proof.
  split.
  - induction 1; simpl; constructor; auto.
  - revert ps. induction names as [|n names IH]; intros ps H; simpl in H;
      inversion H; subst; constructor; auto.
Qed.


Lemma finish_batch names ps s :
  Forall2 (fun name q => sound T (named_and_watched name) s q) names ps ->
  batch_inv T names (snd (finish ps s)) (fst (finish ps s)) /\
  (quiet s -> quiet (snd (finish ps s))) /\
  (destroyed s = true ->
     destroyed (snd (finish ps s)) = true /\ forall v, fst (finish ps s) <> Resolved v).
Proof.
  intros H. apply Forall2_posts in H.
  assert (Hm : Forall (lasting T) (map named_and_watched names)).
  { apply Forall_forall. intros po Hin. apply in_map_iff in Hin.
    destruct Hin as (name & <- & _). apply lasting_named_and_watched. }
  destruct (all_sound (named_all names) _ ps s Hm H) as [Hs He].
  { intros s1 vs _ Hvs. now apply named_all_of. }
  unfold finish. rewrite bind_run.
  destruct (all_shape ps s) as [(e & E) | [(vs & E) | [E Hnone]]].
  - destruct (Promise.all ps s) as [q s1]. cbn [fst snd] in *. subst q. simpl.
    split; [right; split; [reflexivity | exact Hs]|].
    split; [apply (ext_quiet He)|].
    intros Hd. split; [apply (ext_destroyed He Hd) | discriminate].
  - rewrite E in *. cbn [fst snd Promise.andThen] in *. rewrite check_destroyed_eq.
    cbn [fst snd]. split; [|split].
    + right. destruct (destroyed s); split; try reflexivity; [constructor|].
      inversion Hs; subst. constructor. assumption.
    + unfold quiet. simpl. apply quiet_fold_off.
    + intros Hd. rewrite Hd. split; [exact Hd | discriminate].
  - rewrite E in *. cbn [fst snd Promise.andThen ret] in *.
    split; [|split; [auto|]].
    + left. exists ps. split; [reflexivity|].
      split; [now apply Forall2_posts | exact Hnone].
    + intros Hd. split; [assumption | discriminate].
Qed.

Lemma waitForChildren_eq parent names recursive timeout s :
  waitForChildren parent names recursive timeout s =
  (all <- mapM (wait_and_watch parent (default false recursive)
                  (default DEFAULT_TIMEOUT timeout)) names ;;
   finish all) (set_destroyed false (set_destroying [] s)).
Proof. reflexivity. Qed.

Lemma waitForChildren_batch parent names recursive timeout s :
  (forall t, now s + Promise.delay_time (default DEFAULT_TIMEOUT timeout) < t -> T t) ->
  let r := waitForChildren parent names recursive timeout s in
  batch_inv T names (snd r) (fst r) /\ (quiet s -> quiet (snd r)).
Proof.
  intros HT. cbv zeta. rewrite waitForChildren_eq, bind_run.
  set (s0 := set_destroyed false (set_destroying [] s)).
  destruct (children_sound parent (default false recursive)
              (default DEFAULT_TIMEOUT timeout) names s0 HT) as (Hs1 & He1 & _).
  destruct (mapM _ names s0) as [ps s1]. cbn [fst snd] in *.
  destruct (finish_batch names ps s1 Hs1) as (Hb & Hq & _).
  split; auto. intros Hq0. apply Hq. apply (ext_quiet He1). exact Hq0.
Qed.

Lemma deliver_batch e ps s :
  deliver e (AndThen (All ps) check_destroyed) s =
  finish (fst (deliver_until is_rejected e ps s)) (snd (deliver_until is_rejected e ps s)).
Proof.
  cbn [deliver]. fold (deliver_until is_rejected e ps).
  unfold finish. rewrite !bind_run. reflexivity.
Qed.

Lemma batch_step e names p s :
  keeps_time T e -> batch_inv T names s p ->
  batch_inv T names (snd (step e (p, s))) (fst (step e (p, s))) /\
  (quiet s -> quiet (snd (step e (p, s)))) /\
  (destroyed (run_callbacks e (host_update e s)) = true ->
     destroyed (snd (step e (p, s))) = true /\
     (is_decided p = false -> forall v, fst (step e (p, s)) <> Resolved v)).
Proof.
  intros Hk Hb. pose proof (ext_host e s Hk) as He.
  unfold step. cbn [fst snd]. set (s1 := run_callbacks e (host_update e s)) in *.
  destruct Hb as [(ps & -> & Hps & _) | [Hd Hs]].
  - rewrite deliver_batch.
    assert (Hps1 : Forall2 (fun name q => sound T (named_and_watched name) s1 q) names ps).
    { eapply Forall2_impl; [|exact Hps]. intros name q Hq.
      apply sound_later with (s := s);
        [apply lasting_named_and_watched | exact Hq | exact He]. }
    apply Forall2_posts in Hps1.
    assert (Hm : Forall (lasting T) (map named_and_watched names)).
    { apply Forall_forall. intros po Hin. apply in_map_iff in Hin.
      destruct Hin as (name & <- & _). apply lasting_named_and_watched. }
    destruct (deliver_until_sound is_rejected e ps) with (posts := map named_and_watched names)
      (s := s1) as [Hs2 He2]; auto.
    { apply Forall_forall. intros q _. apply deliver_sound. }
    destruct (deliver_until is_rejected e ps s1) as [ps2 s2]. cbn [fst snd] in *.
    apply Forall2_posts in Hs2.
    destruct (finish_batch names ps2 s2 Hs2) as (Hb & Hq & Hdd).
    split; [exact Hb|]. split.
    + intros Hq0. apply Hq. apply (ext_quiet He2). apply (ext_quiet He). exact Hq0.
    + intros Hd1. destruct (Hdd (ext_destroyed He2 Hd1)) as [Hd2 Hn]. auto.
  - rewrite deliver_settled by (destruct p; try discriminate; reflexivity).
    cbn [fst snd]. split; [|split].
    + right. split; auto. eapply sound_later; eauto. apply lasting_const.
    + apply (ext_quiet He).
    + intros Hd1. split; auto. intros Hp. congruence.
Qed.
End Soundness.

(** ** The custom predicate *)

Lemma is_connected_Disconnect_same c s : is_connected c (snd (Disconnect c s)) = false.
Proof.
  rewrite Disconnect_eq. unfold is_connected. simpl.
  rewrite nth_error_set_nth, Nat.eqb_refl.
  destruct (nth_error (connections s) c); reflexivity.
Qed.

Lemma is_connected_Disconnect_other c c' s :
  c <> c' -> is_connected c (snd (Disconnect c' s)) = is_connected c s.
Proof.
  intros H. rewrite Disconnect_eq. unfold is_connected. simpl.
  rewrite nth_error_set_nth. apply Nat.eqb_neq in H. now rewrite H.
Qed.

Lemma waitForCustom_pending predicate timeout s :
  predicate (calls s) = Normal VUndefined ->
  let hb := List.length (connections s) in
  let d := now s + Promise.delay_time (default DEFAULT_TIMEOUT timeout) in
  waitForCustom predicate timeout s =
  (Normal (polling predicate hb (S hb) d),
   set_connections
     (connections s ++ [mkConnection SigHeartbeat PromiseListener true;
                        mkConnection (SigTimer d) PromiseListener true])
     (set_calls (S (calls s)) s)).
Proof.
  intros H. cbv zeta. unfold waitForCustom, invoke, bind, gets, modify, ret.
  rewrite H. cbn. rewrite length_app. cbn. rewrite Nat.add_1_r, <- app_assoc.
  reflexivity.
Qed.

Lemma polling_deliver_heartbeat predicate hb ct d s :
  is_connected hb s = true -> is_connected ct s = true ->
  deliver EHeartbeat (polling predicate hb ct d) s =
  match predicate (calls s) with
  | Normal v =>
      if is_undefined v then (polling predicate hb ct d, set_calls (S (calls s)) s)
      else (Resolved v,
            snd (Disconnect ct (snd (Disconnect hb (set_calls (S (calls s)) s)))))
  | Throw _ => (polling predicate hb ct d, set_calls (S (calls s)) s)
  end.
Proof.
  intros Hhb Hct. unfold polling. rewrite deliver_Race. unfold bind.
  cbn [deliver_until deliver]. unfold bind. rewrite Hct. cbn [triggers is_decided].
  rewrite Hhb. unfold poll, invoke, bind, gets, modify, ret.
  destruct (predicate (calls s)) as [v|exn]; [destruct (is_undefined v) eqn:U|];
    cbn [negb is_decided]; reflexivity.
Qed.

Lemma polling_deliver_elapse predicate hb ct d dt s :
  is_connected hb s = true -> is_connected ct s = true ->
  deliver (EElapse dt) (polling predicate hb ct d) s =
  if Qle_bool (now s) d
  then (polling predicate hb ct d, s)
  else (Rejected TimedOut, snd (Disconnect hb (snd (Disconnect ct s)))).
Proof.
  intros Hhb Hct. unfold polling. rewrite deliver_Race. unfold bind.
  cbn [deliver_until deliver]. unfold bind. rewrite Hct. cbn [triggers].
  destruct (Qle_bool (now s) d).
  - cbn [is_decided]. rewrite Hhb. cbn [triggers is_decided]. reflexivity.
  - reflexivity.
Qed.

Lemma polling_deliver_other predicate hb ct d e s :
  e <> EHeartbeat -> (forall dt, e <> EElapse dt) ->
  deliver e (polling predicate hb ct d) s = (polling predicate hb ct d, s).
Proof.
  intros H1 H2. unfold polling. rewrite deliver_Race. unfold bind.
  cbn [deliver_until deliver]. unfold bind.
  destruct e; try congruence; try (exfalso; eapply H2; reflexivity);
    cbn [triggers]; destruct (is_connected ct s); cbn [is_decided];
    destruct (is_connected hb s); reflexivity.
Qed.

Lemma is_connected_same s s' c :
  connections s' = connections s -> is_connected c s' = is_connected c s.
Proof. unfold is_connected. now intros ->. Qed.

Lemma now_host e s : now (run_callbacks e (host_update e s)) = time_after e (now s).
Proof.
  unfold run_callbacks. destruct (existsb _ _); destruct e; reflexivity.
Qed.

Lemma run_cons e evs st : run (e :: evs) st = run evs (step e st).
Proof. reflexivity. Qed.

Lemma polling_run predicate hb ct d :
  hb <> ct ->
  forall evs s,
    is_connected hb s = true -> is_connected ct s = true ->
    let r := run evs (polling predicate hb ct d, s) in
    let sp := polling_spec predicate d (now s) (calls s) evs in
    outcome_of (fst r) = fst sp /\ calls (snd r) = snd sp /\
    is_connected hb (snd r) = is_pending (fst r) /\
    is_connected ct (snd r) = is_pending (fst r) /\
    (is_pending (fst r) = true -> fst r = polling predicate hb ct d).
Proof.
  intros Hne. induction evs as [|e evs IH]; intros s Hhb Hct; cbv zeta.
  - simpl. auto 6.
  - rewrite run_cons.
    set (s1 := run_callbacks e (host_update e s)).
    assert (Hstep : step e (polling predicate hb ct d, s)
                    = deliver e (polling predicate hb ct d) s1) by reflexivity.
    rewrite Hstep. clear Hstep.
    assert (Hc1 : connections s1 = connections s)
      by (unfold s1; now rewrite connections_run_callbacks, connections_host_update).
    assert (Hn1 : calls s1 = calls s)
      by (unfold s1; now rewrite calls_run_callbacks, calls_host_update).
    assert (Ht1 : now s1 = time_after e (now s)) by apply now_host.
    assert (Hhb1 : is_connected hb s1 = true) by (now rewrite (is_connected_same _ _ _ Hc1)).
    assert (Hct1 : is_connected ct s1 = true) by (now rewrite (is_connected_same _ _ _ Hc1)).
    assert (Hsettled : forall p s2,
               is_settled p = true ->
               is_connected hb s2 = false -> is_connected ct s2 = false ->
               forall n, calls s2 = n ->
               outcome_of (fst (run evs (p, s2))) = outcome_of p /\
               calls (snd (run evs (p, s2))) = n /\
               is_connected hb (snd (run evs (p, s2))) = is_pending (fst (run evs (p, s2))) /\
               is_connected ct (snd (run evs (p, s2))) = is_pending (fst (run evs (p, s2))) /\
               (is_pending (fst (run evs (p, s2))) = true ->
                fst (run evs (p, s2)) = polling predicate hb ct d)).
    { intros p s2 Hp H1 H2 n Hn.
      destruct (run_settled_env evs p s2 Hp) as [Hc Hk].
      rewrite (run_settled evs p s2 Hp), Hk,
        (is_connected_same _ _ hb Hc), (is_connected_same _ _ ct Hc), H1, H2.
      unfold is_pending. rewrite Hp. repeat split; auto. discriminate. }
    destruct e.
    1-5: rewrite polling_deliver_other by (intros; discriminate);
         simpl in Ht1; cbn [polling_spec]; rewrite <- Ht1, <- Hn1; now apply IH.
    + rewrite polling_deliver_heartbeat by assumption.
      simpl in Ht1. cbn [polling_spec]. rewrite Hn1.
      destruct (predicate (calls s)) as [v|exn].
      * destruct (is_undefined v) eqn:U.
        -- specialize (IH (set_calls (S (calls s)) s1)). cbv zeta in IH.
           cbn [now calls set_calls] in IH. rewrite Ht1 in IH. apply IH; assumption.
        -- apply (Hsettled (Resolved v)); try reflexivity.
           ++ rewrite is_connected_Disconnect_other by auto.
              apply is_connected_Disconnect_same.
           ++ apply is_connected_Disconnect_same.
      * specialize (IH (set_calls (S (calls s)) s1)). cbv zeta in IH.
        cbn [now calls set_calls] in IH. rewrite Ht1 in IH. apply IH; assumption.
    + rewrite polling_deliver_elapse by assumption.
      simpl in Ht1. cbn [polling_spec]. rewrite Ht1.
      destruct (Qle_bool (now s + dt) d).
      * rewrite <- Ht1, <- Hn1. now apply IH.
      * apply (Hsettled (Rejected TimedOut)); try reflexivity.
        -- apply is_connected_Disconnect_same.
        -- rewrite is_connected_Disconnect_other by auto.
           apply is_connected_Disconnect_same.
        -- rewrite !Disconnect_eq. exact Hn1.
Qed.

(** ** The promise of any call, after any events *)

Section Outcomes.
Variable T : Q -> Prop.

Lemma lasting_post_of c : lasting T (post_of c).
Proof. destruct c; apply lasting_const. Qed.

Lemma perform_good c s :
  (forall t, now s + Promise.delay_time (timeout_of c) < t -> T t) ->
  match fst (perform c s) with
  | Normal p =>
      good T c (snd (perform c s)) p /\ (quiet s -> quiet (snd (perform c s)))
  | Throw _ => True
  end.
Proof.
  intros HT.
  destruct (is_batch c) eqn:B.
  - destruct c; try discriminate. simpl in HT. simpl perform.
    unfold normally. rewrite bind_run. unfold ret. cbn [fst snd good].
    apply waitForChildren_batch. exact HT.
  - pose proof (perform_sound T c s B HT) as H.
    destruct (fst (perform c s)) as [p|exn]; [|exact I].
    destruct H as [Hs He]. split; [|apply (ext_quiet He)].
    destruct c; try discriminate; exact Hs.
Qed.

Lemma step_good e c p s :
  keeps_time T e -> good T c s p ->
  good T c (snd (step e (p, s))) (fst (step e (p, s))) /\
  (quiet s -> quiet (snd (step e (p, s)))).
Proof.
  intros Hk H.
  assert (Hgen : sound T (post_of c) s p ->
                 sound T (post_of c) (snd (step e (p, s))) (fst (step e (p, s))) /\
                 (quiet s -> quiet (snd (step e (p, s))))).
  { intros Hs. destruct (step_sound T e (post_of c) p s Hk (lasting_post_of c) Hs)
      as [Hs1 He1]. split; [exact Hs1 | apply (ext_quiet He1)]. }
  destruct c; try (apply Hgen; exact H).
  destruct (batch_step T e childrenNames p s Hk H) as (Hb & Hq & _).
  split; assumption.
Qed.

Lemma run_good evs : forall c p s,
  Forall (keeps_time T) evs -> good T c s p ->
  good T c (snd (run evs (p, s))) (fst (run evs (p, s))) /\
  (quiet s -> quiet (snd (run evs (p, s)))).
Proof.
  induction evs as [|e evs IH]; intros c p s Hk H.
  - simpl. auto.
  - inversion Hk; subst. rewrite run_cons.
    destruct (step_good e c p s) as [Hg1 Hq1]; auto.
    destruct (step e (p, s)) as [p1 s1]. cbn [fst snd] in *.
    destruct (IH c p1 s1) as [Hg2 Hq2]; auto.
Qed.

Lemma good_Rejected c s e :
  good T c s (Rejected e) -> e = Destroyed \/ (e = TimedOut /\ T (now s)).
Proof.
  intros H.
  assert (Hs : sound T (post_of c) s (Rejected e)).
  { destruct c; try exact H. destruct H as [(ps & Hp & _ & _) | [_ Hs]];
      [discriminate | exact Hs]. }
  inversion Hs; subst; auto.
Qed.

Lemma good_Resolved c s v : good T c s (Resolved v) -> post_of c s v.
Proof.
  intros H.
  assert (Hs : sound T (post_of c) s (Resolved v)).
  { destruct c; try exact H. destruct H as [(ps & Hp & _ & _) | [_ Hs]];
      [discriminate | exact Hs]. }
  now inversion Hs.
Qed.
End Outcomes.

Lemma is_undefined_true v : is_undefined v = true -> v = VUndefined.
Proof. destruct v; try discriminate; reflexivity. Qed.

Lemma waitForCustom_cases predicate timeout s :
  match predicate (calls s) with
  | Throw exn => fst (waitForCustom predicate timeout s) = Throw exn
  | Normal v =>
      if is_undefined v
      then exists hb d, fst (waitForCustom predicate timeout s)
                        = Normal (polling predicate hb (S hb) d) /\
                        is_connected hb (snd (waitForCustom predicate timeout s)) = true /\
                        is_connected (S hb) (snd (waitForCustom predicate timeout s)) = true
      else fst (waitForCustom predicate timeout s) = Normal (Resolved v)
  end.
Proof.
  destruct (predicate (calls s)) as [v|exn] eqn:E.
  - destruct (is_undefined v) eqn:U.
    + apply is_undefined_true in U. subst v.
      rewrite (waitForCustom_pending predicate timeout s E). cbn [fst snd].
      eexists; eexists. split; [reflexivity|].
      unfold is_connected. cbn [connections set_connections set_calls].
      rewrite !nth_error_app2 by lia. rewrite Nat.sub_diag.
      replace (S (List.length (connections s)) - List.length (connections s))%nat
        with 1%nat by lia. split; reflexivity.
    + unfold waitForCustom, invoke, bind, gets, modify, ret. rewrite E, U. reflexivity.
  - unfold waitForCustom, invoke, bind, gets, modify, ret. rewrite E. reflexivity.
Qed.

Lemma calls_waitForCustom predicate timeout s :
  calls (snd (waitForCustom predicate timeout s)) = S (calls s).
Proof.
  unfold waitForCustom, invoke, bind, gets, modify, ret.
  destruct (predicate (calls s)) as [v|exn]; [|reflexivity].
  destruct (is_undefined v); reflexivity.
Qed.

(** C5.  [waitForCustom] invokes the predicate once at call time.  When
    that invocation gives a value, the promise is resolved with it and the
    predicate is not invoked again.  When it gives [undefined], the promise
    behaves as [polling_spec] says: one invocation for each [Heartbeat]
    that follows, until the first value that is not [undefined], which
    resolves the promise, or until the clock is past the deadline, which
    rejects it with [TimedOut]; the connection to [Heartbeat] is live
    exactly as long as the promise is pending. *)
Theorem waitForCustom_polls_once_per_heartbeat
    (predicate : predicate_fn) (timeout : option Q) (s : env) (evs : list event) :
  calls (snd (waitForCustom predicate timeout s)) = S (calls s) /\
  (forall v, predicate (calls s) = Normal v -> is_undefined v = false ->
     fst (waitForCustom predicate timeout s) = Normal (Resolved v) /\
     calls (snd (run evs (Resolved v, snd (waitForCustom predicate timeout s))))
       = S (calls s)) /\
  (predicate (calls s) = Normal VUndefined ->
   exists p s0 hb,
     waitForCustom predicate timeout s = (Normal p, s0) /\
     entry s0 hb = Some (mkConnection SigHeartbeat PromiseListener true) /\
     let r := run evs (p, s0) in
     let sp := polling_spec predicate (now s + Promise.delay_time (default DEFAULT_TIMEOUT timeout))
                 (now s) (S (calls s)) evs in
     outcome_of (fst r) = fst sp /\
     calls (snd r) = snd sp /\
     is_connected hb (snd r) = is_pending (fst r)).
Proof.
  split; [apply calls_waitForCustom|]. split.
  { intros v Hv U. pose proof (waitForCustom_cases predicate timeout s) as Hc.
    rewrite Hv, U in Hc. split; [exact Hc|].
    destruct (run_settled_env evs (Resolved v) (snd (waitForCustom predicate timeout s))
                eq_refl) as [_ Hk].
    rewrite Hk. apply calls_waitForCustom. }
  intros H. pose proof (waitForCustom_pending predicate timeout s H) as E.
  cbv zeta in E.
  set (hb := List.length (connections s)) in *.
  set (d := now s + Promise.delay_time (default DEFAULT_TIMEOUT timeout)) in *.
  eexists; eexists; exists hb. split; [exact E|].
  split.
  { unfold entry. cbn [connections set_connections set_calls].
    rewrite nth_error_app2 by (unfold hb; lia).
    unfold hb. now rewrite Nat.sub_diag. }
  match goal with |- context [run evs (_, ?x)] => set (s0 := x) end.
  assert (Hhb : is_connected hb s0 = true).
  { unfold is_connected, s0. cbn [connections set_connections set_calls].
    rewrite nth_error_app2 by (unfold hb; lia).
    unfold hb. now rewrite Nat.sub_diag. }
  assert (Hct : is_connected (S hb) s0 = true).
  { unfold is_connected, s0. cbn [connections set_connections set_calls].
    rewrite nth_error_app2 by (unfold hb; lia).
    unfold hb. replace (S (List.length (connections s)) - List.length (connections s))%nat
      with 1%nat by lia. reflexivity. }
  destruct (polling_run predicate hb (S hb) d (n_Sn hb) evs s0 Hhb Hct)
    as (H1 & H2 & H3 & _).
  cbv zeta. auto.
Qed.

Lemma waitForCustom_polls_once_per_heartbeat_witness :
  let evs := [EHeartbeat; EElapse 1; EHeartbeat; EHeartbeat] in
  ready_at_third 0%nat = Normal VUndefined /\
  exists p s0 hb,
    waitForCustom ready_at_third None (fresh 0) = (Normal p, s0) /\
    entry s0 hb = Some (mkConnection SigHeartbeat PromiseListener true) /\
    let r := run evs (p, s0) in
    let sp := polling_spec ready_at_third (0 + 60) 0 1 evs in
    outcome_of (fst r) = fst sp /\
    calls (snd r) = snd sp /\
    is_connected hb (snd r) = is_pending (fst r).
Proof.
  intros evs. split; [reflexivity|].
  destruct (waitForCustom_polls_once_per_heartbeat ready_at_third None (fresh 0) evs)
    as (_ & _ & H).
  apply H. reflexivity.
Defined.

(** The count of the example: the value comes at the third invocation, the
    second [Heartbeat]; the third [Heartbeat] invokes nothing. *)
Example ready_at_third_is_called_three_times :
  polling_spec ready_at_third (0 + 60) 0 1 [EHeartbeat; EElapse 1; EHeartbeat; EHeartbeat]
  = (Fulfilled (VString "ready"), 3%nat).
Proof. reflexivity. Qed.

(** ** The failures *)

Lemma keeps_time_True e : keeps_time (fun _ => True) e.
Proof. intros t _. exact I. Qed.

Lemma Forall_keeps_time_True evs : Forall (keeps_time (fun _ => True)) evs.
Proof. apply Forall_forall. intros e _. apply keeps_time_True. Qed.



(** C6 (as the code has it).  The promise of a call rejects with
    [Destroyed] or with [TimedOut], and with nothing else, after any
    events.  An exception of the predicate of [waitForCustom] is not a
    rejection.  Thrown by the invocation of call time, it is thrown by
    [waitForCustom] itself, as it is, and no promise is returned: a call
    throws exactly when it is a call of [waitForCustom] whose predicate
    throws at call time, and it throws what the predicate threw.  Thrown by
    an invocation on [Heartbeat], it ends that callback only: the
    invocation is made, and the promise is left pending as it was. *)
Theorem failures_are_Destroyed_or_TimedOut (c : call) (s : env) (evs : list event) :
  (forall p e,
      fst (perform c s) = Normal p ->
      fst (run evs (p, snd (perform c s))) = Rejected e ->
      e = Destroyed \/ e = TimedOut) /\
  (forall exn,
      fst (perform c s) = Throw exn <->
      exists predicate timeout,
        c = CallWaitForCustom predicate timeout /\ predicate (calls s) = Throw exn) /\
  (forall predicate timeout p exn,
      c = CallWaitForCustom predicate timeout ->
      fst (perform c s) = Normal p ->
      let r := run evs (p, snd (perform c s)) in
      is_pending (fst r) = true ->
      predicate (calls (snd r)) = Throw exn ->
      fst (step EHeartbeat r) = fst r /\
      calls (snd (step EHeartbeat r)) = S (calls (snd r))).
Proof.
  pose proof (perform_good (fun _ => True) c s (fun _ _ => I)) as Hg.
  split; [|split].
  - intros p e E He. rewrite E in Hg. destruct Hg as [Hg _].
    destruct (run_good (fun _ => True) evs c p _ (Forall_keeps_time_True evs) Hg)
      as [Hr _].
    rewrite He in Hr. apply good_Rejected in Hr. tauto.
  - intros exn. split.
    + intros E.
      destruct c; simpl in E; unfold normally in E; try (rewrite bind_run in E; discriminate).
      exists predicate, timeout. split; [reflexivity|].
      pose proof (waitForCustom_cases predicate timeout s) as Hc.
      destruct (predicate (calls s)) as [v|exn0].
      * destruct (is_undefined v); [destruct Hc as (? & ? & Hc & _)|]; congruence.
      * congruence.
    + intros (predicate & timeout & -> & Hx). simpl.
      pose proof (waitForCustom_cases predicate timeout s) as Hc.
      rewrite Hx in Hc. exact Hc.
  - intros predicate timeout p exn -> E. cbv zeta. intros Hp Hx.
    simpl in E. simpl perform in *.
    pose proof (waitForCustom_cases predicate timeout s) as Hc.
    destruct (predicate (calls s)) as [v|exn0]; [|congruence].
    destruct (is_undefined v).
    + destruct Hc as (hb & d & Hc & Hhb & Hct).
      rewrite E in Hc. inversion Hc; subst p.
      destruct (polling_run predicate hb (S hb) d (n_Sn hb) evs _ Hhb Hct)
        as (_ & _ & H3 & H4 & H5).
      cbv zeta in *. rewrite Hp in *. specialize (H5 eq_refl).
      destruct (run evs (polling predicate hb (S hb) d, snd (waitForCustom predicate timeout s)))
        as [p1 s1]. cbn [fst snd] in *. rewrite H5.
      unfold step. cbn [fst snd].
      rewrite polling_deliver_heartbeat.
      * rewrite calls_run_callbacks, calls_host_update, Hx. split; reflexivity.
      * erewrite is_connected_same; [exact H3|].
        now rewrite connections_run_callbacks, connections_host_update.
      * erewrite is_connected_same; [exact H4|].
        now rewrite connections_run_callbacks, connections_host_update.
    + rewrite E in Hc. inversion Hc; subst p.
      rewrite run_settled in Hp by reflexivity. discriminate.
Qed.

(** The three parts of C6 at work: a wait that ends by its timeout, a
    predicate that throws at call time, and one that throws on the first
    [Heartbeat]. *)
Lemma failures_are_Destroyed_or_TimedOut_witness :
  let c := CallWaitForCustom throws_at_second (Some 2) in
  let p := polling throws_at_second 0 1 (0 + 2) in
  let always := fun _ : nat => Throw (A := value) (VString "boom") in
  (fst (run [EHeartbeat; EElapse 3] (p, snd (perform c (fresh 0)))) = Rejected TimedOut /\
   (TimedOut = Destroyed \/ TimedOut = TimedOut)) /\
  fst (perform (CallWaitForCustom always None) (fresh 0)) = Throw (VString "boom") /\
  (let r := run [] (p, snd (perform c (fresh 0))) in
   is_pending (fst r) = true /\
   throws_at_second (calls (snd r)) = Throw (VString "boom") /\
   fst (step EHeartbeat r) = fst r /\
   calls (snd (step EHeartbeat r)) = S (calls (snd r))).
Proof.
  cbv zeta. split; [|split].
  - split; [reflexivity|].
    exact (proj1 (failures_are_Destroyed_or_TimedOut
                    (CallWaitForCustom throws_at_second (Some 2)) (fresh 0)
                    [EHeartbeat; EElapse 3])
             (polling throws_at_second 0 1 (0 + 2)) TimedOut eq_refl eq_refl).
  - apply (proj1 (proj2 (failures_are_Destroyed_or_TimedOut
                           (CallWaitForCustom (fun _ => Throw (VString "boom")) None)
                           (fresh 0) []))).
    exists (fun _ => Throw (VString "boom")), None. split; reflexivity.
  - split; [reflexivity|]. split; [reflexivity|].
    exact (proj2 (proj2 (failures_are_Destroyed_or_TimedOut
                           (CallWaitForCustom throws_at_second (Some 2)) (fresh 0) []))
             throws_at_second (Some 2) (polling throws_at_second 0 1 (0 + 2))
             (VString "boom") eq_refl eq_refl eq_refl eq_refl).
Defined.

(** C6, as stated, fails for an exception of the predicate thrown on a
    [Heartbeat]: the invocation is made and throws, the promise stays
    pending, and what the caller gets in the end is the timeout, not the
    predicate's failure. *)
Lemma predicate_exception_on_heartbeat_is_not_passed_on :
  let st := waitForCustom throws_at_second (Some 2) (fresh 0) in
  let p := polling throws_at_second 0 1 (0 + 2) in
  fst st = Normal p /\
  throws_at_second 1%nat = Throw (VString "boom") /\
  outcome_of (fst (run [EHeartbeat] (p, snd st))) = Pending /\
  calls (snd (run [EHeartbeat] (p, snd st))) = 2%nat /\
  outcome_of (fst (run [EHeartbeat; EElapse 3] (p, snd st))) = Failed TimedOut /\
  outcome_of (fst (run [EHeartbeat; EElapse 3] (p, snd st)))
    <> Failed (Thrown (VString "boom")).
Proof.
  cbv zeta. repeat split; try reflexivity. discriminate.
Qed.

(** ** A found child that is destroyed *)




Section DestroyedBatch.
Variable T : Q -> Prop.

End DestroyedBatch.



(** The scenario of the example: the left wheel is there, it is destroyed
    while the right wheel is awaited, and the batch fails with [Destroyed]
    when the right wheel comes.  Without the destruction it resolves, at
    the very event that brings the right wheel; a destruction that comes
    after that event finds the promise resolved and leaves it so. *)
Example destroyed_left_wheel_fails_the_batch :
  let st1 := waitForChildren vehicle ["LeftWheel"; "RightWheel"] None None (fresh 0) in
  outcome_of (fst st1) = Pending /\
  outcome_of (fst (run [EDestroying 1; EElapse 1; EChildAdded 0 RightWheel] st1))
    = Failed Destroyed /\
  outcome_of (fst (run [EElapse 1; EChildAdded 0 RightWheel] st1))
    = Fulfilled (VArray [VInstance LeftWheel; VInstance RightWheel]) /\
  outcome_of (fst (run [EElapse 1; EChildAdded 0 RightWheel; EDestroying 1] st1))
    = Fulfilled (VArray [VInstance LeftWheel; VInstance RightWheel]).
Proof. cbv zeta. repeat split; reflexivity. Qed.

(** ** The subscription of [waitForChildWhichIsA] *)


Lemma GetDescendants_eq p :
  GetDescendants p = flat_map (fun c => c :: GetDescendants c) (Children p).
Proof. destruct p; reflexivity. Qed.

Lemma GetDescendants_spec p : forall d, In d (GetDescendants p) <-> descendant_of d p.
Proof.
  induction p as [u n c sup kids IH] using Instance_ind2. intros d. split.
  - rewrite GetDescendants_eq. cbn [Children]. intros Hin.
    apply in_flat_map in Hin. destruct Hin as (k & Hk & [<- | Hd]).
    + now apply descendant_child.
    + apply descendant_deeper with (c := k); [exact Hk|].
      rewrite Forall_forall in IH. now apply (IH k Hk).
  - intros Hd.
    assert (Hgen : forall d q, descendant_of d q -> In d (GetDescendants q)).
    { clear. intros d q Hd. induction Hd as [q k Hk | q k d Hk Hd IHd];
        rewrite GetDescendants_eq; apply in_flat_map; exists k; split; auto.
      - now left.
      - now right. }
    now apply Hgen.
Qed.

Lemma waitForChildWhichIsA_pending parent className recursive timeout s :
  FindFirstChildWhichIsA parent className (default false recursive) = None ->
  let c := List.length (connections s) in
  let d := now s + Promise.delay_time (default DEFAULT_TIMEOUT timeout) in
  waitForChildWhichIsA parent className recursive timeout s =
  (waiting c (S c) (S (S c)) (ChildAdded parent) (on_instance (fun i => IsA i className))
           parent d,
   set_connections
     (connections s ++
      [mkConnection (SigChildAdded (uid parent)) PromiseListener true;
       mkConnection (SigDestroying (uid parent)) PromiseListener true;
       mkConnection (SigTimer d) PromiseListener true]) s).
Proof.
  intros H. cbv zeta. unfold waitForChildWhichIsA. rewrite H.
  unfold watchDestroying, Promise.fromEvent, Promise.timeout, Promise.andThen, Promise.race,
    Connect, bind, gets, ret.
  cbn. rewrite !length_app. cbn. rewrite !Nat.add_1_r, <- !app_assoc. reflexivity.
Qed.

Lemma deliver_Listening_miss e c src listen s :
  triggers e (now s) src = None ->
  deliver e (Listening c src listen) s = (Listening c src listen, s).
Proof. intros H. cbn [deliver]. rewrite H. now destruct (is_connected c s). Qed.

Lemma deliver_until_cons stop e q r s :
  deliver_until stop e (q :: r) s =
  if stop (fst (deliver e q s))
  then (fst (deliver e q s) :: r, snd (deliver e q s))
  else (fst (deliver e q s) :: fst (deliver_until stop e r (snd (deliver e q s))),
        snd (deliver_until stop e r (snd (deliver e q s)))).
Proof.
  cbn [deliver_until]. fold (deliver_until stop e). rewrite bind_run.
  destruct (stop (fst (deliver e q s))); [reflexivity|].
  rewrite bind_run. reflexivity.
Qed.

Lemma deliver_AndThen e q k s :
  deliver e (AndThen q k) s =
  Promise.andThen (fst (deliver e q s)) k (snd (deliver e q s)).
Proof. cbn [deliver]. now rewrite bind_run. Qed.

Lemma waiting_deliver_deeper c cd ct predicate parent d e s :
  added_deeper parent e ->
  deliver e (waiting c cd ct (ChildAdded parent) predicate parent d) s =
  (waiting c cd ct (ChildAdded parent) predicate parent d, s).
Proof.
  intros H. unfold waiting.
  assert (H1 : forall t, triggers e t (SigTimer d) = None)
    by (destruct e; simpl in H; try contradiction; reflexivity).
  assert (H2 : forall t, triggers e t (ChildAdded parent) = None).
  { destruct e; simpl in H; try contradiction; intros t; cbn.
    - apply Nat.eqb_neq in H. now rewrite H.
    - reflexivity. }
  assert (H3 : forall t, triggers e t (Destroying parent) = None)
    by (destruct e; simpl in H; try contradiction; reflexivity).
  rewrite deliver_Race, bind_run, deliver_until_cons.
  rewrite deliver_Listening_miss by apply H1. cbn [fst snd is_decided].
  rewrite deliver_until_cons.
  rewrite deliver_Race, bind_run, deliver_until_cons.
  rewrite deliver_Listening_miss by apply H2. cbn [fst snd is_decided].
  rewrite deliver_until_cons, deliver_AndThen.
  rewrite deliver_Listening_miss by apply H3. cbn [fst snd is_decided Promise.andThen ret].
  reflexivity.
Qed.

Lemma deliver_Listening_cases e c src listen s :
  deliver e (Listening c src listen) s = (Listening c src listen, s) \/
  exists args,
    triggers e (now s) src = Some args /\
    deliver e (Listening c src listen) s =
    (match fst (listen args s) with Some q => q | None => Listening c src listen end,
     snd (listen args s)).
Proof.
  cbn [deliver]. destruct (is_connected c s); [|now left].
  destruct (triggers e (now s) src) as [args|]; [|now left].
  right. exists args. split; [reflexivity|]. now destruct (listen args s).
Qed.

Lemma on_firing_eq c predicate args s :
  pure predicate ->
  Promise.on_firing c predicate args s =
  if fst (predicate args s) then (Some (Resolved args), snd (Disconnect c s))
  else (None, s).
Proof.
  intros Hp. unfold Promise.on_firing. rewrite bind_run, (Hp args s).
  destruct (fst (predicate args s)); [|reflexivity].
  rewrite bind_run. reflexivity.
Qed.

Lemma on_firing_cases e c src predicate s :
  pure predicate ->
  deliver e (Listening c src (Promise.on_firing c predicate)) s
    = (Listening c src (Promise.on_firing c predicate), s) \/
  exists args,
    triggers e (now s) src = Some args /\ fst (predicate args s) = true /\
    deliver e (Listening c src (Promise.on_firing c predicate)) s
      = (Resolved args, snd (Disconnect c s)).
Proof.
  intros Hp.
  destruct (deliver_Listening_cases e c src (Promise.on_firing c predicate) s)
    as [H | (args & Ht & H)]; [now left|].
  rewrite (on_firing_eq c predicate args s Hp) in H.
  destruct (fst (predicate args s)) eqn:E.
  - right. exists args. repeat split; auto.
  - left. exact H.
Qed.

Lemma on_timeout_cases e ct d s :
  deliver e (Listening ct (SigTimer d) (Promise.on_timeout ct)) s
    = (Listening ct (SigTimer d) (Promise.on_timeout ct), s) \/
  deliver e (Listening ct (SigTimer d) (Promise.on_timeout ct)) s
    = (Rejected TimedOut, snd (Disconnect ct s)).
Proof.
  destruct (deliver_Listening_cases e ct (SigTimer d) (Promise.on_timeout ct) s)
    as [H | (args & Ht & H)]; [now left|].
  right. exact H.
Qed.

(** What an event does to a wait on one signal: nothing, or one of the
    three ways of settling it. *)
Lemma waiting_deliver_cases c cd ct src predicate parent d e s :
  pure predicate ->
  let p := waiting c cd ct src predicate parent d in
  deliver e p s = (p, s) \/
  (exists s', deliver e p s = (Rejected TimedOut, s')) \/
  (exists s', deliver e p s = (Rejected Destroyed, s')) \/
  (exists args s',
      deliver e p s = (Resolved args, s') /\
      triggers e (now s) src = Some args /\ fst (predicate args s) = true).
Proof.
  intros Hp. cbv zeta. unfold waiting.
  rewrite deliver_Race, bind_run, deliver_until_cons.
  destruct (on_timeout_cases e ct d s) as [-> | ->]; cbn [fst snd is_decided].
  2: { right; left. unfold Promise.race. cbn [first_decided]. rewrite bind_run.
       eexists. reflexivity. }
  rewrite deliver_until_cons, deliver_Race, bind_run, deliver_until_cons.
  destruct (on_firing_cases e c src predicate s Hp) as [-> | (args & Ht & Hok & ->)];
    cbn [fst snd is_decided].
  2: { right; right; right. exists args.
       unfold Promise.race at 2. cbn [first_decided]. rewrite bind_run.
       cbn [fst snd is_decided ret]. unfold Promise.race. cbn [first_decided].
       rewrite bind_run. eexists. split; [reflexivity|]. split; assumption. }
  rewrite deliver_until_cons, deliver_AndThen.
  destruct (on_firing_cases e cd (Destroying parent) (fun _ => ret true) s)
    as [-> | (args & _ & _ & ->)]; [intros ? ?; reflexivity| |];
    cbn [fst snd is_decided Promise.andThen Promise.reject ret].
  - left. reflexivity.
  - right; right; left.
    unfold Promise.race at 2. cbn [first_decided]. rewrite bind_run.
    cbn [fst snd is_decided ret]. unfold Promise.race. cbn [first_decided].
    rewrite bind_run. eexists. reflexivity.
Qed.

(** A wait on one signal is resolved by a firing of that signal only. *)
Lemma waiting_run_resolved c cd ct src predicate parent d evs : forall s v,
  pure predicate ->
  fst (run evs (waiting c cd ct src predicate parent d, s)) = Resolved v ->
  exists e t, In e evs /\ triggers e t src = Some v /\
              exists s1, fst (predicate v s1) = true.
Proof.
  induction evs as [|e evs IH]; intros s v Hp H; [discriminate|].
  rewrite run_cons in H. unfold step in H. cbn [fst snd] in H.
  set (s1 := run_callbacks e (host_update e s)) in *.
  destruct (waiting_deliver_cases c cd ct src predicate parent d e s1 Hp)
    as [E | [(s' & E) | [(s' & E) | (args & s' & E & Ht & Hok)]]];
    rewrite E in H.
  - destruct (IH s1 v Hp H) as (e' & t & Hin & Ht & Hs).
    exists e', t. split; [now right | auto].
  - rewrite run_settled in H by reflexivity. discriminate.
  - rewrite run_settled in H by reflexivity. discriminate.
  - rewrite run_settled in H by reflexivity. inversion H; subst.
    exists e, (now s1). split; [now left|]. split; [exact Ht|]. eauto.
Qed.

Lemma waiting_run_deeper c cd ct predicate parent d evs : forall s,
  Forall (added_deeper parent) evs ->
  fst (run evs (waiting c cd ct (ChildAdded parent) predicate parent d, s)) =
  waiting c cd ct (ChildAdded parent) predicate parent d.
Proof.
  induction evs as [|e evs IH]; intros s H; [reflexivity|].
  inversion H; subst. rewrite run_cons. unfold step. cbn [fst snd].
  rewrite waiting_deliver_deeper by assumption. now apply IH.
Qed.

Lemma triggers_ChildAdded e t parent v :
  triggers e t (ChildAdded parent) = Some v ->
  exists c, e = EChildAdded (uid parent) c /\ v = VInstance c.
Proof.
  destruct e; cbn; try discriminate.
  destruct (Nat.eqb_spec parent0 (uid parent)) as [->|]; [|discriminate].
  intros H. inversion H. eauto.
Qed.

(** C10.  [waitForChildWhichIsA] makes its synchronous check on all the
    descendants of the parent when [recursive] is true: an instance of the
    class anywhere below the parent resolves the call at once.  When the
    check fails, the listener it connects is on the [ChildAdded] signal of
    the parent, whatever [recursive] is.  The instances that are added
    deeper, which fire [ChildAdded] elsewhere and [DescendantAdded], leave
    the promise pending; and if the promise is resolved, it is with an
    instance of the class passed by a firing of the parent's [ChildAdded]. *)
Theorem waitForChildWhichIsA_listens_to_ChildAdded_only
    (parent : Instance) (className : string) (recursive : option bool)
    (timeout : option Q) (s : env) (evs : list event) :
  (forall d, descendant_of d parent -> IsA d className = true ->
     exists c, waitForChildWhichIsA parent className (Some true) timeout s
               = (Resolved (VInstance c), s) /\
               descendant_of c parent /\ IsA c className = true) /\
  (FindFirstChildWhichIsA parent className (default false recursive) = None ->
   let st := waitForChildWhichIsA parent className recursive timeout s in
   connections (snd st) =
     connections s ++
     [mkConnection (SigChildAdded (uid parent)) PromiseListener true;
      mkConnection (SigDestroying (uid parent)) PromiseListener true;
      mkConnection (SigTimer (now s + Promise.delay_time (default DEFAULT_TIMEOUT timeout))) PromiseListener true] /\
   (Forall (added_deeper parent) evs -> outcome_of (fst (run evs st)) = Pending) /\
   (forall v, fst (run evs st) = Resolved v ->
      exists c, v = VInstance c /\ IsA c className = true /\
                In (EChildAdded (uid parent) c) evs)).
Proof.
  split.
  - intros d Hd Hc. unfold waitForChildWhichIsA. cbn [default].
    destruct (FindFirstChildWhichIsA parent className true) as [c|] eqn:E.
    + exists c. split; [reflexivity|].
      apply find_some in E. destruct E as [Hin Hisa].
      split; [|exact Hisa]. now apply GetDescendants_spec.
    + exfalso. unfold FindFirstChildWhichIsA in E.
      assert (Hin : In d (scope parent true)) by (cbn [scope]; now apply GetDescendants_spec).
      pose proof (find_none _ _ E d Hin) as Hf. cbv beta in Hf. congruence.
  - intros Hnone. cbv zeta.
    rewrite (waitForChildWhichIsA_pending parent className recursive timeout s Hnone).
    cbn [fst snd]. split; [reflexivity|]. split.
    + intros Hev. rewrite waiting_run_deeper by assumption. reflexivity.
    + intros v Hv. apply waiting_run_resolved in Hv; [|intros ? ?; reflexivity].
      destruct Hv as (e & t & Hin & Ht & s1 & Hok).
      apply triggers_ChildAdded in Ht. destruct Ht as (c & -> & ->).
      exists c. repeat split; auto.
Qed.

Lemma waitForChildWhichIsA_listens_to_ChildAdded_only_witness :
  (exists c, waitForChildWhichIsA character "BasePart" (Some true) None (fresh 0)
             = (Resolved (VInstance c), fresh 0) /\
             descendant_of c character /\ IsA c "BasePart" = true) /\
  (let st := waitForChildWhichIsA garage "BasePart" (Some true) None (fresh 0) in
   connections (snd st) =
     [mkConnection (SigChildAdded 20) PromiseListener true;
      mkConnection (SigDestroying 20) PromiseListener true;
      mkConnection (SigTimer (0 + 60)) PromiseListener true] /\
   outcome_of (fst (run head_put_on_shelf st)) = Pending).
Proof.
  destruct (waitForChildWhichIsA_listens_to_ChildAdded_only
              character "BasePart" (Some true) None (fresh 0) []) as [Ha _].
  destruct (waitForChildWhichIsA_listens_to_ChildAdded_only
              garage "BasePart" (Some true) None (fresh 0) head_put_on_shelf) as [_ Hb].
  split.
  - apply (Ha Torso).
    + apply descendant_deeper with (c := Body); [left; reflexivity|].
      apply descendant_child. left; reflexivity.
    + reflexivity.
  - destruct (Hb eq_refl) as (Hc & Hp & _). split; [exact Hc|].
    apply Hp. repeat constructor; discriminate.
Defined.

(** The same part put on the shelf resolves [waitForChild], which listens
    to [DescendantAdded] when [recursive] is true. *)
Example waitForChild_recursive_sees_deeper_additions :
  outcome_of (fst (run head_put_on_shelf
                     (waitForChild garage "Head" (Some true) None (fresh 0))))
  = Fulfilled (VInstance Head).
Proof. reflexivity. Qed.

(** ** The timeout *)

Lemma frame_refl own s : frame own s s.
Proof. split; auto. Qed.

Lemma frame_trans own s1 s2 s3 : frame own s1 s2 -> frame own s2 s3 -> frame own s1 s3.
Proof.
  intros [L1 H1] [L2 H2]. split; [lia|].
  intros i Hi Hn. rewrite H2; auto. lia.
Qed.

Lemma frame_weaken own own' s s' :
  (forall i, In i own -> In i own') -> frame own s s' -> frame own' s s'.
Proof. intros Hi [L H]. split; auto. Qed.

Lemma frame_same own s s' : connections s' = connections s -> frame own s s'.
Proof. intros E. unfold frame. rewrite E. auto. Qed.

Lemma frame_set_nth c s s' :
  connections s' = set_nth c off (connections s) -> frame [c] s s'.
Proof.
  intros E. unfold frame. rewrite E. split.
  - clear E. generalize c. induction (connections s) as [|a l IH]; intros [|n]; simpl; auto.
    specialize (IH n). lia.
  - intros i _ Hn. rewrite nth_error_set_nth.
    destruct (Nat.eqb i c) eqn:Ei; [|reflexivity].
    apply Nat.eqb_eq in Ei. subst. exfalso. apply Hn. now left.
Qed.

Lemma frame_app own s s' more :
  connections s' = connections s ++ more -> frame own s s'.
Proof.
  intros E. unfold frame. rewrite E. split.
  - rewrite length_app. lia.
  - intros i Hi _. now rewrite nth_error_app1.
Qed.

Lemma frame_Disconnect c s : frame [c] s (snd (Disconnect c s)).
Proof. apply frame_set_nth. reflexivity. Qed.

Lemma is_connected_frame own s s' c :
  frame own s s' -> ~ In c own -> is_connected c s = true -> is_connected c s' = true.
Proof.
  intros [L H] Hn Hc. unfold is_connected in *.
  destruct (nth_error (connections s) c) as [cn|] eqn:E; [|discriminate].
  rewrite H, E; auto. apply nth_error_Some. congruence.
Qed.

Lemma cancel_each_cons q r s :
  cancel_each (q :: r) s = cancel_each r (snd (cancel q s)).
Proof. unfold cancel_each. simpl. rewrite bind_run. reflexivity. Qed.

Lemma cancel_each_frame ps :
  Forall (fun p => forall s, frame (ids p) s (snd (cancel p s))) ps ->
  forall s, frame (flat_map ids ps) s (snd (cancel_each ps s)).
Proof.
  induction 1 as [|q r Hq Hr IH]; intros s.
  - apply frame_refl.
  - rewrite cancel_each_cons. simpl.
    apply frame_trans with (s2 := snd (cancel q s)).
    + eapply frame_weaken; [|apply Hq]. intros i Hi. apply in_or_app. now left.
    + eapply frame_weaken; [|apply IH]. intros i Hi. apply in_or_app. now right.
Qed.

Lemma cancel_frame p : forall s, frame (ids p) s (snd (cancel p s)).
Proof.
  induction p as [v|e| |c src listen|p k IH|ps IH|ps IH] using promise_ind2; intros s.
  - apply frame_refl.
  - apply frame_refl.
  - apply frame_refl.
  - apply frame_Disconnect.
  - apply IH.
  - rewrite cancel_Race. now apply cancel_each_frame.
  - rewrite cancel_All. now apply cancel_each_frame.
Qed.

Lemma NoDup_app_disjoint {A} (l l' : list A) :
  NoDup (l ++ l') -> forall a, In a l -> ~ In a l'.
Proof.
  induction l as [|x l IH]; simpl; intros H a Hin; [contradiction|].
  inversion H as [|? ? Hx Hl]; subst. destruct Hin as [<- | Hin].
  - intros Ha. apply Hx. apply in_or_app. now right.
  - now apply IH.
Qed.

Lemma within_refl p : within p p.
Proof. split; auto. Qed.

Lemma within_each_refl ps : within_each ps ps.
Proof. split; auto. Qed.

Lemma within_each_cons q q' r r' :
  within q q' -> within_each r r' -> within_each (q :: r) (q' :: r').
Proof.
  intros [Hi Hn] [Hi' Hn']. split; simpl.
  - intros i H. apply in_app_or in H. apply in_or_app. destruct H; auto.
  - intros H. apply NoDup_app.
    + apply Hn. eapply NoDup_app_remove_r; eauto.
    + apply Hn'. eapply NoDup_app_remove_l; eauto.
    + intros a Ha Ha'. apply (NoDup_app_disjoint _ _ H a); auto.
Qed.

Lemma decided_settled p : is_decided p = true -> is_settled p = true.
Proof. now destruct p. Qed.

Lemma ids_settled p : is_settled p = true -> ids p = [].
Proof. now destruct p. Qed.

Lemma tidy_settled p : is_settled p = true -> tidy p.
Proof. destruct p; try discriminate; constructor. Qed.

Lemma within_settled p p' : is_settled p' = true -> within p p'.
Proof.
  intros H. unfold within. rewrite (ids_settled p' H). split; [contradiction | constructor].
Qed.

Lemma first_decided_decided ps : forall r, first_decided ps = Some r -> is_decided r = true.
Proof.
  induction ps as [|q ps IH]; intros r H; [discriminate|].
  destruct q; simpl in H; try (now apply IH); now inversion H.
Qed.

Lemma deliver_until_orderly stop e ps :
  Forall (orderly e) ps ->
  forall s, Forall tidy ps ->
    Forall tidy (fst (deliver_until stop e ps s)) /\
    frame (flat_map ids ps) s (snd (deliver_until stop e ps s)) /\
    within_each ps (fst (deliver_until stop e ps s)).
Proof.
  induction 1 as [|q r Hq Hr IH]; intros s Ht.
  - simpl. split; [constructor|]. split; [apply frame_refl | apply within_each_refl].
  - inversion Ht as [|? ? Tq Tr]; subst.
    destruct (Hq s Tq) as (T1 & F1 & W1).
    rewrite deliver_until_cons.
    destruct (stop (fst (deliver e q s))); cbn [fst snd].
    + split; [constructor; auto|]. split.
      * eapply frame_weaken; [|exact F1]. intros i Hi. simpl. apply in_or_app. now left.
      * apply within_each_cons; [exact W1 | apply within_each_refl].
    + destruct (IH (snd (deliver e q s)) Tr) as (T2 & F2 & W2).
      split; [constructor; auto|]. split.
      * apply frame_trans with (s2 := snd (deliver e q s)).
        -- eapply frame_weaken; [|exact F1]. intros i Hi. simpl. apply in_or_app. now left.
        -- eapply frame_weaken; [|exact F2]. intros i Hi. simpl. apply in_or_app. now right.
      * apply within_each_cons; auto.
Qed.

Lemma cancel_each_frame_all ps s : frame (flat_map ids ps) s (snd (cancel_each ps s)).
Proof.
  apply cancel_each_frame. apply Forall_forall. intros p _. apply cancel_frame.
Qed.

Lemma deliver_orderly e p : orderly e p.
Proof.
  induction p as [v|err| |c src listen|p k IH|ps IH|ps IH] using promise_ind2;
    intros s Ht.
  - simpl. split; [auto|]. split; [apply frame_refl | apply within_refl].
  - simpl. split; [auto|]. split; [apply frame_refl | apply within_refl].
  - simpl. split; [auto|]. split; [apply frame_refl | apply within_refl].
  - inversion Ht as [| | |? ? ? Hl| | |]; subst.
    destruct (deliver_Listening_cases e c src listen s) as [E | (args & _ & E)]; rewrite E.
    + simpl. split; [auto|]. split; [apply frame_refl | apply within_refl].
    + specialize (Hl args s). cbn [fst snd].
      destruct (fst (listen args s)) as [q|].
      * destruct Hl as [Hd Hc]. apply decided_settled in Hd.
        split; [now apply tidy_settled|]. split; [now apply frame_set_nth|].
        now apply within_settled.
      * split; [auto|]. split; [now apply frame_same | apply within_refl].
  - inversion Ht as [| | | |? ? Tp Hk| |]; subst.
    destruct (IH s Tp) as (T1 & F1 & W1).
    rewrite deliver_AndThen.
    set (p' := fst (deliver e p s)) in *. set (s1 := snd (deliver e p s)) in *.
    assert (Hsame : tidy (AndThen p' k) /\ frame (ids (AndThen p k)) s s1 /\
                    within (AndThen p k) (AndThen p' k)).
    { split; [constructor; auto|]. split; [exact F1 | exact W1]. }
    destruct p'; simpl; try exact Hsame.
    + destruct (Hk v s1) as (Hd & more & Hc). apply decided_settled in Hd.
      split; [now apply tidy_settled|]. split.
      * apply frame_trans with (s2 := s1); [exact F1|]. eapply frame_app; eauto.
      * now apply within_settled.
    + split; [constructor|]. split; [exact F1 | now apply within_settled].
    + split; [constructor|]. split; [exact F1 | now apply within_settled].
  - inversion Ht as [| | | | |? Tps|]; subst.
    destruct (deliver_until_orderly is_decided e ps IH s Tps) as (T1 & F1 & W1).
    rewrite deliver_Race, bind_run.
    set (ps' := fst (deliver_until is_decided e ps s)) in *.
    set (s1 := snd (deliver_until is_decided e ps s)) in *.
    unfold Promise.race. destruct (first_decided ps') as [r|] eqn:E.
    + rewrite bind_run. cbn [ret fst snd].
      apply first_decided_decided, decided_settled in E.
      split; [now apply tidy_settled|]. split; [|now apply within_settled].
      apply frame_trans with (s2 := s1); [exact F1|].
      eapply frame_weaken; [|apply cancel_each_frame_all]. apply W1.
    + cbn [ret fst snd]. split; [now constructor|]. split; [exact F1 | exact W1].
  - inversion Ht as [| | | | | |? Tps]; subst.
    destruct (deliver_until_orderly is_rejected e ps IH s Tps) as (T1 & F1 & W1).
    rewrite deliver_All, bind_run.
    set (ps' := fst (deliver_until is_rejected e ps s)) in *.
    set (s1 := snd (deliver_until is_rejected e ps s)) in *.
    unfold Promise.all. destruct (first_rejected ps') as [r|] eqn:E.
    + rewrite bind_run. cbn [ret fst snd].
      split; [constructor|]. split; [|now apply within_settled].
      apply frame_trans with (s2 := s1); [exact F1|].
      eapply frame_weaken; [|apply cancel_each_frame_all]. apply W1.
    + destruct (resolved_values ps') as [vs|]; cbn [ret fst snd].
      * split; [constructor|]. split; [exact F1 | now apply within_settled].
      * split; [now constructor|]. split; [exact F1 | exact W1].
Qed.

Lemma ticking_frame d own s s' q :
  frame own s s' -> ticking d s q -> (forall i, In i (ids q) -> ~ In i own) ->
  ticking d s' q.
Proof.
  intros Hf.
  induction q as [v|err| |c src listen|p k IH|ps IH|ps IH] using promise_ind2;
    intros Ht Hd; inversion Ht; subst.
  - constructor. apply IH; auto.
  - constructor. eapply is_connected_frame; eauto. apply Hd. now left.
  - constructor; auto. rewrite Forall_forall in *. intros q Hq.
    destruct (H0 q Hq) as [Hr | Hq']; [now left | right].
    apply IH; auto. intros i Hi. apply Hd. simpl. apply in_flat_map. eauto.
Qed.

Lemma ticking_same d s s' q :
  connections s' = connections s -> ticking d s q -> ticking d s' q.
Proof.
  intros E H. apply (ticking_frame d [] s s' q); auto. now apply frame_same.
Qed.

Lemma timer_fires ct d dt s :
  is_connected ct s = true -> Qle_bool (now s) d = false ->
  deliver (EElapse dt) (Listening ct (SigTimer d) (Promise.on_timeout ct)) s
  = (Rejected TimedOut, snd (Disconnect ct s)).
Proof. intros Hc Hq. cbn [deliver]. rewrite Hc. cbn [triggers]. rewrite Hq. reflexivity. Qed.

Lemma first_rejected_resolved ps :
  first_rejected ps = None ->
  Forall (fun q => is_decided q = true -> is_resolved q = true) ps.
Proof.
  induction ps as [|q r IH]; intros H; constructor.
  - destruct q; simpl in *; auto; discriminate.
  - apply IH. destruct q; simpl in *; auto; discriminate.
Qed.

(** Once the clock is past its deadline, a promise under a connected
    timer is rejected with [TimedOut] by the passing of time. *)
Lemma ticking_fires d dt p : forall s,
  ticking d s p -> Qle_bool (now s) d = false ->
  fst (deliver (EElapse dt) p s) = Rejected TimedOut.
Proof.
  induction p as [v|err| |c src listen|p k IH|ps IH|ps IH] using promise_ind2;
    intros s Ht Hq; inversion Ht; subst.
  - rewrite deliver_AndThen, (IH s); auto.
  - rewrite deliver_Race, bind_run, deliver_until_cons, timer_fires; auto.
    cbn [fst snd is_decided]. unfold Promise.race. cbn [first_decided].
    rewrite bind_run. reflexivity.
  - rewrite deliver_All, bind_run.
    assert (E : first_rejected (fst (deliver_until is_rejected (EElapse dt) ps s))
                = Some TimedOut).
    { clear Ht. revert s Hq H0 H1.
      induction IH as [|q r IHq _ IHr]; intros s Hq H0 H1; [discriminate|].
      inversion H0 as [|? ? Hq0 Hr0]; subst. rewrite deliver_until_cons.
      destruct Hq0 as [Hres | Htick].
      - destruct q; try discriminate. simpl. apply IHr; auto.
        simpl in H1. destruct (resolved_values r); [discriminate | reflexivity].
      - rewrite (IHq s); auto. }
    unfold Promise.all. rewrite E, bind_run. reflexivity.
Qed.

Lemma resolved_or_ticking_frame d own s s' ps :
  frame own s s' ->
  (forall i, In i (flat_map ids ps) -> ~ In i own) ->
  Forall (fun q => is_resolved q = true \/ ticking d s q) ps ->
  Forall (fun q => is_resolved q = true \/ ticking d s' q) ps.
Proof.
  intros Hf Hd H. rewrite Forall_forall in *. intros q Hq.
  destruct (H q Hq) as [Hr | Ht]; [now left | right].
  eapply ticking_frame; eauto. intros i Hi. apply Hd. apply in_flat_map. eauto.
Qed.

Lemma resolved_decided q : is_resolved q = true -> is_decided q = true.
Proof. now destruct q. Qed.

Lemma deliver_until_steady d e ps :
  Forall (steady d e) ps ->
  forall s, Forall tidy ps -> NoDup (flat_map ids ps) ->
    Forall (fun q => is_resolved q = true \/ ticking d s q) ps ->
    Forall (fun q => is_decided q = true \/
                     ticking d (snd (deliver_until is_rejected e ps s)) q)
           (fst (deliver_until is_rejected e ps s)).
Proof.
  induction 1 as [|q r Hq Hr IH]; intros s Ht Hn H; [constructor|].
  inversion Ht as [|? ? Tq Tr]; subst. inversion H as [|? ? H1 H2]; subst.
  simpl in Hn.
  pose proof (NoDup_app_remove_r _ _ Hn) as Nq.
  pose proof (NoDup_app_remove_l _ _ Hn) as Nr.
  pose proof (NoDup_app_disjoint _ _ Hn) as Dqr.
  destruct (deliver_orderly e q s Tq) as (T1 & F1 & W1).
  assert (H2' : Forall (fun q0 => is_resolved q0 = true \/
                                  ticking d (snd (deliver e q s)) q0) r).
  { eapply resolved_or_ticking_frame; eauto. intros i Hi Hi'. apply (Dqr i); auto. }
  assert (H1' : is_decided (fst (deliver e q s)) = true \/
                ticking d (snd (deliver e q s)) (fst (deliver e q s))).
  { destruct H1 as [Hres | Htick]; [|now apply Hq].
    left. rewrite deliver_settled; [now apply resolved_decided|]. now destruct q. }
  rewrite deliver_until_cons.
  destruct (is_rejected (fst (deliver e q s))); cbn [fst snd].
  - constructor; [exact H1'|].
    eapply Forall_impl; [|exact H2']. intros a [Ha | Ha]; [left | now right].
    now apply resolved_decided.
  - destruct (deliver_until_orderly is_rejected e r) with (s := snd (deliver e q s))
      as (_ & F2 & _); auto.
    { apply Forall_forall. intros p _. apply deliver_orderly. }
    constructor; [|now apply IH].
    destruct H1' as [Hd | Htick]; [now left | right].
    eapply ticking_frame; eauto.
    intros i Hi Hi'. apply (Dqr i); auto. now apply W1.
Qed.

Lemma deliver_steady d e p : steady d e p.
Proof.
  induction p as [v|err| |c src listen|p k IH|ps IH|ps IH] using promise_ind2;
    intros s Ht Hn Hk; inversion Hk; subst.
  - (* a chained promise *)
    inversion Ht as [| | | |? ? Tp Hcb| |]; subst.
    rewrite deliver_AndThen. simpl in Hn.
    destruct (IH s Tp Hn H0) as [Hd | Htick].
    + left. destruct (fst (deliver e p s)); try discriminate.
      * apply Hcb.
      * reflexivity.
    + right. inversion Htick; subst; rewrite <- ?H, <- ?H1, <- ?H2;
        simpl; constructor; congruence.
  - (* a race with the timer *)
    inversion Ht as [| | | | |? Tps|]; subst.
    inversion Tps as [|? ? _ Trest]; subst.
    simpl in Hn. inversion Hn as [|? ? Hct Nrest]; subst.
    rewrite deliver_Race, bind_run, deliver_until_cons.
    destruct (on_timeout_cases e ct d s) as [E | E]; rewrite E; cbn [is_decided fst snd].
    + destruct (deliver_until_orderly is_decided e rest) with (s := s) as (_ & F & W); auto.
      { apply Forall_forall. intros p _. apply deliver_orderly. }
      unfold Promise.race. cbn [first_decided].
      destruct (first_decided (fst (deliver_until is_decided e rest s))) as [r|] eqn:Er.
      * left. rewrite bind_run. cbn [ret fst snd]. eapply first_decided_decided; eauto.
      * right. cbn [ret fst snd]. constructor.
        eapply is_connected_frame; eauto.
    + left. unfold Promise.race. cbn [first_decided]. rewrite bind_run. reflexivity.
  - (* the promises of the children *)
    inversion Ht as [| | | | | |? Tps]; subst. simpl in Hn.
    pose proof (deliver_until_steady d e ps IH s Tps Hn H0) as H.
    rewrite deliver_All, bind_run.
    set (ps' := fst (deliver_until is_rejected e ps s)) in *.
    set (s1 := snd (deliver_until is_rejected e ps s)) in *.
    unfold Promise.all. destruct (first_rejected ps') as [r|] eqn:E.
    + left. rewrite bind_run. reflexivity.
    + destruct (resolved_values ps') as [vs|] eqn:Ev; cbn [ret fst snd]; [now left | right].
      constructor; [|exact Ev].
      pose proof (first_rejected_resolved ps' E) as Hres.
      rewrite Forall_forall in *. intros q Hq.
      destruct (H q Hq) as [Hd | Htick]; [left; now apply Hres | now right].
Qed.

Lemma tidy_timer ct d : tidy (Listening ct (SigTimer d) (Promise.on_timeout ct)).
Proof. constructor. intros args s. simpl. split; reflexivity. Qed.

Lemma tidy_on_firing c src predicate :
  pure predicate -> tidy (Listening c src (Promise.on_firing c predicate)).
Proof.
  intros Hp. constructor. intros args s. rewrite (on_firing_eq c predicate args s Hp).
  destruct (fst (predicate args s)); simpl; [split|]; reflexivity.
Qed.

Lemma tidy_poll predicate hb : tidy (Listening hb SigHeartbeat (poll predicate hb)).
Proof.
  constructor. intros args s. unfold poll, invoke, bind, gets, modify, ret. simpl.
  destruct (predicate (calls s)) as [v|exn]; [|reflexivity].
  destruct (negb (is_undefined v)); simpl; [split|]; reflexivity.
Qed.

Lemma is_connected_Connect src h s :
  is_connected (List.length (connections s)) (snd (Connect src h s)) = true.
Proof.
  unfold is_connected. simpl. rewrite nth_error_app2, Nat.sub_diag by lia. reflexivity.
Qed.

Lemma guarded_eq instance p seconds s :
  is_pending p = true ->
  let cd := List.length (connections s) in
  (watched <- watchDestroying instance p ;; Promise.timeout watched seconds) s =
  (Race [ Listening (S cd) (SigTimer (now s + Promise.delay_time seconds)) (Promise.on_timeout (S cd));
          Race [ p;
                 AndThen (Listening cd (Destroying instance)
                            (Promise.on_firing cd (fun _ => ret true)))
                         (fun _ => Promise.reject Destroyed) ] ],
   set_connections
     (connections s ++ [mkConnection (Destroying instance) PromiseListener true;
                        mkConnection (SigTimer (now s + Promise.delay_time seconds)) PromiseListener true]) s).
Proof.
  intros Hp. cbv zeta.
  unfold watchDestroying, Promise.fromEvent, Promise.timeout, Promise.andThen, Promise.race,
    Connect, bind, gets, ret.
  destruct p; try discriminate; cbn; rewrite !length_app; cbn;
    rewrite !Nat.add_1_r, <- !app_assoc; reflexivity.
Qed.

Lemma guarded_armed instance p seconds s0 s :
  tidy p -> NoDup (ids p) -> is_pending p = true ->
  (forall i, In i (ids p) ->
             (List.length (connections s0) <= i < List.length (connections s))%nat) ->
  (List.length (connections s0) <= List.length (connections s))%nat ->
  let r := (watched <- watchDestroying instance p ;; Promise.timeout watched seconds) s in
  live (now s + Promise.delay_time seconds) (snd r) (fst r) /\
  (exists more, connections (snd r) = connections s ++ more) /\
  (forall i, In i (ids (fst r)) ->
             (List.length (connections s0) <= i < List.length (connections (snd r)))%nat) /\
  now (snd r) = now s.
Proof.
  intros Ht Hn Hp Hb Hl. cbv zeta. rewrite (guarded_eq instance p seconds s Hp).
  cbn [fst snd]. set (cd := List.length (connections s)).
  assert (Hids : forall i, In i (ids p ++ [cd] ++ []) -> (i <= cd)%nat).
  { intros i Hi. apply in_app_or in Hi. destruct Hi as [Hi | [<- | []]]; [|lia].
    apply Hb in Hi. unfold cd. lia. }
  split; [split; [|split]|split; [|split]].
  - constructor. constructor; [apply tidy_timer|]. constructor; [|constructor].
    constructor. constructor; [exact Ht|]. constructor; [|constructor].
    constructor; [apply tidy_on_firing; intros args s1; reflexivity|].
    intros v s1. split; [reflexivity|]. exists []. simpl. now rewrite app_nil_r.
  - simpl. rewrite app_nil_r. constructor.
    + intros Hi. rewrite <- (app_nil_r (ids p ++ [cd])), <- app_assoc in Hi.
      apply Hids in Hi. lia.
    + apply NoDup_app; [exact Hn | repeat constructor; simpl; tauto|].
      intros a Ha [<- | []]. apply Hb in Ha. unfold cd in Ha. lia.
  - constructor. unfold is_connected. cbn [connections set_connections].
    rewrite nth_error_app2 by (fold cd; lia). fold cd.
    replace (S cd - cd)%nat with 1%nat by lia. reflexivity.
  - eexists. reflexivity.
  - intros i Hi. simpl in Hi. cbn [connections set_connections].
    rewrite length_app. simpl. fold cd.
    destruct Hi as [<- | Hi]; [lia|]. rewrite app_nil_r in Hi.
    apply in_app_or in Hi. destruct Hi as [Hi | [<- | []]]; [|lia].
    apply Hb in Hi. lia.
  - reflexivity.
Qed.

Lemma wait_on_signal_armed instance src predicate seconds s :
  pure predicate ->
  let r := (added <- Promise.fromEvent src predicate ;;
            watched <- watchDestroying instance added ;;
            Promise.timeout watched seconds) s in
  live (now s + Promise.delay_time seconds) (snd r) (fst r) /\ armed (now s + Promise.delay_time seconds) s (snd r) (fst r).
Proof.
  intros Hp. cbv zeta. rewrite bind_run.
  set (c := List.length (connections s)).
  change (Promise.fromEvent src predicate s)
    with (Listening c src (Promise.on_firing c predicate), snd (Connect src PromiseListener s)).
  cbn [fst snd].
  destruct (guarded_armed instance (Listening c src (Promise.on_firing c predicate)) seconds
              s (snd (Connect src PromiseListener s))) as (H1 & (more & H2) & H3 & H4).
  - now apply tidy_on_firing.
  - repeat constructor. simpl. tauto.
  - reflexivity.
  - intros i [<- | []]. simpl. rewrite length_app. simpl. fold c. lia.
  - simpl. rewrite length_app. lia.
  - split; [exact H1|].
    split; [right; exact H1|]. split; [|split; [exact H3 | exact H4]].
    rewrite H2. simpl. rewrite <- app_assoc. eexists. reflexivity.
Qed.

Lemma property_wait_armed instance src predicate k seconds s :
  pure predicate ->
  (forall v s2, snd (k v s2) = s2 /\ exists w, fst (k v s2) = Resolved w) ->
  let r := (changed <- Promise.fromEvent src predicate ;;
            read <- Promise.andThen changed k ;;
            watched <- watchDestroying instance read ;;
            Promise.timeout watched seconds) s in
  live (now s + Promise.delay_time seconds) (snd r) (fst r) /\ armed (now s + Promise.delay_time seconds) s (snd r) (fst r).
Proof.
  intros Hp Hk. cbv zeta. rewrite bind_run.
  set (c := List.length (connections s)).
  change (Promise.fromEvent src predicate s)
    with (Listening c src (Promise.on_firing c predicate), snd (Connect src PromiseListener s)).
  cbn [fst snd]. rewrite bind_run. cbn [Promise.andThen ret fst snd].
  destruct (guarded_armed instance
              (AndThen (Listening c src (Promise.on_firing c predicate)) k) seconds
              s (snd (Connect src PromiseListener s))) as (H1 & (more & H2) & H3 & H4).
  - constructor; [now apply tidy_on_firing|]. intros v s2.
    destruct (Hk v s2) as [E (w & Ew)]. rewrite E, Ew. split; [reflexivity|].
    exists []. now rewrite app_nil_r.
  - repeat constructor. simpl. tauto.
  - reflexivity.
  - intros i [<- | []]. simpl. rewrite length_app. simpl. fold c. lia.
  - simpl. rewrite length_app. lia.
  - split; [exact H1|].
    split; [right; exact H1|]. split; [|split; [exact H3 | exact H4]].
    rewrite H2. simpl. rewrite <- app_assoc. eexists. reflexivity.
Qed.

Lemma armed_resolved d s v : armed d s s (Resolved v).
Proof.
  split; [now left|]. split; [exists []; now rewrite app_nil_r|].
  split; [intros i []| reflexivity].
Qed.

Lemma pure_on_instance f : pure (on_instance f).
Proof. intros args s. reflexivity. Qed.

Lemma waitForChild_armed parent childName recursive timeout s :
  let r := waitForChild parent childName recursive timeout s in
  armed (now s + Promise.delay_time (default DEFAULT_TIMEOUT timeout)) s (snd r) (fst r).
Proof.
  cbv zeta. unfold waitForChild.
  destruct (FindFirstChild parent childName (default false recursive)).
  - apply armed_resolved.
  - apply (wait_on_signal_armed parent). apply pure_on_instance.
Qed.

Lemma waitForChildWhichIsA_armed parent className recursive timeout s :
  let r := waitForChildWhichIsA parent className recursive timeout s in
  armed (now s + Promise.delay_time (default DEFAULT_TIMEOUT timeout)) s (snd r) (fst r).
Proof.
  cbv zeta. unfold waitForChildWhichIsA.
  destruct (FindFirstChildWhichIsA parent className (default false recursive)).
  - apply armed_resolved.
  - apply (wait_on_signal_armed parent). apply pure_on_instance.
Qed.

Lemma waitForChildOfClass_armed parent className timeout s :
  let r := waitForChildOfClass parent className timeout s in
  armed (now s + Promise.delay_time (default DEFAULT_TIMEOUT timeout)) s (snd r) (fst r).
Proof.
  cbv zeta. unfold waitForChildOfClass.
  destruct (FindFirstChildOfClass parent className).
  - apply armed_resolved.
  - apply (wait_on_signal_armed parent). apply pure_on_instance.
Qed.

Lemma waitForPrimaryPart_armed model timeout s :
  let r := waitForPrimaryPart model timeout s in
  armed (now s + Promise.delay_time (default DEFAULT_TIMEOUT timeout)) s (snd r) (fst r).
Proof.
  cbv zeta. unfold waitForPrimaryPart. rewrite bind_run. cbn [PrimaryPart gets fst snd].
  destruct (primaryPart s (uid model)).
  - apply armed_resolved.
  - apply property_wait_armed.
    + intros args s1. reflexivity.
    + intros v s2. split; [reflexivity|]. eexists. reflexivity.
Qed.

Lemma waitForObjectValue_armed holder timeout s :
  let r := waitForObjectValue holder timeout s in
  armed (now s + Promise.delay_time (default DEFAULT_TIMEOUT timeout)) s (snd r) (fst r).
Proof.
  cbv zeta. unfold waitForObjectValue. rewrite bind_run. cbn [Value gets fst snd].
  destruct (objectValue s (uid holder)).
  - apply armed_resolved.
  - apply property_wait_armed.
    + intros args s1. reflexivity.
    + intros v s2. split; [reflexivity|]. eexists. reflexivity.
Qed.

Lemma live_polling predicate hb d s :
  is_connected (S hb) s = true -> live d s (polling predicate hb (S hb) d).
Proof.
  intros Hc. split; [|split].
  - constructor. constructor; [apply tidy_timer|]. constructor; [apply tidy_poll | constructor].
  - simpl. repeat constructor; simpl; [lia | tauto].
  - now constructor.
Qed.

Lemma tidy_watch_child p : tidy p -> tidy (AndThen p watch_child).
Proof.
  intros H. constructor; [exact H|]. intros v s. destruct v; simpl;
    try (split; [reflexivity | exists []; now rewrite app_nil_r]).
  split; [reflexivity|]. eexists. reflexivity.
Qed.

Lemma wait_and_watch_armed parent recursive timeout childName s :
  let r := wait_and_watch parent recursive timeout childName s in
  armed (now s + Promise.delay_time timeout) s (snd r) (fst r).
Proof.
  cbv zeta. unfold wait_and_watch, waitForChild. cbn [default].
  destruct (FindFirstChild parent childName recursive) as [child|].
  - rewrite bind_run. simpl.
    split; [now left|]. split; [eexists; reflexivity|]. split; [intros i [] | reflexivity].
  - rewrite bind_run.
    destruct (wait_on_signal_armed parent
                (if recursive then DescendantAdded parent else ChildAdded parent)
                (on_instance (fun c => String.eqb (Name c) childName)) timeout s
                (pure_on_instance _)) as ((Ht & Hn & Hk) & _ & (more & H2) & H3 & H4).
    set (r := (added <- Promise.fromEvent _ _ ;; _) s) in *.
    destruct r as [found s1]. cbn [fst snd] in *.
    assert (E : Promise.andThen found watch_child s1 = (AndThen found watch_child, s1)).
    { inversion Hk; reflexivity. }
    rewrite E. cbn [fst snd].
    split; [right|split; [exists more; exact H2 | split; [exact H3 | exact H4]]].
    split; [now apply tidy_watch_child|]. split; [exact Hn | now constructor].
Qed.

Lemma mapM_cons {A B} (f : A -> M B) a r s :
  mapM f (a :: r) s =
  (fst (f a s) :: fst (mapM f r (snd (f a s))), snd (mapM f r (snd (f a s)))).
Proof. cbn [mapM]. rewrite !bind_run. reflexivity. Qed.

Lemma children_armed parent recursive timeout names : forall s,
  let r := mapM (wait_and_watch parent recursive timeout) names s in
  Forall tidy (fst r) /\
  NoDup (flat_map ids (fst r)) /\
  Forall (fun q => is_resolved q = true \/ ticking (now s + Promise.delay_time timeout) (snd r) q) (fst r) /\
  (exists more, connections (snd r) = connections s ++ more) /\
  (forall i, In i (flat_map ids (fst r)) ->
             (List.length (connections s) <= i < List.length (connections (snd r)))%nat) /\
  now (snd r) = now s.
Proof.
  induction names as [|name names IH]; intros s; cbv zeta.
  - simpl. split; [constructor|]. split; [constructor|]. split; [constructor|].
    split; [exists []; now rewrite app_nil_r|]. split; [intros i []|reflexivity].
  - rewrite mapM_cons.
    destruct (wait_and_watch_armed parent recursive timeout name s)
      as (H1 & (more1 & H2) & H3 & H4).
    set (q := fst (wait_and_watch parent recursive timeout name s)) in *.
    set (s1 := snd (wait_and_watch parent recursive timeout name s)) in *.
    destruct (IH s1) as (T2 & N2 & K2 & (more2 & C2) & B2 & W2).
    set (qs := fst (mapM (wait_and_watch parent recursive timeout) names s1)) in *.
    set (s2 := snd (mapM (wait_and_watch parent recursive timeout) names s1)) in *.
    cbn [fst snd].
    assert (L1 : (List.length (connections s) <= List.length (connections s1))%nat).
    { rewrite H2, length_app. lia. }
    assert (L2 : (List.length (connections s1) <= List.length (connections s2))%nat).
    { rewrite C2, length_app. lia. }
    rewrite H4 in K2.
    split; [|split; [|split; [|split; [|split]]]].
    + constructor; [|exact T2].
      destruct H1 as [Hres | (Ht & _)]; [|exact Ht].
      apply tidy_settled. now destruct q.
    + simpl. apply NoDup_app; [|exact N2|].
      * destruct H1 as [Hres | (_ & Hn & _)]; [|exact Hn].
        rewrite ids_settled; [constructor | now destruct q].
      * intros a Ha Ha'. apply H3 in Ha. apply B2 in Ha'. lia.
    + constructor.
      * destruct H1 as [Hres | (_ & _ & Hk)]; [now left | right].
        apply (ticking_frame _ [] s1 s2); auto.
        eapply frame_app; eauto.
      * exact K2.
    + rewrite C2, H2, <- app_assoc. eexists. reflexivity.
    + intros i Hi. simpl in Hi. apply in_app_or in Hi. destruct Hi as [Hi | Hi].
      * apply H3 in Hi. lia.
      * apply B2 in Hi. lia.
    + congruence.
Qed.

Lemma settled_check_destroyed v s :
  is_settled (fst (check_destroyed v s)) = true.
Proof. rewrite check_destroyed_eq. simpl. now destruct (destroyed s). Qed.

Lemma finish_alive d ps s :
  Forall tidy ps -> NoDup (flat_map ids ps) ->
  Forall (fun q => is_resolved q = true \/ ticking d s q) ps ->
  alive d (snd (finish ps s)) (fst (finish ps s)).
Proof.
  intros Ht Hn Hk. unfold finish. rewrite bind_run.
  destruct (all_shape ps s) as [(e & E) | [(vs & E) | (E & Ev)]].
  - left. rewrite E. reflexivity.
  - left. rewrite E. simpl. apply settled_check_destroyed.
  - right. right. rewrite E. simpl. exists ps. split; [reflexivity|].
    split; [now constructor|]. split; [exact Hn | now constructor].
Qed.

Lemma waitForChildren_alive parent names recursive timeout s :
  let r := waitForChildren parent names recursive timeout s in
  alive (now s + Promise.delay_time (default DEFAULT_TIMEOUT timeout)) (snd r) (fst r).
Proof.
  cbv zeta. rewrite waitForChildren_eq, bind_run.
  set (s0 := set_destroyed false (set_destroying [] s)).
  destruct (children_armed parent (default false recursive)
              (default DEFAULT_TIMEOUT timeout) names s0) as (H1 & H2 & H3 & _).
  apply finish_alive; auto.
Qed.

Lemma armed_alive d s s' p : armed d s s' p -> alive d s' p.
Proof.
  intros ([Hres | Hl] & _); [left; now destruct p | right; now left].
Qed.

Lemma perform_alive c s p s0 :
  perform c s = (Normal p, s0) -> alive (now s + Promise.delay_time (timeout_of c)) s0 p.
Proof.
  destruct c as [parent childName recursive timeout|parent className recursive timeout
                |parent className timeout|parent names recursive timeout
                |model timeout|holder timeout|predicate timeout];
    cbn [perform timeout_of]; unfold normally; try rewrite bind_run; cbn [ret];
    intros E.
  - inversion E; subst. eapply armed_alive. apply waitForChild_armed.
  - inversion E; subst. eapply armed_alive. apply waitForChildWhichIsA_armed.
  - inversion E; subst. eapply armed_alive. apply waitForChildOfClass_armed.
  - inversion E; subst. apply waitForChildren_alive.
  - inversion E; subst. eapply armed_alive. apply waitForPrimaryPart_armed.
  - inversion E; subst. eapply armed_alive. apply waitForObjectValue_armed.
  - pose proof (waitForCustom_cases predicate timeout s) as H. rewrite E in H.
    cbn [fst snd] in H.
    destruct (predicate (calls s)) as [v|exn] eqn:Ep; [|discriminate].
    destruct (is_undefined v) eqn:U.
    + apply is_undefined_true in U. subst v.
      rewrite (waitForCustom_pending predicate timeout s Ep) in E.
      inversion E; subst. right. left. apply live_polling.
      destruct H as (hb & d & H & _ & Hc). inversion H; subst. exact Hc.
    + inversion H; subst. now left.
Qed.

Lemma step_alive d e p s :
  alive d s p -> alive d (snd (step e (p, s))) (fst (step e (p, s))).
Proof.
  intros [Hs | [(Ht & Hn & Hk) | (ps & -> & Ht & Hn & Hk)]].
  - rewrite step_settled by exact Hs. left. exact Hs.
  - unfold step. cbn [fst snd].
    set (s1 := run_callbacks e (host_update e s)).
    assert (Hk1 : ticking d s1 p).
    { eapply ticking_same; [|exact Hk]. unfold s1.
      now rewrite connections_run_callbacks, connections_host_update. }
    destruct (deliver_orderly e p s1 Ht) as (T1 & _ & W1).
    destruct (deliver_steady d e p s1 Ht Hn Hk1) as [Hd | Hk2].
    + left. now apply decided_settled.
    + right. left. split; [exact T1|]. split; [now apply W1 | exact Hk2].
  - unfold step. cbn [fst snd].
    set (s1 := run_callbacks e (host_update e s)).
    assert (Hk1 : ticking d s1 (All ps)).
    { eapply ticking_same; [|exact Hk]. unfold s1.
      now rewrite connections_run_callbacks, connections_host_update. }
    destruct (deliver_orderly e (All ps) s1 Ht) as (T1 & _ & W1).
    pose proof (deliver_steady d e (All ps) s1 Ht Hn Hk1) as H.
    rewrite deliver_AndThen.
    set (q := fst (deliver e (All ps) s1)) in *.
    set (s2 := snd (deliver e (All ps) s1)) in *.
    destruct H as [Hd | Hk2].
    + left. destruct q; try discriminate; simpl; [apply settled_check_destroyed | reflexivity].
    + assert (Hq : exists ps', q = All ps').
      { unfold q. rewrite deliver_All, bind_run.
        destruct (all_shape (fst (deliver_until is_rejected e ps s1))
                    (snd (deliver_until is_rejected e ps s1)))
          as [(e0 & E) | [(vs & E) | (E & _)]].
        - exfalso. fold q in Hk2. unfold q in Hk2. rewrite deliver_All, bind_run, E in Hk2.
          inversion Hk2.
        - exfalso. fold q in Hk2. unfold q in Hk2. rewrite deliver_All, bind_run, E in Hk2.
          inversion Hk2.
        - rewrite E. eexists. reflexivity. }
      destruct Hq as (ps' & Hq). rewrite Hq in *. simpl.
      right. right. exists ps'. split; [reflexivity|].
      split; [exact T1|]. split; [now apply W1 | exact Hk2].
Qed.

Lemma run_alive d evs : forall p s,
  alive d s p -> alive d (snd (run evs (p, s))) (fst (run evs (p, s))).
Proof.
  induction evs as [|e evs IH]; intros p s H; [exact H|].
  rewrite run_cons. pose proof (step_alive d e p s H) as H1.
  destruct (step e (p, s)) as [p1 s1]. now apply IH.
Qed.

Lemma alive_fires d dt p s :
  alive d s p -> is_pending p = true -> d < now s + dt ->
  fst (step (EElapse dt) (p, s)) = Rejected TimedOut.
Proof.
  intros H Hp Hd. unfold step. cbn [fst snd].
  set (s1 := run_callbacks (EElapse dt) (host_update (EElapse dt) s)).
  assert (Hq : Qle_bool (now s1) d = false).
  { apply Qle_bool_false. unfold s1. rewrite now_host. exact Hd. }
  assert (Hc : connections s1 = connections s).
  { unfold s1. now rewrite connections_run_callbacks, connections_host_update. }
  destruct H as [Hs | [(_ & _ & Hk) | (ps & -> & _ & _ & Hk)]].
  - unfold is_pending in Hp. rewrite Hs in Hp. discriminate.
  - apply (ticking_fires d); auto. eapply ticking_same; eauto.
  - apply (ticking_fires d); auto. constructor. eapply ticking_same; eauto.
Qed.



(** ** The watches of the batch on its failures *)

(** C3 (what the code does).  The watches that [waitForChildren] has
    connected are disconnected by the callback chained on [Promise.all],
    which runs when every child is found.  When one of the waits fails, by
    the timeout or by the destruction of the parent, that callback does not
    run: the promise is rejected and the watch on the child found before is
    still connected. *)
Theorem waitForChildren_leaves_its_watch_connected_on_failure :
  let st := waitForChildren vehicle ["LeftWheel"; "RightWheel"] None (Some 1) (fresh 0) in
  outcome_of (fst st) = Pending /\
  (outcome_of (fst (run [EElapse 2] st)) = Failed TimedOut /\
   watched (snd (run [EElapse 2] st)) LeftWheel) /\
  (outcome_of (fst (run [EDestroying 0] st)) = Failed Destroyed /\
   watched (snd (run [EDestroying 0] st)) LeftWheel) /\
  (outcome_of (fst (run [EChildAdded 0 RightWheel] st))
     = Fulfilled (VArray [VInstance LeftWheel; VInstance RightWheel]) /\
   Forall (fun cn => Connected cn = false)
          (connections (snd (run [EChildAdded 0 RightWheel] st)))).
Proof.
  cbv zeta. split; [reflexivity|]. repeat split.
  - exists 0%nat. reflexivity.
  - exists 0%nat. reflexivity.
  - vm_compute. repeat constructor.
Qed.

(** ** The attribute wait of the documentation *)

Lemma quiet_Throw c s :
  quiet s ->
  match fst (perform c s) with
  | Normal _ => True
  | Throw _ => quiet (snd (perform c s))
  end.
Proof.
  intros Hq.
  destruct c; simpl perform; unfold normally; try (rewrite bind_run; exact I).
  pose proof (waitForCustom_cases predicate timeout s) as Hc.
  destruct (predicate (calls s)) as [v|exn] eqn:E.
  - destruct (is_undefined v).
    + destruct Hc as (hb & d & -> & _). exact I.
    + rewrite Hc. exact I.
  - rewrite Hc. unfold waitForCustom, invoke, bind, gets, modify, ret.
    rewrite E. exact Hq.
Qed.

(** C7 (what the code has).  The module exports seven functions, and
    [waitForAttribute], which the documentation describes, is not one of
    them; none of the seven, on any arguments and after any events, makes a
    connection to an attribute-changed signal. *)
Theorem no_exported_function_waits_for_an_attribute
    (c : call) (s : env) (evs : list event) :
  quiet s ->
  ~ In "waitForAttribute" exports /\
  List.length exports = 7%nat /\
  quiet (match fst (perform c s) with
         | Normal p => snd (run evs (p, snd (perform c s)))
         | Throw _ => snd (perform c s)
         end).
Proof.
  intros Hq. split.
  { unfold exports. simpl. intros H.
    repeat (destruct H as [H|H]; [discriminate|]). exact H. }
  split; [reflexivity|].
  pose proof (perform_good (fun _ => True) c s (fun _ _ => I)) as Hg.
  pose proof (quiet_Throw c s Hq) as Ht.
  destruct (fst (perform c s)) as [p|exn]; [|exact Ht].
  destruct Hg as [Hg Hq1].
  destruct (run_good (fun _ => True) evs c p _ (Forall_keeps_time_True evs) Hg) as [_ Hq2].
  auto.
Qed.

Lemma no_exported_function_waits_for_an_attribute_witness :
  let c := CallWaitForChildren vehicle ["LeftWheel"; "RightWheel"] None None in
  let evs := [EElapse 1; EChildAdded 0 RightWheel] in
  quiet (fresh 0) /\
  ~ In "waitForAttribute" exports /\
  quiet (match fst (perform c (fresh 0)) with
         | Normal p => snd (run evs (p, snd (perform c (fresh 0))))
         | Throw _ => snd (perform c (fresh 0))
         end).
Proof.
  intros c evs.
  assert (Hq : quiet (fresh 0)) by constructor.
  split; [exact Hq|].
  destruct (no_exported_function_waits_for_an_attribute c (fresh 0) evs Hq)
    as (H1 & _ & H2).
  split; [exact H1 | exact H2].
Defined.

(** * Further properties *)

(** ** What settles a single wait *)

Lemma deliver_signal_wait e c src predicate s :
  pure predicate ->
  deliver e (Listening c src (Promise.on_firing c predicate)) s =
  match (if is_connected c s then accepted src predicate e s else None) with
  | Some args => (Resolved args, snd (Disconnect c s))
  | None => (Listening c src (Promise.on_firing c predicate), s)
  end.
Proof.
  intros Hp. cbn [deliver]. unfold accepted.
  destruct (is_connected c s); [|reflexivity].
  destruct (triggers e (now s) src) as [args|]; [|reflexivity].
  rewrite (on_firing_eq c predicate args s Hp).
  destruct (fst (predicate args s)); reflexivity.
Qed.

Lemma race_decided ps r s :
  first_decided ps = Some r -> Promise.race ps s = (r, snd (cancel_each ps s)).
Proof. intros E. unfold Promise.race. rewrite E, bind_run. reflexivity. Qed.

Lemma race_pending ps s : first_decided ps = None -> Promise.race ps s = (Race ps, s).
Proof. intros E. unfold Promise.race. rewrite E. reflexivity. Qed.

Lemma deliver_until_nil stop e s : deliver_until stop e [] s = ([], s).
Proof. reflexivity. Qed.

Section Guard.
Variable w : promise.
Variable hit : event -> env -> option value.
Variable after : env -> env.
Hypothesis deliver_w : forall e s,
  deliver e w s =
  match hit e s with
  | Some v => (Resolved v, after s)
  | None => (w, s)
  end.
Hypothesis pending_w : first_decided [w] = None.

Lemma guard_deliver cd ct instance d e s :
  is_connected ct s = true -> is_connected cd s = true ->
  let G := guard w cd ct instance d in
  fst (deliver e G s) =
    match triggers e (now s) (SigTimer d), hit e s, triggers e (now s) (Destroying instance) with
    | Some _, _, _ => Rejected TimedOut
    | None, Some v, _ => Resolved v
    | None, None, Some _ => Rejected Destroyed
    | None, None, None => G
    end /\
  (is_pending (fst (deliver e G s)) = true -> deliver e G s = (G, s)).
Proof.
  intros Hct Hcd. cbv zeta. unfold guard.
  rewrite deliver_Race, bind_run, deliver_until_cons.
  assert (Htimer : deliver e (Listening ct (SigTimer d) (Promise.on_timeout ct)) s =
                   match triggers e (now s) (SigTimer d) with
                   | Some _ => (Rejected TimedOut, snd (Disconnect ct s))
                   | None => (Listening ct (SigTimer d) (Promise.on_timeout ct), s)
                   end).
  { cbn [deliver]. rewrite Hct. now destruct (triggers e (now s) (SigTimer d)). }
  rewrite Htimer. destruct (triggers e (now s) (SigTimer d)) as [a|];
    cbn [fst snd is_decided].
  { rewrite race_decided with (r := Rejected TimedOut) by reflexivity.
    split; [reflexivity | discriminate]. }
  assert (Hw : is_decided w = false).
  { destruct w; simpl in pending_w; try discriminate; reflexivity. }
  rewrite deliver_until_cons, deliver_Race, bind_run, deliver_until_cons, deliver_w.
  destruct (hit e s) as [v|]; cbn [fst snd is_decided].
  { rewrite (race_decided _ (Resolved v)) by reflexivity. cbn [fst snd is_decided].
    rewrite (race_decided _ (Resolved v)) by reflexivity.
    split; [reflexivity | discriminate]. }
  rewrite Hw. rewrite deliver_until_cons, deliver_AndThen.
  assert (Hd : deliver e (Listening cd (Destroying instance)
                            (Promise.on_firing cd (fun _ => ret true))) s =
               match triggers e (now s) (Destroying instance) with
               | Some a => (Resolved a, snd (Disconnect cd s))
               | None => (Listening cd (Destroying instance)
                            (Promise.on_firing cd (fun _ => ret true)), s)
               end).
  { rewrite deliver_signal_wait by (intros ? ?; reflexivity). rewrite Hcd.
    unfold accepted. now destruct (triggers e (now s) (Destroying instance)). }
  rewrite Hd. destruct (triggers e (now s) (Destroying instance)) as [a|];
    cbn [fst snd is_decided Promise.andThen Promise.reject ret].
  - rewrite (race_decided [w; Rejected Destroyed] (Rejected Destroyed)).
    2:{ destruct w; simpl in pending_w; try discriminate; reflexivity. }
    cbn [fst snd is_decided].
    rewrite (race_decided _ (Rejected Destroyed)) by reflexivity.
    split; [reflexivity | discriminate].
  - rewrite (race_pending [w; _]).
    2:{ destruct w; simpl in pending_w; try discriminate; reflexivity. }
    cbn [fst snd is_decided]. rewrite !deliver_until_nil. cbn [fst snd].
    rewrite race_pending by reflexivity. split; reflexivity.
Qed.

Lemma guard_run_pending cd ct instance d evs : forall s,
  is_connected ct s = true -> is_connected cd s = true ->
  let G := guard w cd ct instance d in
  is_pending (fst (run evs (G, s))) = true ->
  fst (run evs (G, s)) = G /\ connections (snd (run evs (G, s))) = connections s.
Proof.
  induction evs as [|e evs IH]; intros s Hct Hcd G Hp; [split; reflexivity|].
  rewrite run_cons in *. unfold step in *. cbn [fst snd] in *.
  set (s1 := run_callbacks e (host_update e s)) in *.
  assert (Hc : connections s1 = connections s).
  { unfold s1. now rewrite connections_run_callbacks, connections_host_update. }
  assert (Hct1 : is_connected ct s1 = true) by now rewrite (is_connected_same s s1).
  assert (Hcd1 : is_connected cd s1 = true) by now rewrite (is_connected_same s s1).
  destruct (guard_deliver cd ct instance d e s1 Hct1 Hcd1) as [_ Hsame].
  fold G in Hsame.
  destruct (is_pending (fst (deliver e G s1))) eqn:E.
  - rewrite (Hsame eq_refl) in *. destruct (IH s1 Hct1 Hcd1 Hp) as [H1 H2].
    split; [exact H1 | rewrite <- Hc; exact H2].
  - exfalso. unfold is_pending in E. apply negb_false_iff in E.
    pose proof (run_settled evs _ (snd (deliver e G s1)) E) as Hr.
    rewrite <- surjective_pairing in Hr. rewrite Hr in Hp.
    unfold is_pending in Hp. rewrite E in Hp. discriminate.
Qed.

Lemma guard_step cd ct instance d s0 evs e :
  is_connected ct s0 = true -> is_connected cd s0 = true ->
  let G := guard w cd ct instance d in
  let st := run evs (G, s0) in
  is_pending (fst st) = true ->
  let s1 := run_callbacks e (host_update e (snd st)) in
  fst (step e st) =
    match triggers e (now s1) (SigTimer d), hit e s1,
          triggers e (now s1) (Destroying instance) with
    | Some _, _, _ => Rejected TimedOut
    | None, Some v, _ => Resolved v
    | None, None, Some _ => Rejected Destroyed
    | None, None, None => fst st
    end /\
  connections s1 = connections s0.
Proof.
  intros Hct Hcd G st Hp s1.
  destruct (guard_run_pending cd ct instance d evs s0 Hct Hcd Hp) as [HG Hc].
  fold G in HG, Hc. fold st in HG, Hc.
  assert (Hc1 : connections s1 = connections s0).
  { unfold s1. now rewrite connections_run_callbacks, connections_host_update. }
  split; [|exact Hc1].
  unfold step. fold s1. rewrite HG.
  apply (guard_deliver cd ct instance d e s1).
  - now rewrite (is_connected_same s0 s1).
  - now rewrite (is_connected_same s0 s1).
Qed.

(** An event that leaves the wait pending runs none of its callbacks. *)
Lemma guard_still cd ct instance d s0 evs e :
  is_connected ct s0 = true -> is_connected cd s0 = true ->
  let G := guard w cd ct instance d in
  let st := run evs (G, s0) in
  is_pending (fst st) = true ->
  let s1 := run_callbacks e (host_update e (snd st)) in
  is_pending (fst (step e st)) = true ->
  step e st = (fst st, s1).
Proof.
  intros Hct Hcd G st Hp s1.
  destruct (guard_run_pending cd ct instance d evs s0 Hct Hcd Hp) as [HG Hc].
  fold G in HG, Hc. fold st in HG, Hc.
  assert (Hc1 : connections s1 = connections s0).
  { unfold s1. now rewrite connections_run_callbacks, connections_host_update. }
  unfold step. fold s1. rewrite HG.
  apply (guard_deliver cd ct instance d e s1).
  - now rewrite (is_connected_same s0 s1).
  - now rewrite (is_connected_same s0 s1).
Qed.

End Guard.

Lemma wait_on_signal_eq instance src predicate seconds s :
  let c := List.length (connections s) in
  (added <- Promise.fromEvent src predicate ;;
   watched <- watchDestroying instance added ;;
   Promise.timeout watched seconds) s =
  (guard (Listening c src (Promise.on_firing c predicate)) (S c) (S (S c)) instance
     (now s + Promise.delay_time seconds),
   set_connections
     (connections s ++ [mkConnection src PromiseListener true;
                        mkConnection (Destroying instance) PromiseListener true;
                        mkConnection (SigTimer (now s + Promise.delay_time seconds)) PromiseListener true]) s).
Proof.
  cbv zeta. rewrite bind_run.
  change (Promise.fromEvent src predicate s)
    with (Listening (List.length (connections s)) src
            (Promise.on_firing (List.length (connections s)) predicate),
          snd (Connect src PromiseListener s)).
  cbn [fst snd]. rewrite guarded_eq by reflexivity.
  cbn. rewrite !length_app. cbn. rewrite !Nat.add_1_r, <- !app_assoc. reflexivity.
Qed.

Lemma property_wait_eq instance src predicate k seconds s :
  let c := List.length (connections s) in
  (changed <- Promise.fromEvent src predicate ;;
   read <- Promise.andThen changed k ;;
   watched <- watchDestroying instance read ;;
   Promise.timeout watched seconds) s =
  (guard (AndThen (Listening c src (Promise.on_firing c predicate)) k) (S c) (S (S c))
     instance (now s + Promise.delay_time seconds),
   set_connections
     (connections s ++ [mkConnection src PromiseListener true;
                        mkConnection (Destroying instance) PromiseListener true;
                        mkConnection (SigTimer (now s + Promise.delay_time seconds)) PromiseListener true]) s).
Proof.
  cbv zeta. rewrite bind_run.
  change (Promise.fromEvent src predicate s)
    with (Listening (List.length (connections s)) src
            (Promise.on_firing (List.length (connections s)) predicate),
          snd (Connect src PromiseListener s)).
  cbn [fst snd]. rewrite bind_run. cbn [Promise.andThen ret fst snd].
  rewrite guarded_eq by reflexivity.
  cbn. rewrite !length_app. cbn. rewrite !Nat.add_1_r, <- !app_assoc. reflexivity.
Qed.

Lemma is_connected_made l a b c s :
  connections s = l ++ [a; b; c] ->
  Connected a = true -> Connected b = true -> Connected c = true ->
  is_connected (List.length l) s = true /\
  is_connected (S (List.length l)) s = true /\
  is_connected (S (S (List.length l))) s = true.
Proof.
  intros E Ha Hb Hc. unfold is_connected. rewrite E.
  rewrite !nth_error_app2 by lia. rewrite Nat.sub_diag.
  replace (S (List.length l) - List.length l)%nat with 1%nat by lia.
  replace (S (S (List.length l)) - List.length l)%nat with 2%nat by lia.
  simpl. auto.
Qed.

(** One event on a pending wait on a signal: the timer, the signal and the
    instance's [Destroying] are looked at in this order. *)
Lemma signal_wait_step instance src predicate seconds s evs e :
  pure predicate ->
  let st := run evs ((added <- Promise.fromEvent src predicate ;;
                      watched <- watchDestroying instance added ;;
                      Promise.timeout watched seconds) s) in
  is_pending (fst st) = true ->
  let s1 := run_callbacks e (host_update e (snd st)) in
  fst (step e st) =
    match triggers e (now s1) (SigTimer (now s + Promise.delay_time seconds)), accepted src predicate e s1,
          triggers e (now s1) (Destroying instance) with
    | Some _, _, _ => Rejected TimedOut
    | None, Some v, _ => Resolved v
    | None, None, Some _ => Rejected Destroyed
    | None, None, None => fst st
    end.
Proof.
  intros Hp. rewrite wait_on_signal_eq. cbv zeta.
  set (c := List.length (connections s)).
  set (s0 := set_connections _ s).
  intros Hpend.
  destruct (is_connected_made (connections s) _ _ _ s0 eq_refl eq_refl eq_refl eq_refl)
    as (Hc & Hcd & Hct). fold c in Hc, Hcd, Hct.
  destruct (guard_step (Listening c src (Promise.on_firing c predicate))
              (fun e s => if is_connected c s then accepted src predicate e s else None)
              (fun s => snd (Disconnect c s))
              (fun e s => deliver_signal_wait e c src predicate s Hp)
              eq_refl (S c) (S (S c)) instance (now s + Promise.delay_time seconds) s0 evs e Hct Hcd Hpend)
    as [H Hcon].
  rewrite H. rewrite (is_connected_same s0 _ c Hcon), Hc. reflexivity.
Qed.

(** The same of a wait on a property: the callback chained on the listener
    reads the property. *)
Lemma property_wait_step instance src predicate (read : env -> value) seconds s evs e :
  pure predicate ->
  (forall c s1, read (snd (Disconnect c s1)) = read s1) ->
  let k := fun (_ : value) (s1 : env) => (Resolved (read s1), s1) in
  let st := run evs ((changed <- Promise.fromEvent src predicate ;;
                      read <- Promise.andThen changed k ;;
                      watched <- watchDestroying instance read ;;
                      Promise.timeout watched seconds) s) in
  is_pending (fst st) = true ->
  let s1 := run_callbacks e (host_update e (snd st)) in
  fst (step e st) =
    match triggers e (now s1) (SigTimer (now s + Promise.delay_time seconds)), accepted src predicate e s1,
          triggers e (now s1) (Destroying instance) with
    | Some _, _, _ => Rejected TimedOut
    | None, Some _, _ => Resolved (read s1)
    | None, None, Some _ => Rejected Destroyed
    | None, None, None => fst st
    end.
Proof.
  intros Hp Hread k. rewrite property_wait_eq. cbv zeta.
  set (c := List.length (connections s)) in *.
  set (s0 := set_connections _ s).
  intros Hpend.
  destruct (is_connected_made (connections s) _ _ _ s0 eq_refl eq_refl eq_refl eq_refl)
    as (Hc & Hcd & Hct). fold c in Hc, Hcd, Hct.
  assert (Hw : forall e s,
             deliver e (AndThen (Listening c src (Promise.on_firing c predicate)) k) s =
             match (if is_connected c s
                    then option_map (fun _ => read s) (accepted src predicate e s)
                    else None) with
             | Some v => (Resolved v, snd (Disconnect c s))
             | None => (AndThen (Listening c src (Promise.on_firing c predicate)) k, s)
             end).
  { intros e0 s2. rewrite deliver_AndThen, deliver_signal_wait by exact Hp.
    destruct (is_connected c s2); [|reflexivity].
    destruct (accepted src predicate e0 s2); [|reflexivity].
    cbn [fst snd Promise.andThen option_map]. unfold k.
    now rewrite Hread. }
  destruct (guard_step (AndThen (Listening c src (Promise.on_firing c predicate)) k)
              _ _ Hw eq_refl (S c) (S (S c)) instance (now s + Promise.delay_time seconds) s0 evs e
              Hct Hcd Hpend) as [H Hcon].
  rewrite H. rewrite (is_connected_same s0 _ c Hcon), Hc.
  destruct (triggers e _ (SigTimer (now s + Promise.delay_time seconds))); [reflexivity|].
  destruct (accepted src predicate e _); reflexivity.
Qed.

Lemma signal_wait_still instance src predicate seconds s evs e :
  pure predicate ->
  let st := run evs ((added <- Promise.fromEvent src predicate ;;
                      watched <- watchDestroying instance added ;;
                      Promise.timeout watched seconds) s) in
  is_pending (fst st) = true ->
  is_pending (fst (step e st)) = true ->
  step e st = (fst st, run_callbacks e (host_update e (snd st))).
Proof.
  intros Hp. rewrite wait_on_signal_eq. cbv zeta.
  set (c := List.length (connections s)).
  set (s0 := set_connections _ s).
  intros Hpend.
  destruct (is_connected_made (connections s) _ _ _ s0 eq_refl eq_refl eq_refl eq_refl)
    as (Hc & Hcd & Hct). fold c in Hc, Hcd, Hct.
  exact (guard_still (Listening c src (Promise.on_firing c predicate))
           (fun e s => if is_connected c s then accepted src predicate e s else None)
           (fun s => snd (Disconnect c s))
           (fun e s => deliver_signal_wait e c src predicate s Hp)
           eq_refl (S c) (S (S c)) instance (now s + Promise.delay_time seconds) s0 evs e
           Hct Hcd Hpend).
Qed.

Lemma property_wait_still instance src predicate (read : env -> value) seconds s evs e :
  pure predicate ->
  (forall c s1, read (snd (Disconnect c s1)) = read s1) ->
  let k := fun (_ : value) (s1 : env) => (Resolved (read s1), s1) in
  let st := run evs ((changed <- Promise.fromEvent src predicate ;;
                      read <- Promise.andThen changed k ;;
                      watched <- watchDestroying instance read ;;
                      Promise.timeout watched seconds) s) in
  is_pending (fst st) = true ->
  is_pending (fst (step e st)) = true ->
  step e st = (fst st, run_callbacks e (host_update e (snd st))).
Proof.
  intros Hp Hread k. rewrite property_wait_eq. cbv zeta.
  set (c := List.length (connections s)) in *.
  set (s0 := set_connections _ s).
  intros Hpend.
  destruct (is_connected_made (connections s) _ _ _ s0 eq_refl eq_refl eq_refl eq_refl)
    as (Hc & Hcd & Hct). fold c in Hc, Hcd, Hct.
  assert (Hw : forall e s,
             deliver e (AndThen (Listening c src (Promise.on_firing c predicate)) k) s =
             match (if is_connected c s
                    then option_map (fun _ => read s) (accepted src predicate e s)
                    else None) with
             | Some v => (Resolved v, snd (Disconnect c s))
             | None => (AndThen (Listening c src (Promise.on_firing c predicate)) k, s)
             end).
  { intros e0 s2. rewrite deliver_AndThen, deliver_signal_wait by exact Hp.
    destruct (is_connected c s2); [|reflexivity].
    destruct (accepted src predicate e0 s2); [|reflexivity].
    cbn [fst snd Promise.andThen option_map]. unfold k.
    now rewrite Hread. }
  exact (guard_still (AndThen (Listening c src (Promise.on_firing c predicate)) k)
           _ _ Hw eq_refl (S c) (S (S c)) instance (now s + Promise.delay_time seconds)
           s0 evs e Hct Hcd Hpend).
Qed.

(** ** The signal of each wait *)

Lemma pending_run evs st : is_pending (fst (run evs st)) = true -> is_pending (fst st) = true.
Proof.
  intros H. destruct (is_pending (fst st)) eqn:E; [reflexivity|].
  unfold is_pending in E. apply negb_false_iff in E.
  destruct st as [p s]. cbn [fst] in E. rewrite (run_settled evs p s E) in H.
  unfold is_pending in H. rewrite E in H. discriminate.
Qed.

(** X1.  While the promise of [waitForChild] is pending, it is resolved
    by an instance of the awaited name that the parent's [ChildAdded]
    passes, or its [DescendantAdded] if [recursive] is set, and left as it
    is by an instance of another name and by the other of the two
    signals. *)
Theorem waitForChild_is_resolved_by_the_named_child
    (parent : Instance) (childName : string) (recursive : option bool)
    (timeout : option Q) (s : env) (evs : list event) (child : Instance) :
  let st := run evs (waitForChild parent childName recursive timeout s) in
  is_pending (fst st) = true ->
  fst (step (EChildAdded (uid parent) child) st) =
    (if negb (default false recursive) && String.eqb (Name child) childName
     then Resolved (VInstance child) else fst st) /\
  fst (step (EDescendantAdded (uid parent) child) st) =
    (if default false recursive && String.eqb (Name child) childName
     then Resolved (VInstance child) else fst st).
Proof.
  cbv zeta. intros Hp. pose proof (pending_run _ _ Hp) as H0.
  unfold waitForChild in *.
  destruct (FindFirstChild parent childName (default false recursive)); [discriminate|].
  clear H0.
  split.
  - rewrite (signal_wait_step parent _ _ _ s evs _ (pure_on_instance _) Hp).
    unfold accepted. destruct (default false recursive); cbn; [reflexivity|].
    rewrite Nat.eqb_refl. cbn. now destruct (String.eqb (Name child) childName).
  - rewrite (signal_wait_step parent _ _ _ s evs _ (pure_on_instance _) Hp).
    unfold accepted. destruct (default false recursive); cbn; [|reflexivity].
    rewrite Nat.eqb_refl. cbn. now destruct (String.eqb (Name child) childName).
Qed.

Lemma waitForChild_is_resolved_by_the_named_child_witness :
  let st := run [EElapse 30] (waitForChild vehicle "RightWheel" None None (fresh 0)) in
  fst (step (EChildAdded (uid vehicle) RightWheel) st) =
    (if negb (default false None) && String.eqb (Name RightWheel) "RightWheel"
     then Resolved (VInstance RightWheel) else fst st) /\
  fst (step (EDescendantAdded (uid vehicle) RightWheel) st) =
    (if default false None && String.eqb (Name RightWheel) "RightWheel"
     then Resolved (VInstance RightWheel) else fst st).
Proof.
  cbv zeta.
  apply (waitForChild_is_resolved_by_the_named_child vehicle "RightWheel" None None
           (fresh 0) [EElapse 30] RightWheel).
  reflexivity.
Defined.

(** X2.  While the promise of [waitForChildWhichIsA] is pending, an
    instance that the parent's [ChildAdded] passes resolves it if the
    instance is of the awaited class or of one that inherits from it, and
    leaves it as it is otherwise. *)
Theorem waitForChildWhichIsA_is_resolved_by_the_child_of_the_superclass
    (parent : Instance) (className : string) (recursive : option bool)
    (timeout : option Q) (s : env) (evs : list event) (child : Instance) :
  let st := run evs (waitForChildWhichIsA parent className recursive timeout s) in
  is_pending (fst st) = true ->
  fst (step (EChildAdded (uid parent) child) st) =
    (if IsA child className then Resolved (VInstance child) else fst st).
Proof.
  cbv zeta. intros Hp. pose proof (pending_run _ _ Hp) as H0.
  unfold waitForChildWhichIsA in *.
  destruct (FindFirstChildWhichIsA parent className (default false recursive));
    [discriminate|].
  clear H0.
  rewrite (signal_wait_step parent _ _ _ s evs _ (pure_on_instance _) Hp).
  unfold accepted. cbn. rewrite Nat.eqb_refl. cbn. now destruct (IsA child className).
Qed.

Lemma waitForChildWhichIsA_is_resolved_by_the_child_of_the_superclass_witness :
  let st := run [EElapse 30]
              (waitForChildWhichIsA character "BasePart" None None (fresh 0)) in
  fst (step (EChildAdded (uid character) Head) st) =
    (if IsA Head "BasePart" then Resolved (VInstance Head) else fst st).
Proof.
  cbv zeta.
  apply (waitForChildWhichIsA_is_resolved_by_the_child_of_the_superclass
           character "BasePart" None None (fresh 0) [EElapse 30] Head).
  reflexivity.
Defined.

(** X3.  While the promise of [waitForChildOfClass] is pending, an
    instance that the parent's [ChildAdded] passes resolves it if its class
    is the awaited class itself, and leaves it as it is otherwise, be it of
    a class that inherits from the awaited one. *)
Theorem waitForChildOfClass_is_resolved_by_the_child_of_the_exact_class
    (parent : Instance) (className : string) (timeout : option Q)
    (s : env) (evs : list event) (child : Instance) :
  let st := run evs (waitForChildOfClass parent className timeout s) in
  is_pending (fst st) = true ->
  fst (step (EChildAdded (uid parent) child) st) =
    (if String.eqb (ClassName child) className then Resolved (VInstance child) else fst st).
Proof.
  cbv zeta. intros Hp. pose proof (pending_run _ _ Hp) as H0.
  unfold waitForChildOfClass in *.
  destruct (FindFirstChildOfClass parent className); [discriminate|].
  clear H0.
  rewrite (signal_wait_step parent _ _ _ s evs _ (pure_on_instance _) Hp).
  unfold accepted. cbn. rewrite Nat.eqb_refl. cbn.
  now destruct (String.eqb (ClassName child) className).
Qed.

Lemma waitForChildOfClass_is_resolved_by_the_child_of_the_exact_class_witness :
  let st := run [EElapse 30] (waitForChildOfClass character "BasePart" None (fresh 0)) in
  fst (step (EChildAdded (uid character) Head) st) =
    (if String.eqb (ClassName Head) "BasePart" then Resolved (VInstance Head) else fst st).
Proof.
  cbv zeta.
  apply (waitForChildOfClass_is_resolved_by_the_child_of_the_exact_class
           character "BasePart" None (fresh 0) [EElapse 30] Head).
  reflexivity.
Defined.

(** A part is a [BasePart] for [waitForChildWhichIsA] and not for
    [waitForChildOfClass]. *)
Example a_part_is_a_BasePart_but_not_of_that_class :
  let added := [EChildAdded (uid character) Head] in
  outcome_of (fst (run added (waitForChildWhichIsA character "BasePart" None None (fresh 0))))
    = Fulfilled (VInstance Head) /\
  outcome_of (fst (run added (waitForChildOfClass character "BasePart" None (fresh 0))))
    = Pending /\
  outcome_of (fst (run added (waitForChildOfClass character "Part" None (fresh 0))))
    = Fulfilled (VInstance Head).
Proof. cbv zeta. repeat split; reflexivity. Qed.

Lemma primaryPart_host m part s :
  primaryPart (run_callbacks (ESetPrimaryPart m part)
                 (host_update (ESetPrimaryPart m part) s)) m = part.
Proof.
  unfold run_callbacks. destruct (existsb _ _); simpl; now rewrite Nat.eqb_refl.
Qed.

Lemma objectValue_host h v s :
  objectValue (run_callbacks (ESetValue h v) (host_update (ESetValue h v) s)) h = v.
Proof.
  unfold run_callbacks. destruct (existsb _ _); simpl; now rewrite Nat.eqb_refl.
Qed.

(** X4.  While the promise of [waitForPrimaryPart] is pending, setting
    the model's [PrimaryPart] to a part resolves it with that part, and
    setting it to nothing leaves it as it is. *)
Theorem waitForPrimaryPart_is_resolved_by_the_part_set
    (model : Instance) (timeout : option Q) (s : env) (evs : list event)
    (part : option Instance) :
  let st := run evs (waitForPrimaryPart model timeout s) in
  is_pending (fst st) = true ->
  fst (step (ESetPrimaryPart (uid model) part) st) =
    match part with
    | Some primary => Resolved (VInstance primary)
    | None => fst st
    end.
Proof.
  cbv zeta. intros Hp. pose proof (pending_run _ _ Hp) as H0.
  unfold waitForPrimaryPart in *. rewrite bind_run in *.
  cbn [PrimaryPart gets fst snd] in *.
  destruct (primaryPart s (uid model)); [discriminate|].
  clear H0.
  rewrite (property_wait_step model _ _
             (fun s1 => of_option (primaryPart s1 (uid model))) _ s evs _).
  - set (st := run evs _).
    unfold accepted, PrimaryPart, GetPropertyChangedSignal, Destroying, bind, gets, ret.
    cbn [triggers fst snd]. rewrite Nat.eqb_refl, primaryPart_host.
    now destruct part.
  - intros args s1. reflexivity.
  - intros c s1. reflexivity.
  - exact Hp.
Qed.

Lemma waitForPrimaryPart_is_resolved_by_the_part_set_witness :
  let st := run [EElapse 30] (waitForPrimaryPart character None (fresh 0)) in
  fst (step (ESetPrimaryPart (uid character) (Some Torso)) st) = Resolved (VInstance Torso).
Proof.
  cbv zeta.
  apply (waitForPrimaryPart_is_resolved_by_the_part_set character None (fresh 0)
           [EElapse 30] (Some Torso)).
  reflexivity.
Defined.

(** X5.  While the promise of [waitForObjectValue] is pending, setting
    the [Value] to an instance resolves it with that instance, and setting
    it to nothing leaves it as it is. *)
Theorem waitForObjectValue_is_resolved_by_the_value_set
    (holder : Instance) (timeout : option Q) (s : env) (evs : list event)
    (v : option Instance) :
  let st := run evs (waitForObjectValue holder timeout s) in
  is_pending (fst st) = true ->
  fst (step (ESetValue (uid holder) v) st) =
    match v with
    | Some i => Resolved (VInstance i)
    | None => fst st
    end.
Proof.
  cbv zeta. intros Hp. pose proof (pending_run _ _ Hp) as H0.
  unfold waitForObjectValue in *. rewrite bind_run in *.
  cbn [Value gets fst snd] in *.
  destruct (objectValue s (uid holder)); [discriminate|].
  clear H0.
  rewrite (property_wait_step holder _ _
             (fun s1 => of_option (objectValue s1 (uid holder))) _ s evs _).
  - set (st := run evs _).
    unfold accepted, Changed, Destroying, ret.
    cbn [triggers fst snd]. rewrite Nat.eqb_refl, objectValue_host.
    now destruct v.
  - intros args s1. reflexivity.
  - intros c s1. reflexivity.
  - exact Hp.
Qed.

Lemma waitForObjectValue_is_resolved_by_the_value_set_witness :
  let st := run [EElapse 30] (waitForObjectValue Shelf None (fresh 0)) in
  fst (step (ESetValue (uid Shelf) (Some Head)) st) = Resolved (VInstance Head).
Proof.
  cbv zeta.
  apply (waitForObjectValue_is_resolved_by_the_value_set Shelf None (fresh 0)
           [EElapse 30] (Some Head)).
  reflexivity.
Defined.

(** ** The children of a batch *)

Lemma tidy_guard w cd ct instance d : tidy w -> tidy (guard w cd ct instance d).
Proof.
  intros Hw. constructor. constructor; [apply tidy_timer|]. constructor; [|constructor].
  constructor. constructor; [exact Hw|]. constructor; [|constructor].
  constructor; [apply tidy_on_firing; intros args s1; reflexivity|].
  intros v s1. split; [reflexivity|]. exists []. simpl. now rewrite app_nil_r.
Qed.

Lemma tidy_child_wait c parent recursive name d :
  tidy (child_wait c parent recursive name d).
Proof.
  apply tidy_watch_child, tidy_guard, tidy_on_firing, pure_on_instance.
Qed.

Lemma ids_child_wait c parent recursive name d :
  ids (child_wait c parent recursive name d) = [S (S c); c; S c].
Proof. reflexivity. Qed.

Lemma accepted_on_instance src f e s v :
  accepted src (on_instance f) e s = Some v -> exists i, v = VInstance i.
Proof.
  unfold accepted. destruct (triggers e (now s) src) as [args|]; [|discriminate].
  destruct args; simpl; try discriminate.
  destruct (f i); [|discriminate]. intros H. inversion H. eauto.
Qed.

(** One event on the wait of a child. *)
Lemma child_wait_deliver c parent recursive name d e s :
  standing c s ->
  let q := child_wait c parent recursive name d in
  let src := if recursive then DescendantAdded parent else ChildAdded parent in
  fst (deliver e q s) =
    match triggers e (now s) (SigTimer d),
          accepted src (on_instance (fun i => String.eqb (Name i) name)) e s,
          triggers e (now s) (Destroying parent) with
    | Some _, _, _ => Rejected TimedOut
    | None, Some v, _ => Resolved v
    | None, None, Some _ => Rejected Destroyed
    | None, None, None => q
    end /\
  (is_pending (fst (deliver e q s)) = true -> deliver e q s = (q, s)).
Proof.
  intros (Hc & Hcd & Hct). cbv zeta. unfold child_wait. rewrite deliver_AndThen.
  set (src := if recursive then DescendantAdded parent else ChildAdded parent).
  set (pr := on_instance (fun i => String.eqb (Name i) name)).
  destruct (guard_deliver (Listening c src (Promise.on_firing c pr))
              (fun e s => if is_connected c s then accepted src pr e s else None)
              (fun s => snd (Disconnect c s))
              (fun e s => deliver_signal_wait e c src pr s (pure_on_instance _))
              eq_refl (S c) (S (S c)) parent d e s Hct Hcd) as [H1 H2].
  rewrite Hc in H1.
  set (G := guard (Listening c src (Promise.on_firing c pr)) (S c) (S (S c)) parent d) in *.
  destruct (triggers e (now s) (SigTimer d)) as [a|].
  { rewrite H1. simpl. split; [reflexivity | discriminate]. }
  destruct (accepted src pr e s) as [v|] eqn:Ea.
  { rewrite H1. destruct (accepted_on_instance _ _ _ _ _ Ea) as (i & ->).
    simpl. split; [reflexivity | discriminate]. }
  destruct (triggers e (now s) (Destroying parent)) as [a|].
  { rewrite H1. simpl. split; [reflexivity | discriminate]. }
  rewrite (H2 ltac:(rewrite H1; reflexivity)). simpl. split; reflexivity.
Qed.

Lemma standing_frame own s s' c :
  frame own s s' -> ~ In c own -> ~ In (S c) own -> ~ In (S (S c)) own ->
  standing c s -> standing c s'.
Proof.
  intros Hf H1 H2 H3 (Ha & Hb & Hc).
  repeat split; eapply is_connected_frame; eauto.
Qed.

Lemma waits_for_frame parent recursive d own s s' name q :
  frame own s s' -> (forall i, In i (ids q) -> ~ In i own) ->
  waits_for parent recursive d s name q -> waits_for parent recursive d s' name q.
Proof.
  intros Hf Hd [Hr | (c & -> & Hs)]; [now left | right].
  exists c. split; [reflexivity|].
  rewrite ids_child_wait in Hd.
  eapply standing_frame; eauto; apply Hd; simpl; auto.
Qed.

Lemma Forall2_waits_for_frame parent recursive d own s s' names ps :
  frame own s s' -> (forall i, In i (flat_map ids ps) -> ~ In i own) ->
  Forall2 (waits_for parent recursive d s) names ps ->
  Forall2 (waits_for parent recursive d s') names ps.
Proof.
  intros Hf Hd H. induction H as [|name q names ps Hq Hr IH]; constructor.
  - eapply waits_for_frame; eauto. intros i Hi. apply Hd. simpl. apply in_or_app. now left.
  - apply IH. intros i Hi. apply Hd. simpl. apply in_or_app. now right.
Qed.

Lemma waits_for_tidy parent recursive d s name q :
  waits_for parent recursive d s name q -> tidy q.
Proof.
  intros [Hr | (c & -> & _)]; [|apply tidy_child_wait].
  apply tidy_settled. now destruct q.
Qed.

Lemma Forall2_waits_for_tidy parent recursive d s names ps :
  Forall2 (waits_for parent recursive d s) names ps -> Forall tidy ps.
Proof.
  induction 1; constructor; auto. eapply waits_for_tidy; eauto.
Qed.

(** The loop of [Promise.all] over the children keeps each child resolved
    or waiting, up to the first that is rejected. *)
Lemma deliver_until_waits parent recursive d e names : forall ps s,
  Forall2 (waits_for parent recursive d s) names ps ->
  NoDup (flat_map ids ps) ->
  let r := deliver_until is_rejected e ps s in
  Forall2 (fun name q => is_rejected q = true \/ waits_for parent recursive d (snd r) name q)
          names (fst r) /\
  NoDup (flat_map ids (fst r)).
Proof.
  induction names as [|name names IH]; intros ps s H Hn;
    inversion H as [|? q ? r Hq Hr]; subst; cbv zeta.
  - simpl. split; constructor.
  - pose proof (Forall2_waits_for_tidy _ _ _ _ _ _ H) as Ht.
    split.
    2:{ destruct (deliver_until_orderly is_rejected e (q :: r)) with (s := s)
          as (_ & _ & W); auto.
        { apply Forall_forall. intros p _. apply deliver_orderly. }
        now apply W. }
    inversion Ht as [|? ? Tq Tr]; subst. simpl in Hn.
    pose proof (NoDup_app_remove_l _ _ Hn) as Nr.
    pose proof (NoDup_app_disjoint _ _ Hn) as Dqr.
    destruct (deliver_orderly e q s Tq) as (_ & F1 & W1).
    assert (Hr1 : Forall2 (waits_for parent recursive d (snd (deliver e q s))) names r).
    { eapply Forall2_waits_for_frame; eauto. intros i Hi Hi'. apply (Dqr i); auto. }
    assert (Hq1 : is_rejected (fst (deliver e q s)) = true \/
                  waits_for parent recursive d (snd (deliver e q s)) name
                    (fst (deliver e q s))).
    { destruct Hq as [Hres | (c & -> & Hs)].
      - right. left. rewrite deliver_settled; [exact Hres | now destruct q].
      - destruct (child_wait_deliver c parent recursive name d e s Hs) as [H1 H2].
        destruct (is_pending (fst (deliver e (child_wait c parent recursive name d) s)))
          eqn:Ep.
        + rewrite (H2 eq_refl). right. right. exists c. split; [reflexivity | exact Hs].
        + rewrite H1 in *.
          destruct (triggers e (now s) (SigTimer d)); [now left|].
          destruct (accepted _ _ e s); [right; now left|].
          destruct (triggers e (now s) (Destroying parent)); [now left | discriminate]. }
    rewrite deliver_until_cons.
    destruct (is_rejected (fst (deliver e q s))) eqn:Erej; cbn [fst snd].
    + constructor; [now left|].
      eapply Forall2_impl; [|exact Hr1]. intros a b Hab. now right.
    + destruct (IH r (snd (deliver e q s)) Hr1 Nr) as [H2 _].
      destruct (deliver_until_orderly is_rejected e r) with (s := snd (deliver e q s))
        as (_ & F2 & _); auto.
      { apply Forall_forall. intros p _. apply deliver_orderly. }
      constructor; [|exact H2].
      destruct Hq1 as [Hd | Hw]; [congruence | right].
      eapply waits_for_frame; eauto.
      intros i Hi Hi'. apply (Dqr i); auto. now apply W1.
Qed.

Lemma wait_and_watch_cases parent recursive timeout name s :
  let c := List.length (connections s) in
  wait_and_watch parent recursive timeout name s =
  match FindFirstChild parent name recursive with
  | Some child =>
      (Resolved (VInstance child),
       set_destroying (destroying s ++ [c])
         (set_connections (connections s ++ [watch true child]) s))
  | None =>
      (child_wait c parent recursive name (now s + Promise.delay_time timeout),
       set_connections
         (connections s ++
          [mkConnection (if recursive then DescendantAdded parent else ChildAdded parent)
             PromiseListener true;
           mkConnection (Destroying parent) PromiseListener true;
           mkConnection (SigTimer (now s + Promise.delay_time timeout)) PromiseListener true]) s)
  end.
Proof.
  cbv zeta. unfold wait_and_watch, waitForChild. cbn [default]. rewrite bind_run.
  destruct (FindFirstChild parent name recursive) as [child|].
  - reflexivity.
  - rewrite wait_on_signal_eq. reflexivity.
Qed.

Lemma children_wait parent recursive timeout names : forall s,
  let r := mapM (wait_and_watch parent recursive timeout) names s in
  Forall2 (waits_for parent recursive (now s + Promise.delay_time timeout) (snd r)) names (fst r).
Proof.
  induction names as [|name names IH]; intros s; cbv zeta; [constructor|].
  rewrite mapM_cons.
  destruct (wait_and_watch_armed parent recursive timeout name s)
    as (_ & _ & H3 & H4).
  pose proof (wait_and_watch_cases parent recursive timeout name s) as Hq.
  cbv zeta in Hq.
  set (q := fst (wait_and_watch parent recursive timeout name s)) in *.
  set (s1 := snd (wait_and_watch parent recursive timeout name s)) in *.
  specialize (IH s1). cbv zeta in IH. rewrite H4 in IH.
  destruct (children_armed parent recursive timeout names s1)
    as (_ & _ & _ & (more & C2) & _ & _).
  cbn [fst snd]. constructor; [|exact IH].
  assert (Hqs : waits_for parent recursive (now s + Promise.delay_time timeout) s1 name q).
  { unfold q, s1. rewrite Hq.
    destruct (FindFirstChild parent name recursive) as [child|]; [now left | right].
    eexists. split; [reflexivity|].
    cbn [fst snd]. unfold standing.
    apply (is_connected_made (connections s) _ _ _ (set_connections _ s) eq_refl);
      reflexivity. }
  eapply (waits_for_frame _ _ _ [] s1); eauto.
  eapply frame_app; eauto.
Qed.

Lemma all_pending ps s :
  is_pending (fst (Promise.all ps s)) = true ->
  Promise.all ps s = (All ps, s) /\ first_rejected ps = None /\ resolved_values ps = None.
Proof.
  unfold Promise.all. destruct (first_rejected ps) as [e|].
  - rewrite bind_run. discriminate.
  - destruct (resolved_values ps) as [vs|]; [discriminate|]. auto.
Qed.

Lemma waitForChildren_waiting parent names recursive timeout s :
  let r := waitForChildren parent names recursive timeout s in
  batch_waiting parent (default false recursive) (now s + Promise.delay_time (default DEFAULT_TIMEOUT timeout))
    names (snd r) (fst r).
Proof.
  cbv zeta. rewrite waitForChildren_eq, bind_run.
  set (s0 := set_destroyed false (set_destroying [] s)).
  pose proof (children_wait parent (default false recursive)
                (default DEFAULT_TIMEOUT timeout) names s0) as Hw.
  destruct (children_armed parent (default false recursive)
              (default DEFAULT_TIMEOUT timeout) names s0) as (_ & Hn & _).
  cbv zeta in Hw.
  set (ps := fst (mapM _ names s0)) in *. set (s1 := snd (mapM _ names s0)) in *.
  unfold finish. rewrite bind_run.
  destruct (is_pending (fst (Promise.all ps s1))) eqn:Ep.
  - destruct (all_pending ps s1 Ep) as (E & _ & Ev). rewrite E. simpl.
    right. exists ps. auto.
  - left. unfold is_pending in Ep. apply negb_false_iff in Ep.
    destruct (fst (Promise.all ps s1)); try discriminate; simpl;
      [apply settled_check_destroyed | reflexivity | reflexivity].
Qed.

Lemma Forall2_not_rejected {A} (R : A -> promise -> Prop) names ps :
  first_rejected ps = None ->
  Forall2 (fun name q => is_rejected q = true \/ R name q) names ps ->
  Forall2 R names ps.
Proof.
  intros E H. induction H as [|name q names ps Hq Hr IH]; constructor.
  - destruct Hq as [Hq | Hq]; [|exact Hq]. destruct q; discriminate.
  - apply IH. destruct q; simpl in E; auto; discriminate.
Qed.

Lemma deliver_batch_waiting parent recursive d names e ps s :
  Forall2 (waits_for parent recursive d s) names ps ->
  NoDup (flat_map ids ps) ->
  let r := deliver e (AndThen (All ps) check_destroyed) s in
  batch_waiting parent recursive d names (snd r) (fst r).
Proof.
  intros Hw Hn. cbv zeta. rewrite deliver_AndThen, deliver_All, bind_run.
  destruct (deliver_until_waits parent recursive d e names ps s Hw Hn) as [H1 H2].
  set (ps' := fst (deliver_until is_rejected e ps s)) in *.
  set (s1 := snd (deliver_until is_rejected e ps s)) in *.
  destruct (is_pending (fst (Promise.all ps' s1))) eqn:Ep.
  - destruct (all_pending ps' s1 Ep) as (E & Er & Ev). rewrite E. simpl.
    right. exists ps'. split; [reflexivity|]. split; [|auto].
    eapply Forall2_not_rejected; eauto.
  - left. unfold is_pending in Ep. apply negb_false_iff in Ep.
    destruct (fst (Promise.all ps' s1)); try discriminate; simpl;
      [apply settled_check_destroyed | reflexivity | reflexivity].
Qed.

Lemma waits_for_host parent recursive d e s names ps :
  Forall2 (waits_for parent recursive d s) names ps ->
  Forall2 (waits_for parent recursive d (run_callbacks e (host_update e s))) names ps.
Proof.
  apply Forall2_waits_for_frame with (own := []); [|auto].
  apply frame_same. now rewrite connections_run_callbacks, connections_host_update.
Qed.

Lemma run_batch_waiting parent recursive d names evs : forall p s,
  batch_waiting parent recursive d names s p ->
  batch_waiting parent recursive d names (snd (run evs (p, s))) (fst (run evs (p, s))).
Proof.
  induction evs as [|e evs IH]; intros p s H; [exact H|].
  rewrite run_cons.
  assert (H1 : batch_waiting parent recursive d names
                 (snd (step e (p, s))) (fst (step e (p, s)))).
  { destruct H as [Hs | (ps & -> & Hw & Hn & _)].
    - rewrite step_settled by exact Hs. now left.
    - unfold step. cbn [fst snd]. apply deliver_batch_waiting; [|exact Hn].
      now apply waits_for_host. }
  destruct (step e (p, s)) as [p1 s1]. now apply IH.
Qed.

(** An event that rejects the wait of any child rejects the batch. *)
Lemma first_wait_rejected parent recursive d e err s names ps :
  (forall c name, standing c s ->
     fst (deliver e (child_wait c parent recursive name d) s) = Rejected err) ->
  Forall2 (waits_for parent recursive d s) names ps ->
  resolved_values ps = None ->
  fst (deliver e (AndThen (All ps) check_destroyed) s) = Rejected err.
Proof.
  intros He Hw Hv.
  assert (E : first_rejected (fst (deliver_until is_rejected e ps s)) = Some err).
  { induction Hw as [|name q names ps Hq Hr IH]; [discriminate|].
    rewrite deliver_until_cons. destruct Hq as [Hres | (c & -> & Hs)].
    - destruct q; try discriminate. simpl. apply IH.
      simpl in Hv. destruct (resolved_values ps); [discriminate | reflexivity].
    - rewrite (He c name Hs). reflexivity. }
  rewrite deliver_AndThen, deliver_All, bind_run. unfold Promise.all.
  rewrite E, bind_run. reflexivity.
Qed.

Lemma batch_destroyed parent recursive d names s p :
  batch_waiting parent recursive d names s p -> is_pending p = true ->
  fst (step (EDestroying (uid parent)) (p, s)) = Rejected Destroyed.
Proof.
  intros [Hs | (ps & -> & Hw & Hn & Hv)] Hp.
  - unfold is_pending in Hp. rewrite Hs in Hp. discriminate.
  - unfold step. cbn [fst snd].
    apply (first_wait_rejected parent recursive d _ _ _ names); [| |exact Hv].
    + intros c name Hs.
      destruct (child_wait_deliver c parent recursive name d (EDestroying (uid parent)) _ Hs)
        as [H _].
      rewrite H. unfold accepted. destruct recursive; cbn; now rewrite Nat.eqb_refl.
    + now apply waits_for_host.
Qed.

(** ** One event on the promise of a call *)

Lemma perform_normally m s p s0 :
  normally m s = (Normal p, s0) -> m s = (p, s0).
Proof.
  unfold normally. rewrite bind_run. cbn [ret]. intros E. inversion E.
  now rewrite <- surjective_pairing.
Qed.

(** One event on the pending promise of a call on one signal: the timer,
    the signal and the [Destroying] of the instance, in this order. *)
Lemma single_wait_step c i s p s0 evs e :
  is_single c = true -> container c = Some i ->
  perform c s = (Normal p, s0) ->
  let st := run evs (p, s0) in
  is_pending (fst st) = true ->
  let s1 := run_callbacks e (host_update e (snd st)) in
  fst (step e st) =
    match triggers e (now s1) (SigTimer (now s + Promise.delay_time (timeout_of c))), answer c e s1,
          triggers e (now s1) (Destroying i) with
    | Some _, _, _ => Rejected TimedOut
    | None, Some v, _ => Resolved v
    | None, None, Some _ => Rejected Destroyed
    | None, None, None => fst st
    end.
Proof.
  intros Hsingle Hi E. cbv zeta. intros Hp. pose proof (pending_run _ _ Hp) as H0.
  destruct c as [parent childName recursive timeout|parent className recursive timeout
                |parent className timeout|parent names recursive timeout
                |model timeout|holder timeout|predicate timeout];
    try discriminate; simpl in Hi; inversion Hi; subst i; clear Hi Hsingle;
    cbn [perform] in E; apply perform_normally in E; rewrite <- E in *; clear E p s0;
    cbn [timeout_of answer].
  - unfold waitForChild in *.
    destruct (FindFirstChild parent childName (default false recursive)); [discriminate|].
    apply (signal_wait_step parent _ _ _ s evs e (pure_on_instance _) Hp).
  - unfold waitForChildWhichIsA in *.
    destruct (FindFirstChildWhichIsA parent className (default false recursive));
      [discriminate|].
    apply (signal_wait_step parent _ _ _ s evs e (pure_on_instance _) Hp).
  - unfold waitForChildOfClass in *.
    destruct (FindFirstChildOfClass parent className); [discriminate|].
    apply (signal_wait_step parent _ _ _ s evs e (pure_on_instance _) Hp).
  - unfold waitForPrimaryPart in *. rewrite bind_run in *.
    cbn [PrimaryPart gets fst snd] in *.
    destruct (primaryPart s (uid model)); [discriminate|].
    rewrite (property_wait_step model _ _
               (fun s1 => of_option (primaryPart s1 (uid model))) _ s evs e);
      [|intros args s1; reflexivity|intros c s1; reflexivity|exact Hp].
    destruct (triggers e _ (SigTimer _)); [reflexivity|].
    destruct (accepted _ _ e _); reflexivity.
  - unfold waitForObjectValue in *. rewrite bind_run in *.
    cbn [Value gets fst snd] in *.
    destruct (objectValue s (uid holder)); [discriminate|].
    rewrite (property_wait_step holder _ _
               (fun s1 => of_option (objectValue s1 (uid holder))) _ s evs e);
      [|intros args s1; reflexivity|intros c s1; reflexivity|exact Hp].
    destruct (triggers e _ (SigTimer _)); [reflexivity|].
    destruct (accepted _ _ e _); reflexivity.
Qed.

(** An event that leaves the promise of a wait on one signal pending runs
    none of its callbacks: the state is the one the host leaves. *)
Lemma single_wait_still c i s p s0 evs e :
  is_single c = true -> container c = Some i ->
  perform c s = (Normal p, s0) ->
  let st := run evs (p, s0) in
  is_pending (fst st) = true ->
  is_pending (fst (step e st)) = true ->
  step e st = (fst st, run_callbacks e (host_update e (snd st))).
Proof.
  intros Hsingle Hi E. cbv zeta. intros Hp. pose proof (pending_run _ _ Hp) as H0.
  destruct c as [parent childName recursive timeout|parent className recursive timeout
                |parent className timeout|parent names recursive timeout
                |model timeout|holder timeout|predicate timeout];
    try discriminate; simpl in Hi; inversion Hi; subst i; clear Hi Hsingle;
    cbn [perform] in E; apply perform_normally in E; rewrite <- E in *; clear E p s0.
  - unfold waitForChild in *.
    destruct (FindFirstChild parent childName (default false recursive)); [discriminate|].
    apply (signal_wait_still parent _ _ _ s evs e (pure_on_instance _) Hp).
  - unfold waitForChildWhichIsA in *.
    destruct (FindFirstChildWhichIsA parent className (default false recursive));
      [discriminate|].
    apply (signal_wait_still parent _ _ _ s evs e (pure_on_instance _) Hp).
  - unfold waitForChildOfClass in *.
    destruct (FindFirstChildOfClass parent className); [discriminate|].
    apply (signal_wait_still parent _ _ _ s evs e (pure_on_instance _) Hp).
  - unfold waitForPrimaryPart in *. rewrite bind_run in *.
    cbn [PrimaryPart gets fst snd] in *.
    destruct (primaryPart s (uid model)); [discriminate|].
    apply (property_wait_still model _ _
             (fun s1 => of_option (primaryPart s1 (uid model))) _ s evs e);
      [intros args s1; reflexivity|intros c s1; reflexivity|exact Hp].
  - unfold waitForObjectValue in *. rewrite bind_run in *.
    cbn [Value gets fst snd] in *.
    destruct (objectValue s (uid holder)); [discriminate|].
    apply (property_wait_still holder _ _
             (fun s1 => of_option (objectValue s1 (uid holder))) _ s evs e);
      [intros args s1; reflexivity|intros c s1; reflexivity|exact Hp].
Qed.

(** An event that moves the wait of no child leaves the batch as it is. *)
Lemma batch_unmoved parent recursive d e s names ps :
  (forall c name, standing c s ->
     is_pending (fst (deliver e (child_wait c parent recursive name d) s)) = true) ->
  Forall2 (waits_for parent recursive d s) names ps ->
  resolved_values ps = None ->
  deliver e (AndThen (All ps) check_destroyed) s = (AndThen (All ps) check_destroyed, s).
Proof.
  intros He Hw Hv.
  assert (E : deliver_until is_rejected e ps s = (ps, s) /\ first_rejected ps = None).
  { clear Hv. induction Hw as [|name q names ps Hq Hr [IH1 IH2]]; [split; reflexivity|].
    rewrite deliver_until_cons. destruct Hq as [Hres | (c & -> & Hs)].
    - destruct q; try discriminate. simpl. rewrite IH1. auto.
    - destruct (child_wait_deliver c parent recursive name d e s Hs) as [_ H].
      rewrite (H (He c name Hs)). simpl. rewrite IH1. auto. }
  destruct E as [E1 E2].
  rewrite deliver_AndThen, deliver_All, bind_run, E1. cbn [fst snd].
  unfold Promise.all. rewrite E2, Hv. reflexivity.
Qed.

Lemma perform_batch_waiting parent names recursive timeout s p s0 evs :
  perform (CallWaitForChildren parent names recursive timeout) s = (Normal p, s0) ->
  batch_waiting parent (default false recursive)
    (now s + Promise.delay_time (default DEFAULT_TIMEOUT timeout)) names
    (snd (run evs (p, s0))) (fst (run evs (p, s0))).
Proof.
  intros E. cbn [perform] in E. apply perform_normally in E.
  apply run_batch_waiting.
  pose proof (waitForChildren_waiting parent names recursive timeout s) as H.
  cbv zeta in H. rewrite E in H. exact H.
Qed.

Lemma perform_polling predicate timeout s p s0 evs :
  perform (CallWaitForCustom predicate timeout) s = (Normal p, s0) ->
  is_pending (fst (run evs (p, s0))) = true ->
  exists hb,
    fst (run evs (p, s0)) = polling predicate hb (S hb) (now s + Promise.delay_time (default DEFAULT_TIMEOUT timeout)) /\
    is_connected hb (snd (run evs (p, s0))) = true /\
    is_connected (S hb) (snd (run evs (p, s0))) = true.
Proof.
  cbn [perform]. intros E Hp. pose proof (pending_run _ _ Hp) as H0. cbn [fst] in H0.
  pose proof (waitForCustom_cases predicate timeout s) as H. rewrite E in H.
  cbn [fst snd] in H.
  destruct (predicate (calls s)) as [v|exn] eqn:Ep; [|discriminate].
  destruct (is_undefined v) eqn:U.
  2:{ inversion H; subst. discriminate. }
  apply is_undefined_true in U. subst v.
  pose proof (waitForCustom_pending predicate timeout s Ep) as Eq. cbv zeta in Eq.
  rewrite Eq in E. injection E as Ep' Es'. subst p s0.
  set (hb := List.length (connections s)) in *.
  set (s0 := set_connections _ _) in *.
  assert (Hhb : is_connected hb s0 = true /\ is_connected (S hb) s0 = true).
  { unfold s0, is_connected. cbn [connections set_connections set_calls].
    rewrite !nth_error_app2 by (fold hb; lia). fold hb. rewrite Nat.sub_diag.
    replace (S hb - hb)%nat with 1%nat by lia. split; reflexivity. }
  destruct Hhb as [Hhb Hct].
  destruct (polling_run predicate hb (S hb) (now s + Promise.delay_time (default DEFAULT_TIMEOUT timeout))
              (n_Sn hb) evs s0 Hhb Hct) as (_ & _ & H1 & H2 & H3).
  cbv zeta in H1, H2, H3. exists hb. rewrite H1, H2. auto.
Qed.

(** ** The instance of a wait is destroyed *)

(** X6.  While the promise of a call that is given an instance is
    pending, the [Destroying] of that instance (the parent, the model or
    the [ObjectValue]) rejects it with [Destroyed]; for [waitForChildren],
    whichever children it has found. *)
Theorem destroyed_instance_rejects_the_wait
    (c : call) (i : Instance) (s : env) (p : promise) (s0 : env) (evs : list event) :
  container c = Some i ->
  perform c s = (Normal p, s0) ->
  is_pending (fst (run evs (p, s0))) = true ->
  fst (step (EDestroying (uid i)) (run evs (p, s0))) = Rejected Destroyed.
Proof.
  intros Hi E Hp.
  destruct (is_single c) eqn:Hs.
  - rewrite (single_wait_step c i s p s0 evs _ Hs Hi E Hp).
    assert (Ha : forall s1, answer c (EDestroying (uid i)) s1 = None).
    { intros s1. destruct c; try discriminate; simpl; unfold accepted;
        try destruct (default false recursive); reflexivity. }
    rewrite Ha. cbn. now rewrite Nat.eqb_refl.
  - destruct c as [| | |parent names recursive timeout| | |]; try discriminate.
    simpl in Hi. inversion Hi; subst i.
    pose proof (perform_batch_waiting parent names recursive timeout s p s0 evs E) as Hb.
    destruct (run evs (p, s0)) as [p1 s1]. cbn [fst snd] in *.
    eapply batch_destroyed; eauto.
Qed.

Lemma destroyed_instance_rejects_the_wait_witness :
  let c := CallWaitForChildren vehicle ["LeftWheel"; "RightWheel"] None None in
  fst (step (EDestroying (uid vehicle))
         (run [EElapse 30] (fst (waitForChildren vehicle ["LeftWheel"; "RightWheel"]
                                   None None (fresh 0)),
                            snd (perform c (fresh 0))))) = Rejected Destroyed.
Proof.
  cbv zeta.
  apply (destroyed_instance_rejects_the_wait
           (CallWaitForChildren vehicle ["LeftWheel"; "RightWheel"] None None)
           vehicle (fresh 0)); reflexivity.
Defined.

(** ** Events that do not concern a wait *)

(** X7.  While the promise of a call is pending, an event that does not
    concern the call runs none of the callbacks the call has connected: the
    promise is exactly as it was, and the state is the one the host leaves.
    The events that concern a call are the passing of time, the events
    about the instance the call is given, a [Heartbeat] for [waitForCustom]
    and, for [waitForChildren], the [Destroying] of any instance. *)
Theorem unconcerned_event_leaves_the_promise_as_it_is
    (c : call) (s : env) (p : promise) (s0 : env) (evs : list event) (e : event) :
  perform c s = (Normal p, s0) ->
  is_pending (fst (run evs (p, s0))) = true ->
  concerns c e = false ->
  step e (run evs (p, s0)) =
    (fst (run evs (p, s0)), run_callbacks e (host_update e (snd (run evs (p, s0))))).
Proof.
  intros E Hp Hc.
  assert (Htimer : forall t d, triggers e t (SigTimer d) = None).
  { intros t d. destruct e; try reflexivity. discriminate. }
  destruct (is_single c) eqn:Hs.
  - destruct (container c) as [i|] eqn:Hi; [|destruct c; discriminate].
    assert (Hab : about_container c e = false).
    { unfold concerns in Hc. destruct e; try exact Hc; try discriminate.
      - destruct c; try exact Hc; discriminate.
      - unfold about_container. simpl. destruct (container c); reflexivity. }
    unfold about_container in Hab. rewrite Hi in Hab.
    apply (single_wait_still c i s p s0 evs e Hs Hi E Hp).
    rewrite (single_wait_step c i s p s0 evs e Hs Hi E Hp), Htimer.
    assert (Ha : forall s1 src,
               (src = SigChildAdded (uid i) \/ src = SigDescendantAdded (uid i) \/
                src = SigDestroying (uid i) \/
                src = SigPropertyChanged (uid i) "PrimaryPart" \/
                src = SigChanged (uid i)) ->
               triggers e (now s1) src = None).
    { intros s1 src Hsrc.
      destruct e; simpl in Hab; try discriminate;
        destruct Hsrc as [-> | [-> | [-> | [-> | ->]]]]; simpl; try reflexivity;
        rewrite ?Hab; reflexivity. }
    assert (Hans : forall s1, answer c e s1 = None).
    { intros s1.
      destruct c; try discriminate; simpl in Hi; inversion Hi; subst i;
        simpl; unfold accepted;
        try (destruct (default false recursive));
        rewrite Ha; auto 6. }
    rewrite Hans, Ha; auto 6.
  - destruct c as [| | |parent names recursive timeout| | |predicate timeout];
      try discriminate.
    + pose proof (perform_batch_waiting parent names recursive timeout s p s0 evs E) as Hb.
      destruct (run evs (p, s0)) as [p1 s1]. cbn [fst snd] in *.
      destruct Hb as [Hset | (ps & -> & Hw & Hn & Hv)].
      { unfold is_pending in Hp. rewrite Hset in Hp. discriminate. }
      unfold step. cbn [fst snd].
      set (d := now s + Promise.delay_time (default DEFAULT_TIMEOUT timeout)) in *.
      set (s2 := run_callbacks e (host_update e s1)).
      assert (Ha : forall t src,
                 (src = SigChildAdded (uid parent) \/
                  src = SigDescendantAdded (uid parent) \/
                  src = SigDestroying (uid parent)) ->
                 triggers e t src = None).
      { intros t src Hsrc. unfold concerns, about_container in Hc.
        destruct e; simpl in Hc; try discriminate;
          destruct Hsrc as [-> | [-> | ->]]; simpl; try reflexivity;
          rewrite ?Hc; reflexivity. }
      assert (Hchild : forall c name, standing c s2 ->
                is_pending (fst (deliver e (child_wait c parent (default false recursive)
                                              name d) s2)) = true).
      { intros c name Hst.
        destruct (child_wait_deliver c parent (default false recursive) name d e s2 Hst)
          as [H _].
        rewrite H, Htimer. unfold accepted.
        rewrite !Ha; auto. destruct (default false recursive); auto. }
      apply (batch_unmoved parent (default false recursive) d e s2 names ps Hchild
               (waits_for_host _ _ _ e s1 _ _ Hw) Hv).
    + destruct (perform_polling predicate timeout s p s0 evs E Hp) as (hb & H1 & _).
      unfold step. rewrite H1. apply polling_deliver_other.
      * intros ->. discriminate.
      * intros dt ->. discriminate.
Qed.

(** [EChildAdded (uid garage) RightWheel] is about another instance than
    the [vehicle] of the call; the [Destroying] of [RightWheel] does not
    concern a wait for a child of the vehicle either. *)
Lemma unconcerned_event_leaves_the_promise_as_it_is_witness :
  let c := CallWaitForChild vehicle "RightWheel" None None in
  let st := run [EElapse 30] (waiting 0 1 2 (ChildAdded vehicle)
                                (on_instance (fun c => String.eqb (Name c) "RightWheel"))
                                vehicle (0 + 60),
                              snd (perform c (fresh 0))) in
  step (EChildAdded (uid garage) RightWheel) st = (fst st, snd st) /\
  step (EDestroying (uid RightWheel)) st = (fst st, snd st).
Proof.
  cbv zeta. split.
  - apply (unconcerned_event_leaves_the_promise_as_it_is
             (CallWaitForChild vehicle "RightWheel" None None) (fresh 0)); reflexivity.
  - apply (unconcerned_event_leaves_the_promise_as_it_is
             (CallWaitForChild vehicle "RightWheel" None None) (fresh 0)); reflexivity.
Defined.

(** ** The passing of time *)

(** While the promise of a call is pending, the passing of time leaves
    it as it is if the clock is then not past the deadline, the time of the
    call plus the time of the delay, and rejects it with [TimedOut] if it
    is. *)
Lemma elapse_step (c : call) (s : env) (p : promise) (s0 : env) (evs : list event) (dt : Q) :
  perform c s = (Normal p, s0) ->
  is_pending (fst (run evs (p, s0))) = true ->
  fst (step (EElapse dt) (run evs (p, s0))) =
    if Qle_bool (now (snd (run evs (p, s0))) + dt)
                (now s + Promise.delay_time (timeout_of c))
    then fst (run evs (p, s0))
    else Rejected TimedOut.
Proof.
  intros E Hp.
  destruct (Qle_bool (now (snd (run evs (p, s0))) + dt)
                     (now s + Promise.delay_time (timeout_of c))) eqn:Hq.
  2:{ pose proof (run_alive _ evs p s0 (perform_alive c s p s0 E)) as Ha.
      destruct (run evs (p, s0)) as [p1 s1]. cbn [fst snd] in *.
      apply (alive_fires (now s + Promise.delay_time (timeout_of c))); auto.
      now apply Qle_bool_false. }
  destruct (is_single c) eqn:Hs.
  - destruct (container c) as [i|] eqn:Hi; [|destruct c; discriminate].
    rewrite (single_wait_step c i s p s0 evs _ Hs Hi E Hp).
    cbn [triggers]. rewrite now_host. cbn [time_after]. rewrite Hq.
    assert (Ha : forall s1, answer c (EElapse dt) s1 = None).
    { intros s1. destruct c; try discriminate; simpl; unfold accepted;
        try destruct (default false recursive); reflexivity. }
    rewrite Ha. reflexivity.
  - destruct c as [| | |parent names recursive timeout| | |predicate timeout];
      try discriminate.
    + pose proof (perform_batch_waiting parent names recursive timeout s p s0 evs E) as Hb.
      unfold timeout_of in Hq.
      destruct (run evs (p, s0)) as [p1 s1]. cbn [fst snd] in *.
      destruct Hb as [Hset | (ps & -> & Hw & Hn & Hv)].
      { unfold is_pending in Hp. rewrite Hset in Hp. discriminate. }
      unfold step. cbn [fst snd].
      set (d := now s + Promise.delay_time (default DEFAULT_TIMEOUT timeout)) in *.
      set (s2 := run_callbacks (EElapse dt) (host_update (EElapse dt) s1)).
      assert (Hchild : forall c name, standing c s2 ->
                is_pending (fst (deliver (EElapse dt)
                                   (child_wait c parent (default false recursive) name d)
                                   s2)) = true).
      { intros c name Hst.
        destruct (child_wait_deliver c parent (default false recursive) name d
                    (EElapse dt) s2 Hst) as [H _].
        rewrite H. cbn [triggers]. unfold s2. rewrite now_host. cbn [time_after].
        rewrite Hq. unfold accepted. destruct (default false recursive); reflexivity. }
      rewrite (batch_unmoved parent (default false recursive) d _ s2 names ps Hchild
                 (waits_for_host _ _ _ _ s1 _ _ Hw) Hv).
      reflexivity.
    + destruct (perform_polling predicate timeout s p s0 evs E Hp) as (hb & H1 & H2 & H3).
      unfold timeout_of in Hq.
      unfold step. rewrite H1.
      set (s2 := run_callbacks (EElapse dt) (host_update (EElapse dt) (snd (run evs (p, s0))))).
      assert (Hc : connections s2 = connections (snd (run evs (p, s0)))).
      { unfold s2. now rewrite connections_run_callbacks, connections_host_update. }
      rewrite polling_deliver_elapse
        by (rewrite (is_connected_same _ _ _ Hc); assumption).
      unfold s2. rewrite now_host. cbn [time_after]. rewrite Hq. reflexivity.
Qed.

(** ** The failures of [waitForCustom] *)

Lemma polling_spec_failed predicate d evs : forall t n err,
  fst (polling_spec predicate d t n evs) = Failed err -> err = TimedOut.
Proof.
  induction evs as [|e evs IH]; intros t n err H; [discriminate|].
  destruct e; simpl in H; try (now apply IH in H).
  - destruct (predicate n) as [v|exn]; [|now apply IH in H].
    destruct (is_undefined v); [now apply IH in H | discriminate].
  - destruct (Qle_bool (t + dt) d); [now apply IH in H|].
    simpl in H. now inversion H.
Qed.

(** X9.  [waitForCustom] watches no instance: its promise is rejected
    by the timeout only, whatever happens in the host. *)
Theorem waitForCustom_fails_by_timeout_only
    (predicate : predicate_fn) (timeout : option Q) (s : env) (p : promise) (s0 : env)
    (evs : list event) (err : error) :
  waitForCustom predicate timeout s = (Normal p, s0) ->
  fst (run evs (p, s0)) = Rejected err ->
  err = TimedOut.
Proof.
  intros E Hr.
  pose proof (waitForCustom_cases predicate timeout s) as H. rewrite E in H.
  cbn [fst snd] in H.
  destruct (predicate (calls s)) as [v|exn] eqn:Ep; [|discriminate].
  destruct (is_undefined v) eqn:U.
  - destruct H as (hb & d & H & Hhb & Hct). inversion H; subst p.
    destruct (polling_run predicate hb (S hb) d (n_Sn hb) evs s0 Hhb Hct) as (H1 & _).
    cbv zeta in H1. rewrite Hr in H1. simpl in H1. symmetry in H1.
    now apply polling_spec_failed in H1.
  - inversion H; subst p. rewrite run_settled in Hr by reflexivity. discriminate.
Qed.

Lemma waitForCustom_fails_by_timeout_only_witness :
  waitForCustom ready_at_third None (fresh 0)
    = (Normal (polling ready_at_third 0 1 (0 + 60)),
       snd (waitForCustom ready_at_third None (fresh 0))) /\
  fst (run [EDestroying 0; EHeartbeat; EElapse 61]
         (polling ready_at_third 0 1 (0 + 60),
          snd (waitForCustom ready_at_third None (fresh 0)))) = Rejected TimedOut /\
  TimedOut = TimedOut.
Proof.
  split; [reflexivity|]. split; [reflexivity|].
  apply (waitForCustom_fails_by_timeout_only ready_at_third None (fresh 0)
           (polling ready_at_third 0 1 (0 + 60))
           (snd (waitForCustom ready_at_third None (fresh 0)))
           [EDestroying 0; EHeartbeat; EElapse 61]); reflexivity.
Defined.

(** ** The connections a call leaves *)

Lemma calm_refl s : calm s s.
Proof. split; auto. Qed.

Lemma calm_trans s1 s2 s3 : calm s1 s2 -> calm s2 s3 -> calm s1 s3.
Proof.
  intros [L1 H1] [L2 H2]. split; [lia|].
  intros i Hi Hc. apply H1; auto. apply H2; auto. lia.
Qed.

Lemma calm_same s s' : connections s' = connections s -> calm s s'.
Proof.
  intros E. split; [now rewrite E|]. intros i _. now rewrite (is_connected_same s s').
Qed.

Lemma is_connected_off c i l s s' :
  connections s = l -> connections s' = set_nth c off l ->
  is_connected i s' = (negb (Nat.eqb i c) && is_connected i s)%bool.
Proof.
  intros E E'. unfold is_connected. rewrite E', E, nth_error_set_nth.
  destruct (Nat.eqb i c); [|reflexivity].
  destruct (nth_error l i); reflexivity.
Qed.

Lemma length_set_nth {A} (f : A -> A) (l : list A) : forall c,
  List.length (set_nth c f l) = List.length l.
Proof. induction l as [|a l IH]; intros [|c]; simpl; auto. Qed.

Lemma calm_off c s s' :
  connections s' = set_nth c off (connections s) -> calm s s'.
Proof.
  intros E. split; [now rewrite E, length_set_nth|].
  intros i _. rewrite (is_connected_off c i _ s s' eq_refl E).
  now destruct (Nat.eqb i c).
Qed.

Lemma calm_app s s' more : connections s' = connections s ++ more -> calm s s'.
Proof.
  intros E. split; [rewrite E, length_app; lia|].
  intros i Hi. unfold is_connected. now rewrite E, nth_error_app1.
Qed.

Lemma is_connected_bound i s : is_connected i s = true -> (i < List.length (connections s))%nat.
Proof.
  unfold is_connected. intros H. apply nth_error_Some.
  destruct (nth_error (connections s) i); [discriminate | discriminate].
Qed.

Section Record.
Variable R : env -> nat -> Prop.
Hypothesis R_Disconnect : forall c s i, R s i -> R (snd (Disconnect c s)) i.

Lemma tended_refl s l : tended R s s l l.
Proof.
  repeat split; auto.
  intros i Hi Hc. apply is_connected_bound in Hc. lia.
Qed.

Lemma neat_settled p : is_settled p = true -> neat R p.
Proof. destruct p; try discriminate; constructor. Qed.

(** Cancellation disconnects the listeners, and nothing else. *)
Lemma cancel_each_off ps :
  Forall (fun p => forall s,
            calm s (snd (cancel p s)) /\
            List.length (connections (snd (cancel p s))) = List.length (connections s) /\
            (forall i, In i (ids p) -> is_connected i (snd (cancel p s)) = false) /\
            (forall i, R s i -> R (snd (cancel p s)) i)) ps ->
  forall s,
    calm s (snd (cancel_each ps s)) /\
    List.length (connections (snd (cancel_each ps s))) = List.length (connections s) /\
    (forall i, In i (flat_map ids ps) -> is_connected i (snd (cancel_each ps s)) = false) /\
    (forall i, R s i -> R (snd (cancel_each ps s)) i).
Proof.
  induction 1 as [|q r Hq Hr IH]; intros s.
  - simpl. split; [apply calm_refl|]. split; [reflexivity|]. split; [intros i []|auto].
  - rewrite cancel_each_cons.
    destruct (Hq s) as (C1 & L1 & O1 & R1).
    destruct (IH (snd (cancel q s))) as (C2 & L2 & O2 & R2).
    split; [eapply calm_trans; eauto|]. split; [congruence|]. split; [|auto].
    intros i Hi. simpl in Hi. apply in_app_or in Hi. destruct Hi as [Hi | Hi]; [|auto].
    destruct (is_connected i (snd (cancel_each r (snd (cancel q s))))) eqn:E; [|reflexivity].
    pose proof (is_connected_bound _ _ E) as Hb.
    rewrite <- (O1 i Hi). symmetry. apply C2; [lia | exact E].
Qed.

Lemma cancel_off p : forall s,
  calm s (snd (cancel p s)) /\
  List.length (connections (snd (cancel p s))) = List.length (connections s) /\
  (forall i, In i (ids p) -> is_connected i (snd (cancel p s)) = false) /\
  (forall i, R s i -> R (snd (cancel p s)) i).
Proof.
  induction p as [v|e| |c src listen|p k IH|ps IH|ps IH] using promise_ind2; intros s;
    try (simpl; split; [apply calm_refl|]; split; [reflexivity|];
         split; [intros i []|auto]; fail).
  - cbn [cancel ids]. split; [now apply (calm_off c)|].
    split; [rewrite Disconnect_eq; simpl; apply length_set_nth|].
    split; [|apply R_Disconnect].
    intros i [<- | []]. apply is_connected_Disconnect_same.
  - apply IH.
  - rewrite cancel_Race. now apply cancel_each_off.
  - rewrite cancel_All. now apply cancel_each_off.
Qed.

Lemma cancel_each_off_all ps s :
  calm s (snd (cancel_each ps s)) /\
  List.length (connections (snd (cancel_each ps s))) = List.length (connections s) /\
  (forall i, In i (flat_map ids ps) -> is_connected i (snd (cancel_each ps s)) = false) /\
  (forall i, R s i -> R (snd (cancel_each ps s)) i).
Proof. apply cancel_each_off. apply Forall_forall. intros p _. apply cancel_off. Qed.

(** A decided promise that cancels the promises it was among. *)
Lemma tended_cancel s s1 l ps r :
  tended R s s1 l (flat_map ids ps) -> is_settled r = true ->
  tended R s (snd (cancel_each ps s1)) l (ids r).
Proof.
  intros (C1 & I1 & D1 & N1 & R1) Hr.
  destruct (cancel_each_off_all ps s1) as (C2 & L2 & O2 & R2).
  rewrite (ids_settled r Hr).
  split; [eapply calm_trans; eauto|]. split; [intros i []|]. split; [|split].
  - intros i Hi Hc. exfalso.
    assert (Hc1 : is_connected i s1 = true).
    { apply C2; [|exact Hc]. apply is_connected_bound in Hc. lia. }
    rewrite (O2 i (D1 i Hi Hc1)) in Hc. discriminate.
  - intros i Hi Hc. apply R2, N1; [exact Hi|].
    apply C2; [|exact Hc]. apply is_connected_bound in Hc. lia.
  - auto.
Qed.

Lemma deliver_until_tends stop e ps :
  Forall (tends R e) ps ->
  forall s, Forall (neat R) ps -> bounded s (flat_map ids ps) ->
    Forall (neat R) (fst (deliver_until stop e ps s)) /\
    tended R s (snd (deliver_until stop e ps s))
      (flat_map ids ps) (flat_map ids (fst (deliver_until stop e ps s))).
Proof.
  induction 1 as [|q r Hq Hr IH]; intros s Hn Hb.
  - simpl. split; [constructor | apply tended_refl].
  - inversion Hn as [|? ? Nq Nr]; subst.
    assert (Bq : bounded s (ids q)).
    { intros i Hi. apply Hb. simpl. apply in_or_app. now left. }
    assert (Br : bounded s (flat_map ids r)).
    { intros i Hi. apply Hb. simpl. apply in_or_app. now right. }
    destruct (Hq s Nq Bq) as (N1 & C1 & I1 & D1 & A1 & R1).
    rewrite deliver_until_cons.
    destruct (stop (fst (deliver e q s))); cbn [fst snd].
    + split; [constructor; auto|].
      split; [exact C1|]. split; [|split; [|split; [exact A1 | exact R1]]].
      * intros i Hi. simpl in *. apply in_app_or in Hi. apply in_or_app.
        destruct Hi; auto.
      * intros i Hi Hc. simpl in *. apply in_app_or in Hi. apply in_or_app.
        destruct Hi; auto.
    + assert (Br1 : bounded (snd (deliver e q s)) (flat_map ids r)).
      { intros i Hi. apply Br in Hi. destruct C1 as [L _]. lia. }
      destruct (IH (snd (deliver e q s)) Nr Br1) as (N2 & C2 & I2 & D2 & A2 & R2).
      split; [constructor; auto|].
      split; [eapply calm_trans; eauto|]. split; [|split; [|split]].
      * intros i Hi. simpl in *. apply in_app_or in Hi. apply in_or_app.
        destruct Hi; auto.
      * intros i Hi Hc. simpl in *. apply in_app_or in Hi. apply in_or_app.
        destruct Hi as [Hi | Hi]; [left | right; auto].
        apply D1; [exact Hi|]. apply C2; [|exact Hc].
        apply Bq in Hi. destruct C1 as [L _]. lia.
      * intros i Hi Hc.
        destruct (Nat.le_gt_cases (List.length (connections (snd (deliver e q s)))) i)
          as [Hge | Hlt].
        -- now apply A2.
        -- apply R2, A1; [exact Hi|]. now apply C2.
      * auto.
Qed.

Lemma deliver_tends e p : tends R e p.
Proof.
  induction p as [v|err| |c src listen|p k IH|ps IH|ps IH] using promise_ind2;
    intros s Hn Hb.
  - simpl. split; [auto | apply tended_refl].
  - simpl. split; [auto | apply tended_refl].
  - simpl. split; [auto | apply tended_refl].
  - inversion Hn as [| | |? ? ? Hl| | |]; subst.
    destruct (deliver_Listening_cases e c src listen s) as [E | (args & _ & E)]; rewrite E.
    + simpl. split; [auto | apply tended_refl].
    + destruct (Hl args s) as [HR Hc]. cbn [fst snd].
      destruct (fst (listen args s)) as [q|].
      * destruct Hc as [Hd Hc]. apply decided_settled in Hd.
        split; [now apply neat_settled|]. rewrite (ids_settled q Hd).
        split; [now apply (calm_off c)|]. split; [intros i []|]. split; [|split].
        -- intros i [<- | []] Hi.
           rewrite (is_connected_off c c _ s _ eq_refl Hc), Nat.eqb_refl in Hi. discriminate.
        -- intros i Hi Hi'. apply is_connected_bound in Hi'.
           rewrite Hc, length_set_nth in Hi'. lia.
        -- exact HR.
      * split; [auto|]. split; [now apply calm_same|]. split; [auto|]. split; [auto|].
        split; [|exact HR].
        intros i Hi Hi'. apply is_connected_bound in Hi'. rewrite Hc in Hi'. lia.
  - inversion Hn as [| | | |? ? Np Hk| |]; subst.
    destruct (IH s Np Hb) as (N1 & C1 & I1 & D1 & A1 & R1).
    rewrite deliver_AndThen.
    set (p' := fst (deliver e p s)) in *. set (s1 := snd (deliver e p s)) in *.
    assert (Hsame : neat R (AndThen p' k) /\
                    tended R s s1 (ids (AndThen p k)) (ids (AndThen p' k))).
    { split; [constructor; auto|]. repeat split; auto; apply C1. }
    assert (Hgone : is_settled p' = true ->
                    tended R s s1 (ids (AndThen p k)) (ids p')).
    { intros _. repeat split; auto; apply C1. }
    destruct p'; simpl; try exact Hsame.
    + destruct (Hk v s1) as (Hd & (more & Hc) & HR & HA). apply decided_settled in Hd.
      split; [now apply neat_settled|]. rewrite (ids_settled _ Hd).
      pose proof (calm_app s1 _ more Hc) as C2.
      split; [eapply calm_trans; eauto|]. split; [intros i []|]. split; [|split].
      * intros i Hi Hi'. apply (D1 i Hi). apply C2; [|exact Hi'].
        apply Hb in Hi. destruct C1 as [L _]. simpl in Hi. lia.
      * intros i Hi Hi'.
        destruct (Nat.le_gt_cases (List.length (connections s1)) i) as [Hge | Hlt].
        -- now apply HA.
        -- apply HR, A1; [exact Hi|]. now apply C2.
      * auto.
    + split; [constructor | now apply Hgone].
    + split; [constructor | now apply Hgone].
  - inversion Hn as [| | | | |? Nps|]; subst.
    destruct (deliver_until_tends is_decided e ps IH s Nps Hb) as (N1 & T1).
    rewrite deliver_Race, bind_run.
    set (ps' := fst (deliver_until is_decided e ps s)) in *.
    set (s1 := snd (deliver_until is_decided e ps s)) in *.
    unfold Promise.race. destruct (first_decided ps') as [r|] eqn:E.
    + rewrite bind_run. cbn [ret fst snd].
      apply first_decided_decided, decided_settled in E.
      split; [now apply neat_settled | now apply tended_cancel].
    + cbn [ret fst snd]. split; [now constructor | exact T1].
  - inversion Hn as [| | | | | |? Nps]; subst.
    destruct (deliver_until_tends is_rejected e ps IH s Nps Hb) as (N1 & T1).
    rewrite deliver_All, bind_run.
    set (ps' := fst (deliver_until is_rejected e ps s)) in *.
    set (s1 := snd (deliver_until is_rejected e ps s)) in *.
    unfold Promise.all. destruct (first_rejected ps') as [r|] eqn:E.
    + rewrite bind_run. cbn [ret fst snd].
      split; [constructor | now apply (tended_cancel s s1 _ ps' (Rejected r))].
    + destruct (resolved_values ps') as [vs|] eqn:Ev; cbn [ret fst snd].
      * split; [constructor|].
        apply resolved_values_map in Ev.
        assert (Hnil : flat_map ids ps' = []).
        { rewrite Ev. clear. induction vs; simpl; auto. }
        rewrite Hnil in T1. exact T1.
      * split; [now constructor | exact T1].
Qed.

End Record.

Lemma cover_deliver R base e p s :
  (forall c s i, R s i -> R (snd (Disconnect c s)) i) ->
  neat R p -> cover R base s (ids p) ->
  neat R (fst (deliver e p s)) /\
  cover R base (snd (deliver e p s)) (ids (fst (deliver e p s))).
Proof.
  intros HR Hn [Hb Hc].
  destruct (deliver_tends R HR e p s Hn Hb) as (N1 & C1 & I1 & D1 & A1 & R1).
  split; [exact N1|]. split.
  - intros i Hi. apply I1, Hb in Hi. destruct C1 as [L _]. lia.
  - intros i Hi Hi'.
    destruct (Nat.le_gt_cases (List.length (connections s)) i) as [Hge | Hlt].
    + right. now apply A1.
    + destruct (Hc i Hi) as [Hl | Hr]; [now apply C1 | left; now apply D1 | right; auto].
Qed.

Lemma cover_host R base e s l :
  (forall i, R s i -> R (run_callbacks e (host_update e s)) i) ->
  cover R base s l -> cover R base (run_callbacks e (host_update e s)) l.
Proof.
  intros HR [Hb Hc].
  assert (E : connections (run_callbacks e (host_update e s)) = connections s)
    by now rewrite connections_run_callbacks, connections_host_update.
  split.
  - intros i Hi. rewrite E. now apply Hb.
  - intros i Hi Hi'. rewrite (is_connected_same _ _ _ E) in Hi'.
    destruct (Hc i Hi Hi'); auto.
Qed.

(** *** The waits that connect listeners only *)

Lemma neat_timer R ct d :
  (forall c s i, R s i -> R (snd (Disconnect c s)) i) ->
  neat R (Listening ct (SigTimer d) (Promise.on_timeout ct)).
Proof. intros HR. constructor. intros args s. simpl. split; [apply HR | split; reflexivity]. Qed.

Lemma neat_on_firing R c src predicate :
  (forall c s i, R s i -> R (snd (Disconnect c s)) i) ->
  pure predicate -> neat R (Listening c src (Promise.on_firing c predicate)).
Proof.
  intros HR Hp. constructor. intros args s. rewrite (on_firing_eq c predicate args s Hp).
  destruct (fst (predicate args s)); simpl; [split; [apply HR | split; reflexivity]|].
  split; [auto | reflexivity].
Qed.

Lemma neat_guard R w cd ct instance d :
  (forall c s i, R s i -> R (snd (Disconnect c s)) i) ->
  neat R w -> neat R (guard w cd ct instance d).
Proof.
  intros HR Hw. constructor. constructor; [now apply neat_timer|]. constructor; [|constructor].
  constructor. constructor; [exact Hw|]. constructor; [|constructor].
  constructor; [apply neat_on_firing; [exact HR | intros args s1; reflexivity]|].
  intros v s1. split; [reflexivity|]. split; [exists []; simpl; now rewrite app_nil_r|].
  split; [auto|]. intros i Hi Hi'. apply is_connected_bound in Hi'. simpl in Hi'. lia.
Qed.

Lemma no_record_Disconnect c s i :
  no_record s i -> no_record (snd (Disconnect c s)) i.
Proof. auto. Qed.

Lemma cover_made R (l : list connection) (s s' : env) (made : list connection)
    (own : list nat) :
  connections s' = connections s ++ made ->
  (forall i, (List.length (connections s) <= i < List.length (connections s) + List.length made)%nat
             -> In i own) ->
  (forall i, In i own -> (i < List.length (connections s) + List.length made)%nat) ->
  cover R (List.length (connections s)) s' own.
Proof.
  intros E Hin Hb. split.
  - intros i Hi. rewrite E, length_app. now apply Hb.
  - intros i Hi Hc. left. apply Hin. apply is_connected_bound in Hc.
    rewrite E, length_app in Hc. lia.
Qed.

Lemma perform_cover c s p s0 :
  is_batch c = false -> perform c s = (Normal p, s0) ->
  neat no_record p /\ cover no_record (List.length (connections s)) s0 (ids p).
Proof.
  intros Hb E.
  assert (Hres : forall v, neat no_record (Resolved v) /\
                           cover no_record (List.length (connections s)) s (ids (Resolved v))).
  { intros v. split; [constructor|]. split; [intros i []|].
    intros i Hi Hc. apply is_connected_bound in Hc. lia. }
  assert (Hsig : forall instance src predicate seconds, pure predicate ->
             let r := (added <- Promise.fromEvent src predicate ;;
                       watched <- watchDestroying instance added ;;
                       Promise.timeout watched seconds) s in
             neat no_record (fst r) /\
             cover no_record (List.length (connections s)) (snd r) (ids (fst r))).
  { intros instance src predicate seconds Hp. cbv zeta. rewrite wait_on_signal_eq.
    cbn [fst snd]. split.
    - apply neat_guard; [apply no_record_Disconnect|].
      apply neat_on_firing; [apply no_record_Disconnect | exact Hp].
    - eapply (cover_made no_record [] s); [reflexivity| |]; simpl; intros i Hi; lia. }
  assert (Hprop : forall instance src predicate k seconds, pure predicate ->
             (forall v s2, snd (k v s2) = s2 /\ exists w, fst (k v s2) = Resolved w) ->
             let r := (changed <- Promise.fromEvent src predicate ;;
                       read <- Promise.andThen changed k ;;
                       watched <- watchDestroying instance read ;;
                       Promise.timeout watched seconds) s in
             neat no_record (fst r) /\
             cover no_record (List.length (connections s)) (snd r) (ids (fst r))).
  { intros instance src predicate k seconds Hp Hk. cbv zeta. rewrite property_wait_eq.
    cbn [fst snd]. split.
    - apply neat_guard; [apply no_record_Disconnect|].
      constructor; [apply neat_on_firing; [apply no_record_Disconnect | exact Hp]|].
      intros v s2. destruct (Hk v s2) as [Es (w & Ew)]. rewrite Es, Ew.
      split; [reflexivity|]. split; [exists []; now rewrite app_nil_r|].
      split; [auto|]. intros i Hi Hi'. apply is_connected_bound in Hi'. lia.
    - eapply (cover_made no_record [] s); [reflexivity| |]; simpl; intros i Hi; lia. }
  destruct c as [parent childName recursive timeout|parent className recursive timeout
                |parent className timeout|parent names recursive timeout
                |model timeout|holder timeout|predicate timeout];
    try discriminate; cbn [perform] in E.
  - apply perform_normally in E. unfold waitForChild in E.
    destruct (FindFirstChild parent childName (default false recursive)).
    + inversion E; subst. apply Hres.
    + match type of E with ?m s = _ =>
        assert (H : neat no_record (fst (m s)) /\
                    cover no_record (List.length (connections s)) (snd (m s))
                      (ids (fst (m s))))
      end.
      { apply Hsig, pure_on_instance. }
      rewrite E in H. exact H.
  - apply perform_normally in E. unfold waitForChildWhichIsA in E.
    destruct (FindFirstChildWhichIsA parent className (default false recursive)).
    + inversion E; subst. apply Hres.
    + match type of E with ?m s = _ =>
        assert (H : neat no_record (fst (m s)) /\
                    cover no_record (List.length (connections s)) (snd (m s))
                      (ids (fst (m s))))
      end.
      { apply Hsig, pure_on_instance. }
      rewrite E in H. exact H.
  - apply perform_normally in E. unfold waitForChildOfClass in E.
    destruct (FindFirstChildOfClass parent className).
    + inversion E; subst. apply Hres.
    + match type of E with ?m s = _ =>
        assert (H : neat no_record (fst (m s)) /\
                    cover no_record (List.length (connections s)) (snd (m s))
                      (ids (fst (m s))))
      end.
      { apply Hsig, pure_on_instance. }
      rewrite E in H. exact H.
  - apply perform_normally in E. unfold waitForPrimaryPart in E. rewrite bind_run in E.
    cbn [PrimaryPart gets fst snd] in E.
    destruct (primaryPart s (uid model)).
    + inversion E; subst. apply Hres.
    + match type of E with ?m s = _ =>
        assert (H : neat no_record (fst (m s)) /\
                    cover no_record (List.length (connections s)) (snd (m s))
                      (ids (fst (m s))))
      end.
      { apply Hprop; [intros args s1; reflexivity|].
        intros v s2. split; [reflexivity | eexists; reflexivity]. }
      rewrite E in H. exact H.
  - apply perform_normally in E. unfold waitForObjectValue in E. rewrite bind_run in E.
    cbn [Value gets fst snd] in E.
    destruct (objectValue s (uid holder)).
    + inversion E; subst. apply Hres.
    + match type of E with ?m s = _ =>
        assert (H : neat no_record (fst (m s)) /\
                    cover no_record (List.length (connections s)) (snd (m s))
                      (ids (fst (m s))))
      end.
      { apply Hprop; [intros args s1; reflexivity|].
        intros v s2. split; [reflexivity | eexists; reflexivity]. }
      rewrite E in H. exact H.
  - pose proof (waitForCustom_cases predicate timeout s) as H. rewrite E in H.
    cbn [fst snd] in H.
    destruct (predicate (calls s)) as [v|exn] eqn:Ep; [|discriminate].
    destruct (is_undefined v) eqn:U.
    + apply is_undefined_true in U. subst v.
      pose proof (waitForCustom_pending predicate timeout s Ep) as Eq. cbv zeta in Eq.
      rewrite Eq in E. injection E as Ep' Es'. subst p s0. split.
      * constructor. constructor; [apply neat_timer, no_record_Disconnect|].
        constructor; [|constructor]. constructor. intros args s1.
        split; [auto|]. unfold poll, invoke, bind, gets, modify, ret. simpl.
        destruct (predicate (calls s1)) as [v|exn]; [|reflexivity].
        destruct (negb (is_undefined v)); simpl; [split|]; reflexivity.
      * eapply (cover_made no_record [] s); [reflexivity| |]; simpl; intros i Hi; lia.
    + inversion H; subst p.
      unfold waitForCustom, invoke, bind, gets, modify, ret in E. rewrite Ep, U in E.
      inversion E; subst s0. split; [constructor|]. split; [intros i []|].
      intros i Hi Hc. apply is_connected_bound in Hc. simpl in Hc. lia.
Qed.

Lemma run_cover R base evs :
  (forall c s i, R s i -> R (snd (Disconnect c s)) i) ->
  (forall e s i, R s i -> R (run_callbacks e (host_update e s)) i) ->
  forall p s,
    neat R p -> cover R base s (ids p) ->
    neat R (fst (run evs (p, s))) /\
    cover R base (snd (run evs (p, s))) (ids (fst (run evs (p, s)))).
Proof.
  intros HD HH. induction evs as [|e evs IH]; intros p s Hn Hc; [split; assumption|].
  rewrite run_cons. unfold step. cbn [fst snd].
  destruct (cover_deliver R base e p (run_callbacks e (host_update e s)) HD Hn)
    as [N1 C1].
  { apply cover_host; [apply HH | exact Hc]. }
  destruct (deliver e p (run_callbacks e (host_update e s))) as [p1 s1].
  now apply IH.
Qed.

(** X10.  Once the promise of a call other than [waitForChildren] is
    settled, in whichever way, no connection that the call has made is
    connected. *)
Theorem settled_wait_leaves_nothing_connected
    (c : call) (s : env) (p : promise) (s0 : env) (evs : list event) (i : nat) :
  is_batch c = false ->
  perform c s = (Normal p, s0) ->
  is_settled (fst (run evs (p, s0))) = true ->
  (List.length (connections s) <= i)%nat ->
  is_connected i (snd (run evs (p, s0))) = false.
Proof.
  intros Hb E Hs Hi.
  destruct (perform_cover c s p s0 Hb E) as [Hn Hc].
  destruct (run_cover no_record (List.length (connections s)) evs no_record_Disconnect
              (fun _ _ _ H => H) p s0 Hn Hc) as [_ [_ Hc1]].
  destruct (is_connected i (snd (run evs (p, s0)))) eqn:Ec; [|reflexivity].
  exfalso. destruct (Hc1 i Hi Ec) as [Hin | []].
  rewrite (ids_settled _ Hs) in Hin. exact Hin.
Qed.

Lemma settled_wait_leaves_nothing_connected_witness :
  let c := CallWaitForPrimaryPart character None in
  let st := run [EElapse 30; EDestroying (uid character)]
              (fst (waitForPrimaryPart character None (fresh 0)),
               snd (perform c (fresh 0))) in
  is_connected 1 (snd st) = false.
Proof.
  cbv zeta.
  apply (settled_wait_leaves_nothing_connected
           (CallWaitForPrimaryPart character None) (fresh 0)).
  - reflexivity.
  - reflexivity.
  - reflexivity.
  - simpl. lia.
Defined.

(** *** The batch wait *)

Lemma in_destroying_Disconnect c s i :
  in_destroying s i -> in_destroying (snd (Disconnect c s)) i.
Proof. auto. Qed.

Lemma destroying_host e s : destroying (run_callbacks e (host_update e s)) = destroying s.
Proof. unfold run_callbacks. destruct (existsb _ _); destruct e; reflexivity. Qed.

Lemma in_destroying_host e s i :
  in_destroying s i -> in_destroying (run_callbacks e (host_update e s)) i.
Proof. unfold in_destroying. now rewrite destroying_host. Qed.

Lemma neat_child_wait c parent recursive name d :
  neat in_destroying (child_wait c parent recursive name d).
Proof.
  constructor.
  - apply neat_guard; [apply in_destroying_Disconnect|].
    apply neat_on_firing; [apply in_destroying_Disconnect | apply pure_on_instance].
  - intros v s. unfold in_destroying.
    destruct v; simpl;
      try (split; [reflexivity|]; split; [exists []; now rewrite app_nil_r|];
           split; [auto|]; intros j Hj Hj'; apply is_connected_bound in Hj'; lia).
    split; [reflexivity|]. split; [eexists; reflexivity|]. split.
    + intros j Hj. apply in_or_app. now left.
    + intros j Hj Hj'. apply is_connected_bound in Hj'. simpl in Hj'.
      rewrite length_app in Hj'. simpl in Hj'. apply in_or_app. right. left. lia.
Qed.

Lemma children_cover parent recursive timeout base names : forall s l,
  cover in_destroying base s l ->
  let r := mapM (wait_and_watch parent recursive timeout) names s in
  Forall (neat in_destroying) (fst r) /\
  cover in_destroying base (snd r) (l ++ flat_map ids (fst r)).
Proof.
  induction names as [|name names IH]; intros s l Hc; cbv zeta.
  - simpl. rewrite app_nil_r. split; [constructor | exact Hc].
  - rewrite mapM_cons.
    pose proof (wait_and_watch_cases parent recursive timeout name s) as Hq.
    cbv zeta in Hq.
    set (q := fst (wait_and_watch parent recursive timeout name s)) in *.
    set (s1 := snd (wait_and_watch parent recursive timeout name s)) in *.
    assert (H1 : neat in_destroying q /\ cover in_destroying base s1 (l ++ ids q)).
    { destruct Hc as [Hb Hc]. unfold q, s1. rewrite Hq.
      destruct (FindFirstChild parent name recursive) as [child|]; cbn [fst snd].
      - split; [constructor|]. simpl. rewrite app_nil_r. split.
        + intros i Hi. apply Hb in Hi. simpl. rewrite length_app. lia.
        + intros i Hi Hi'. unfold in_destroying. simpl.
          destruct (Nat.le_gt_cases (List.length (connections s)) i) as [Hge | Hlt].
          * right. apply is_connected_bound in Hi'. simpl in Hi'.
            rewrite length_app in Hi'. simpl in Hi'.
            apply in_or_app. right. left. lia.
          * unfold is_connected in Hi'. simpl in Hi'.
            rewrite nth_error_app1 in Hi' by exact Hlt.
            destruct (Hc i Hi Hi') as [H | H]; [now left | right].
            apply in_or_app. now left.
      - split; [apply neat_child_wait|]. rewrite ids_child_wait. split.
        + intros i Hi. simpl. rewrite length_app. simpl.
          apply in_app_or in Hi. destruct Hi as [Hi | Hi]; [apply Hb in Hi; lia|].
          simpl in Hi. lia.
        + intros i Hi Hi'.
          destruct (Nat.le_gt_cases (List.length (connections s)) i) as [Hge | Hlt].
          * left. apply in_or_app. right. apply is_connected_bound in Hi'. simpl in Hi'.
            rewrite length_app in Hi'. simpl in Hi'. simpl. lia.
          * unfold is_connected in Hi'. simpl in Hi'.
            rewrite nth_error_app1 in Hi' by exact Hlt.
            destruct (Hc i Hi Hi') as [H | H]; [left | now right].
            apply in_or_app. now left. }
    destruct H1 as [Nq Cq].
    destruct (IH s1 (l ++ ids q) Cq) as [Nr Cr]. cbv zeta in Cr.
    cbn [fst snd]. split; [constructor; auto|].
    simpl. now rewrite app_assoc.
Qed.

Lemma nth_error_fold_off cs : forall (l : list connection) i,
  nth_error (fold_left (fun l c => set_nth c off l) cs l) i =
  if existsb (Nat.eqb i) cs then option_map off (nth_error l i) else nth_error l i.
Proof.
  induction cs as [|c cs IH]; intros l i; [reflexivity|].
  simpl. rewrite IH, nth_error_set_nth.
  destruct (Nat.eqb i c); simpl.
  - destruct (existsb (Nat.eqb i) cs); [|reflexivity].
    now destruct (nth_error l i).
  - reflexivity.
Qed.

(** The callback chained on [Promise.all] leaves no connection of the
    call connected. *)
Lemma check_destroyed_clean base v s :
  cover in_destroying base s [] ->
  forall i, (base <= i)%nat -> is_connected i (snd (check_destroyed v s)) = false.
Proof.
  intros [_ Hc] i Hi. rewrite check_destroyed_eq. cbn [snd].
  unfold is_connected. cbn [connections set_connections].
  rewrite nth_error_fold_off.
  destruct (existsb (Nat.eqb i) (destroying s)) eqn:E.
  - now destruct (nth_error (connections s) i).
  - destruct (nth_error (connections s) i) as [cn|] eqn:En; [|reflexivity].
    destruct (Connected cn) eqn:Ec; [|reflexivity].
    exfalso. destruct (Hc i Hi) as [[] | Hin].
    + unfold is_connected. now rewrite En.
    + assert (Hex : existsb (Nat.eqb i) (destroying s) = true).
      { apply existsb_exists. exists i. split; [exact Hin | apply Nat.eqb_refl]. }
      congruence.
Qed.

Lemma finish_tending base ps s :
  Forall (neat in_destroying) ps ->
  cover in_destroying base s (flat_map ids ps) ->
  batch_tending base (snd (finish ps s)) (fst (finish ps s)).
Proof.
  intros Hn Hc. unfold finish. rewrite bind_run.
  destruct (all_shape ps s) as [(e & E) | [(vs & E) | (E & Ev)]].
  - right. right. rewrite E. reflexivity.
  - rewrite E. cbn [fst snd Promise.andThen].
    assert (Hnil : flat_map ids ps = []).
    { unfold Promise.all in E. destruct (first_rejected ps).
      - rewrite bind_run in E. discriminate.
      - destruct (resolved_values ps) as [vs'|] eqn:Ev; [|discriminate].
        apply resolved_values_map in Ev. rewrite Ev. clear.
        induction vs'; simpl; auto. }
    rewrite Hnil in Hc.
    pose proof (check_destroyed_clean base (VArray vs) s Hc) as Hclean.
    rewrite check_destroyed_eq in *. cbn [fst snd] in *.
    destruct (destroyed s); [right; right; reflexivity | right; left; split; auto].
  - left. rewrite E. simpl. exists ps. split; [reflexivity|]. split; [now constructor|].
    exact Hc.
Qed.

Lemma waitForChildren_tending parent names recursive timeout s :
  let r := waitForChildren parent names recursive timeout s in
  batch_tending (List.length (connections s)) (snd r) (fst r).
Proof.
  cbv zeta. rewrite waitForChildren_eq, bind_run.
  set (s0 := set_destroyed false (set_destroying [] s)).
  destruct (children_cover parent (default false recursive)
              (default DEFAULT_TIMEOUT timeout) (List.length (connections s)) names s0 [])
    as [Hn Hc].
  { split; [intros i []|]. intros i Hi Hi'. apply is_connected_bound in Hi'.
    simpl in Hi'. lia. }
  apply finish_tending; assumption.
Qed.

Lemma step_tending base e p s :
  batch_tending base s p ->
  batch_tending base (snd (step e (p, s))) (fst (step e (p, s))).
Proof.
  intros [(ps & -> & Hn & Hc) | [[Hr Hclean] | Hrej]].
  - unfold step. cbn [fst snd].
    set (s1 := run_callbacks e (host_update e s)).
    destruct (cover_deliver in_destroying base e (All ps) s1 in_destroying_Disconnect Hn)
      as [N1 C1].
    { apply cover_host; [apply in_destroying_host | exact Hc]. }
    rewrite deliver_AndThen.
    assert (Hshape : is_decided (fst (deliver e (All ps) s1)) = true \/
                     exists ps', fst (deliver e (All ps) s1) = All ps').
    { rewrite deliver_All, bind_run.
      destruct (all_shape (fst (deliver_until is_rejected e ps s1))
                  (snd (deliver_until is_rejected e ps s1)))
        as [(e0 & E) | [(vs & E) | (E & _)]]; rewrite E; simpl; eauto. }
    set (q := fst (deliver e (All ps) s1)) in *.
    set (s2 := snd (deliver e (All ps) s1)) in *.
    destruct Hshape as [Hs | (ps' & Hq)].
    + destruct q; try discriminate; cbn [Promise.andThen ret fst snd].
      * simpl in C1.
        pose proof (check_destroyed_clean base v s2 C1) as Hclean.
        rewrite check_destroyed_eq in *. cbn [fst snd] in *.
        destruct (destroyed s2); [right; right; reflexivity | right; left; split; auto].
      * right. right. reflexivity.
    + rewrite Hq in *. simpl. left. exists ps'. auto.
  - rewrite step_settled by (now destruct p). right. left. split; [exact Hr|].
    intros i Hi.
    rewrite (is_connected_same s (run_callbacks e (host_update e s))); [now apply Hclean|].
    now rewrite connections_run_callbacks, connections_host_update.
  - rewrite step_settled by (now destruct p). right. right. exact Hrej.
Qed.

Lemma run_tending base evs : forall p s,
  batch_tending base s p ->
  batch_tending base (snd (run evs (p, s))) (fst (run evs (p, s))).
Proof.
  induction evs as [|e evs IH]; intros p s H; [exact H|].
  rewrite run_cons. pose proof (step_tending base e p s H) as H1.
  destruct (step e (p, s)) as [p1 s1]. now apply IH.
Qed.

(** X11.  Once the promise of [waitForChildren] is resolved, no
    connection that the call has made is connected: neither a listener of
    a child's wait nor a watch on a found child. *)
Theorem resolved_batch_leaves_nothing_connected
    (parent : Instance) (childrenNames : list string) (recursive : option bool)
    (timeout : option Q) (s : env) (evs : list event) (v : value) (i : nat) :
  let st := run evs (waitForChildren parent childrenNames recursive timeout s) in
  fst st = Resolved v ->
  (List.length (connections s) <= i)%nat ->
  is_connected i (snd st) = false.
Proof.
  cbv zeta. intros Hr Hi.
  pose proof (waitForChildren_tending parent childrenNames recursive timeout s) as H0.
  cbv zeta in H0.
  destruct (waitForChildren parent childrenNames recursive timeout s) as [p s0].
  pose proof (run_tending (List.length (connections s)) evs p s0 H0) as H.
  rewrite Hr in H. destruct H as [(ps & E & _) | [[_ Hclean] | Hrej]];
    [discriminate | now apply Hclean | discriminate].
Qed.

Lemma resolved_batch_leaves_nothing_connected_witness :
  let st := run [EElapse 2; EChildAdded (uid vehicle) RightWheel]
              (waitForChildren vehicle ["LeftWheel"; "RightWheel"] None None (fresh 0)) in
  is_connected 0 (snd st) = false.
Proof.
  cbv zeta.
  apply (resolved_batch_leaves_nothing_connected vehicle ["LeftWheel"; "RightWheel"]
           None None (fresh 0) [EElapse 2; EChildAdded (uid vehicle) RightWheel]
           (VArray [VInstance LeftWheel; VInstance RightWheel])).
  - reflexivity.
  - simpl. lia.
Defined.

(** ** The children a batch gathers *)

Lemma same_host_refl s : same_host s s.
Proof. split; reflexivity. Qed.

Lemma same_host_trans s1 s2 s3 : same_host s1 s2 -> same_host s2 s3 -> same_host s1 s3.
Proof. intros [A B] [C D]. split; congruence. Qed.

Lemma cancel_same_host p : forall s, same_host s (snd (cancel p s)).
Proof.
  induction p as [v|e| |c src listen|p k IH|ps IH|ps IH] using promise_ind2; intros s;
    try apply same_host_refl.
  - split; reflexivity.
  - apply IH.
  - rewrite cancel_Race. revert s. induction IH as [|q r Hq _ IHr]; intros s.
    + apply same_host_refl.
    + rewrite cancel_each_cons. eapply same_host_trans; [apply Hq | apply IHr].
  - rewrite cancel_All. revert s. induction IH as [|q r Hq _ IHr]; intros s.
    + apply same_host_refl.
    + rewrite cancel_each_cons. eapply same_host_trans; [apply Hq | apply IHr].
Qed.

Lemma cancel_each_same_host ps : forall s, same_host s (snd (cancel_each ps s)).
Proof.
  induction ps as [|q r IH]; intros s; [apply same_host_refl|].
  rewrite cancel_each_cons. eapply same_host_trans; [apply cancel_same_host | apply IH].
Qed.

Lemma inert_decided p : is_decided p = true -> inert p.
Proof. destruct p; try discriminate; constructor. Qed.

Lemma deliver_until_inert stop e ps :
  Forall (fun p => forall s, inert p ->
            inert (fst (deliver e p s)) /\ same_host s (snd (deliver e p s))) ps ->
  forall s, Forall inert ps ->
    Forall inert (fst (deliver_until stop e ps s)) /\
    same_host s (snd (deliver_until stop e ps s)).
Proof.
  induction 1 as [|q r Hq Hr IH]; intros s Hi.
  - simpl. split; [constructor | apply same_host_refl].
  - inversion Hi as [|? ? Iq Ir]; subst. destruct (Hq s Iq) as [I1 S1].
    rewrite deliver_until_cons.
    destruct (stop (fst (deliver e q s))); cbn [fst snd].
    + split; [constructor; auto | exact S1].
    + destruct (IH (snd (deliver e q s)) Ir) as [I2 S2].
      split; [constructor; auto | eapply same_host_trans; eauto].
Qed.

(** Delivery of an event leaves the clock and the flag as they are. *)
Lemma deliver_inert e p : forall s,
  inert p -> inert (fst (deliver e p s)) /\ same_host s (snd (deliver e p s)).
Proof.
  induction p as [v|err| |c src listen|p k IH|ps IH|ps IH] using promise_ind2;
    intros s Hi.
  - simpl. split; [auto | apply same_host_refl].
  - simpl. split; [auto | apply same_host_refl].
  - simpl. split; [auto | apply same_host_refl].
  - inversion Hi as [| | |? ? ? Hl| | |]; subst.
    destruct (deliver_Listening_cases e c src listen s) as [E | (args & _ & E)]; rewrite E.
    + simpl. split; [auto | apply same_host_refl].
    + destruct (Hl args s) as [Hs Hq]. cbn [fst snd].
      destruct (fst (listen args s)) as [q|]; split; auto. now apply inert_decided.
  - inversion Hi as [| | | |? ? Ip Hk| |]; subst.
    destruct (IH s Ip) as [I1 S1]. rewrite deliver_AndThen.
    set (p' := fst (deliver e p s)) in *. set (s1 := snd (deliver e p s)) in *.
    destruct p'; simpl; try (split; [constructor; auto | exact S1]).
    destruct (Hk v s1) as [S2 Hd].
    split; [now apply inert_decided | eapply same_host_trans; eauto].
  - inversion Hi as [| | | | |? Ips|]; subst.
    destruct (deliver_until_inert is_decided e ps IH s Ips) as [I1 S1].
    rewrite deliver_Race, bind_run.
    set (ps' := fst (deliver_until is_decided e ps s)) in *.
    set (s1 := snd (deliver_until is_decided e ps s)) in *.
    unfold Promise.race. destruct (first_decided ps') as [r|] eqn:E.
    + rewrite bind_run. cbn [ret fst snd].
      split; [eapply inert_decided, first_decided_decided; eauto|].
      eapply same_host_trans; [exact S1 | apply cancel_each_same_host].
    + cbn [ret fst snd]. split; [now constructor | exact S1].
  - inversion Hi as [| | | | | |? Ips]; subst.
    destruct (deliver_until_inert is_rejected e ps IH s Ips) as [I1 S1].
    rewrite deliver_All, bind_run.
    set (ps' := fst (deliver_until is_rejected e ps s)) in *.
    set (s1 := snd (deliver_until is_rejected e ps s)) in *.
    unfold Promise.all. destruct (first_rejected ps') as [r|] eqn:E.
    + rewrite bind_run. cbn [ret fst snd]. split; [constructor|].
      eapply same_host_trans; [exact S1 | apply cancel_each_same_host].
    + destruct (resolved_values ps') as [vs|]; cbn [ret fst snd];
        (split; [now constructor | exact S1]).
Qed.

Lemma inert_child_wait c parent recursive name d :
  inert (child_wait c parent recursive name d).
Proof.
  assert (Hf : forall k src (predicate : value -> M bool), pure predicate ->
             inert (Listening k src (Promise.on_firing k predicate))).
  { intros k src predicate Hp. constructor. intros args s.
    rewrite (on_firing_eq k predicate args s Hp).
    destruct (fst (predicate args s)); simpl; repeat split. }
  constructor.
  - constructor. constructor; [constructor; intros args s; simpl; repeat split|].
    constructor; [|constructor]. constructor. constructor; [apply Hf, pure_on_instance|].
    constructor; [|constructor]. constructor; [apply Hf; intros ? ?; reflexivity|].
    intros v s. simpl. repeat split.
  - intros v s. destruct v; simpl; repeat split.
Qed.

Lemma accepted_heard parent (recursive : bool) name e s :
  accepted (if recursive then DescendantAdded parent else ChildAdded parent)
    (on_instance (fun i => String.eqb (Name i) name)) e s =
  option_map VInstance (heard parent recursive name e).
Proof.
  unfold accepted, heard.
  destruct recursive, e; simpl; try reflexivity;
    match goal with |- context [Nat.eqb ?a ?b] => destruct (Nat.eqb a b) end;
    simpl; try reflexivity;
    match goal with |- context [String.eqb ?a ?b] => destruct (String.eqb a b) end;
    reflexivity.
Qed.

Lemma status_waits_for parent recursive d got s name q :
  status parent recursive d got s name q -> waits_for parent recursive d s name q.
Proof.
  unfold status. destruct (got name); [intros ->; now left | intros H; now right].
Qed.

Lemma Forall2_status_waits_for parent recursive d got s names ps :
  Forall2 (status parent recursive d got s) names ps ->
  Forall2 (waits_for parent recursive d s) names ps.
Proof. apply Forall2_impl. intros a b. apply status_waits_for. Qed.

Lemma status_frame parent recursive d got own s s' name q :
  frame own s s' -> (forall i, In i (ids q) -> ~ In i own) ->
  status parent recursive d got s name q -> status parent recursive d got s' name q.
Proof.
  unfold status. intros Hf Hd. destruct (got name); [auto|].
  intros (k & -> & Hs). exists k. split; [reflexivity|].
  rewrite ids_child_wait in Hd.
  eapply standing_frame; eauto; apply Hd; simpl; auto.
Qed.

Lemma Forall2_status_frame parent recursive d got own s s' names ps :
  frame own s s' -> (forall i, In i (flat_map ids ps) -> ~ In i own) ->
  Forall2 (status parent recursive d got s) names ps ->
  Forall2 (status parent recursive d got s') names ps.
Proof.
  intros Hf Hd H. induction H as [|name q names ps Hq Hr IH]; constructor.
  - eapply status_frame; eauto. intros i Hi. apply Hd. simpl. apply in_or_app. now left.
  - apply IH. intros i Hi. apply Hd. simpl. apply in_or_app. now right.
Qed.

(** The loop of [Promise.all] over the children, on an event that rejects
    none of them: each child that hears its name is resolved. *)
Lemma deliver_until_hears parent recursive d got e names : forall ps s,
  gentle e -> triggers e (now s) (SigTimer d) = None ->
  Forall2 (status parent recursive d got s) names ps ->
  NoDup (flat_map ids ps) ->
  let r := deliver_until is_rejected e ps s in
  Forall2 (status parent recursive d (hears parent recursive got e) (snd r)) names (fst r) /\
  same_host s (snd r).
Proof.
  induction names as [|name names IH]; intros ps s Hg Ht H Hn;
    inversion H as [|? q ? r Hq Hr]; subst; cbv zeta.
  - simpl. split; [constructor | apply same_host_refl].
  - pose proof (Forall2_waits_for_tidy _ _ _ _ _ _ (Forall2_status_waits_for _ _ _ _ _ _ _ H))
      as Htidy.
    inversion Htidy as [|? ? Tq Tr]; subst. simpl in Hn.
    pose proof (NoDup_app_remove_l _ _ Hn) as Nr.
    pose proof (NoDup_app_disjoint _ _ Hn) as Dqr.
    destruct (deliver_orderly e q s Tq) as (_ & F1 & W1).
    assert (Hq1 : is_rejected (fst (deliver e q s)) = false /\
                  status parent recursive d (hears parent recursive got e)
                    (snd (deliver e q s)) name (fst (deliver e q s)) /\
                  same_host s (snd (deliver e q s))).
    { unfold status, hears in *. destruct (got name) as [c|].
      - subst q. simpl. repeat split.
      - destruct Hq as (k & -> & Hs).
        destruct (deliver_inert e (child_wait k parent recursive name d) s
                    (inert_child_wait _ _ _ _ _)) as [_ Hsame].
        destruct (child_wait_deliver k parent recursive name d e s Hs) as [H1 H2].
        rewrite Ht, accepted_heard in H1.
        destruct (heard parent recursive name e) as [c|]; cbn [option_map] in H1.
        + rewrite H1. auto.
        + assert (Hd : triggers e (now s) (Destroying parent) = None).
          { destruct e; try reflexivity. destruct Hg. }
          rewrite Hd in H1. rewrite (H2 ltac:(rewrite H1; reflexivity)).
          cbn [fst snd]. split; [reflexivity|]. split; [eauto | apply same_host_refl]. }
    destruct Hq1 as (Hrej & Hq1 & Hsame).
    assert (Hr1 : Forall2 (status parent recursive d got (snd (deliver e q s))) names r).
    { eapply Forall2_status_frame; eauto. intros i Hi Hi'. apply (Dqr i); auto. }
    rewrite deliver_until_cons, Hrej. cbn [fst snd].
    destruct (IH r (snd (deliver e q s)) Hg) as [H2 S2]; auto.
    { destruct Hsame as [En _]. now rewrite En. }
    destruct (deliver_until_orderly is_rejected e r) with (s := snd (deliver e q s))
      as (_ & F2 & _); auto.
    { apply Forall_forall. intros p _. apply deliver_orderly. }
    split; [|eapply same_host_trans; eauto].
    constructor; [|exact H2].
    eapply status_frame; eauto.
    intros i Hi Hi'. apply (Dqr i); auto. now apply W1.
Qed.

(** *** The closures of the batch *)

Lemma proper_at_Disconnect c s i : proper_at s i -> proper_at (snd (Disconnect c s)) i.
Proof.
  unfold proper_at. rewrite Disconnect_eq. simpl. rewrite nth_error_set_nth.
  destruct (Nat.eqb i c); [|auto].
  destruct (nth_error (connections s) i); simpl; auto.
Qed.

Lemma proper_at_app s s' more i :
  connections s' = connections s ++ more -> proper_at s i -> proper_at s' i.
Proof.
  unfold proper_at. intros E.
  destruct (nth_error (connections s) i) as [cn|] eqn:En; [|contradiction].
  rewrite E, nth_error_app1, En; [auto|]. apply nth_error_Some. congruence.
Qed.

Lemma neat_child_wait_proper c parent recursive name d :
  neat proper_at (child_wait c parent recursive name d).
Proof.
  constructor.
  - apply neat_guard; [apply proper_at_Disconnect|].
    apply neat_on_firing; [apply proper_at_Disconnect | apply pure_on_instance].
  - intros v s.
    destruct v; simpl;
      try (split; [reflexivity|]; split; [exists []; now rewrite app_nil_r|];
           split; [auto|]; intros j Hj Hj'; apply is_connected_bound in Hj'; lia).
    split; [reflexivity|]. split; [eexists; reflexivity|]. split.
    + intros j. apply (proper_at_app s _ [watch true i]). reflexivity.
    + intros j Hj Hj'. pose proof (is_connected_bound _ _ Hj') as Hb. simpl in Hb.
      rewrite length_app in Hb. simpl in Hb.
      assert (j = List.length (connections s)) by lia. subst j.
      unfold proper_at. simpl. rewrite nth_error_app2, Nat.sub_diag by lia. simpl.
      intros _. eexists. reflexivity.
Qed.

Lemma sane_host e s : sane s -> sane (run_callbacks e (host_update e s)).
Proof.
  assert (E : connections (run_callbacks e (host_update e s)) = connections s)
    by now rewrite connections_run_callbacks, connections_host_update.
  intros H i Hi. rewrite (is_connected_same _ _ _ E) in Hi.
  specialize (H i Hi). unfold proper_at in *. now rewrite E.
Qed.

Lemma sane_deliver e p s :
  neat proper_at p -> bounded s (ids p) -> sane s -> sane (snd (deliver e p s)).
Proof.
  intros Hn Hb Hs.
  destruct (deliver_tends proper_at proper_at_Disconnect e p s Hn Hb)
    as (_ & C1 & _ & _ & A1 & R1).
  intros i Hi.
  destruct (Nat.le_gt_cases (List.length (connections s)) i) as [Hge | Hlt].
  - now apply A1.
  - apply R1, Hs. now apply C1.
Qed.

(** An event that destroys nothing runs no closure of a batch. *)
Lemma gentle_callbacks e s :
  gentle e -> sane s -> run_callbacks e (host_update e s) = host_update e s.
Proof.
  intros Hg Hs. unfold run_callbacks.
  destruct (existsb (fires e (now (host_update e s))) (connections (host_update e s)))
    eqn:E; [|reflexivity].
  exfalso. apply existsb_exists in E. destruct E as (cn & Hin & Hf).
  rewrite connections_host_update in Hin.
  apply In_nth_error in Hin. destruct Hin as (i & Hi).
  unfold fires in Hf. apply andb_true_iff in Hf. destruct Hf as [Hc Hf].
  assert (Hci : is_connected i s = true) by (unfold is_connected; now rewrite Hi).
  specialize (Hs i Hci). unfold proper_at in Hs. rewrite Hi in Hs.
  destruct (handler cn); [discriminate|].
  destruct (Hs eq_refl) as (u & Hu). rewrite Hu in Hf.
  destruct e; try discriminate. destruct Hg.
Qed.

Lemma destroyed_host_update e s : destroyed (host_update e s) = destroyed s.
Proof. destruct e; reflexivity. Qed.

Lemma sane_fold_off cs s :
  sane s ->
  sane (set_connections (fold_left (fun l c => set_nth c off l) cs (connections s)) s).
Proof.
  intros Hs i Hi. specialize (Hs i).
  unfold is_connected, proper_at in *. cbn [connections set_connections] in *.
  rewrite nth_error_fold_off in *.
  destruct (existsb (Nat.eqb i) cs).
  - destruct (nth_error (connections s) i); simpl in *; discriminate.
  - exact (Hs Hi).
Qed.

(** *** The children found and heard *)

Lemma gather_cons got name names :
  gather got (name :: names) =
  match got name, gather got names with
  | Some child, Some children => Some (child :: children)
  | _, _ => None
  end.
Proof. reflexivity. Qed.

Lemma gather_hears parent recursive got e names children :
  gather got names = Some children ->
  gather (hears parent recursive got e) names = Some children.
Proof.
  revert children. induction names as [|name names IH]; intros children H; [exact H|].
  rewrite gather_cons in *. unfold hears at 1.
  destruct (got name) as [c|]; [|discriminate].
  destruct (gather got names) as [cs|]; [|discriminate].
  now rewrite (IH cs eq_refl).
Qed.

Lemma status_gathered parent recursive d got s names ps : forall children,
  Forall2 (status parent recursive d got s) names ps ->
  gather got names = Some children ->
  ps = map Resolved (map VInstance children).
Proof.
  intros children H. revert children.
  induction H as [|name q names ps Hq Hr IH]; intros children Hg.
  - simpl in Hg. inversion Hg. reflexivity.
  - rewrite gather_cons in Hg. unfold status in Hq.
    destruct (got name) as [c|]; [|discriminate].
    destruct (gather got names) as [cs|]; [|discriminate].
    inversion Hg; subst. simpl. now rewrite (IH cs eq_refl).
Qed.

Lemma status_missing parent recursive d got s names ps :
  Forall2 (status parent recursive d got s) names ps ->
  gather got names = None ->
  resolved_values ps = None /\ first_rejected ps = None.
Proof.
  intros H. induction H as [|name q names ps Hq Hr IH]; intros Hg; [discriminate|].
  rewrite gather_cons in Hg. unfold status in Hq.
  destruct (got name) as [c|].
  - subst q. simpl. destruct (gather got names) as [cs|]; [discriminate|].
    destruct (IH eq_refl) as [-> ->]. auto.
  - destruct Hq as (k & -> & _). simpl. split; [reflexivity|].
    clear IH Hg. induction Hr as [|name' q' names ps Hq' Hr IH]; [reflexivity|].
    unfold status in Hq'. destruct (got name').
    + subst q'. exact IH.
    + destruct Hq' as (k' & -> & _). exact IH.
Qed.

Lemma status_bounded parent recursive d got s names ps :
  Forall2 (status parent recursive d got s) names ps ->
  bounded s (flat_map ids ps) /\ Forall (neat proper_at) ps.
Proof.
  intros H. induction H as [|name q names ps Hq Hr [IH1 IH2]].
  - split; [intros i [] | constructor].
  - unfold status in Hq. destruct (got name) as [c|].
    + subst q. split; [exact IH1 | constructor; [constructor | exact IH2]].
    + destruct Hq as (k & -> & H1 & H2 & H3). split.
      * intros i Hi. simpl in Hi.
        destruct Hi as [<- | [<- | [<- | Hi]]]; try (now apply is_connected_bound).
        now apply IH1.
      * constructor; [apply neat_child_wait_proper | exact IH2].
Qed.

Lemma check_destroyed_kept v s :
  destroyed s = false -> sane s ->
  fst (check_destroyed v s) = Resolved v /\
  destroyed (snd (check_destroyed v s)) = false /\
  sane (snd (check_destroyed v s)) /\
  now (snd (check_destroyed v s)) = now s.
Proof.
  intros Hd Hs. rewrite check_destroyed_eq, Hd. cbn [fst snd].
  split; [reflexivity|]. split; [exact Hd|]. split; [now apply sane_fold_off | reflexivity].
Qed.

(** One event that rejects nothing, on a batch that nothing has rejected. *)
Lemma gathering_step parent recursive d names got e p s :
  gathering parent recursive d names got s p ->
  gentle e -> triggers e (time_after e (now s)) (SigTimer d) = None ->
  gathering parent recursive d names (hears parent recursive got e)
    (snd (step e (p, s))) (fst (step e (p, s))) /\
  now (snd (step e (p, s))) = time_after e (now s).
Proof.
  intros (Hd & Hs & H) Hg Ht. unfold gathering.
  set (s1 := run_callbacks e (host_update e s)).
  assert (Hd1 : destroyed s1 = false).
  { unfold s1. rewrite gentle_callbacks, destroyed_host_update; auto. }
  assert (Hs1 : sane s1) by now apply sane_host.
  assert (Hn1 : now s1 = time_after e (now s)) by apply now_host.
  destruct (gather got names) as [children|] eqn:Eg.
  - subst p. rewrite step_settled by reflexivity. cbn [fst snd]. fold s1.
    rewrite (gather_hears parent recursive got e names children Eg). auto.
  - destruct H as (ps & -> & Hst & Hn).
    unfold step. cbn [fst snd]. fold s1.
    assert (Hst1 : Forall2 (status parent recursive d got s1) names ps).
    { apply Forall2_status_frame with (own := []) (s := s); auto.
      apply frame_same. unfold s1.
      now rewrite connections_run_callbacks, connections_host_update. }
    destruct (status_bounded _ _ _ _ _ _ _ Hst1) as [Hb1 Hneat].
    pose proof (sane_deliver e (All ps) s1 (neat_All _ _ Hneat) Hb1 Hs1) as Hs2.
    destruct (deliver_inert e (All ps) s1) as [_ [En2 Ed2]].
    { constructor. clear - Hst1. induction Hst1 as [|name q names ps Hq _ IH]; constructor; auto.
      unfold status in Hq. destruct (got name); [subst q; constructor|].
      destruct Hq as (k & -> & _). apply inert_child_wait. }
    destruct (deliver_until_hears parent recursive d got e names ps s1 Hg) as [H2 _]; auto.
    { now rewrite Hn1. }
    destruct (deliver_until_orderly is_rejected e ps) with (s := s1) as (_ & _ & W); auto.
    { apply Forall_forall. intros p _. apply deliver_orderly. }
    { eapply Forall2_waits_for_tidy, Forall2_status_waits_for; eauto. }
    cbv zeta in H2.
    rewrite deliver_AndThen. rewrite deliver_All, bind_run in *.
    set (ps' := fst (deliver_until is_rejected e ps s1)) in *.
    set (s2 := snd (deliver_until is_rejected e ps s1)) in *.
    destruct (gather (hears parent recursive got e) names) as [children|] eqn:Eg'.
    + rewrite (status_gathered _ _ _ _ _ _ _ children H2 Eg') in *.
      rewrite all_resolved in *. cbn [ret fst snd Promise.andThen] in *.
      destruct (check_destroyed_kept (VArray (map VInstance children)) s2)
        as (E1 & E2 & E3 & E4); [congruence | exact Hs2|].
      rewrite E1, E4. repeat split; auto. congruence.
    + destruct (status_missing _ _ _ _ _ _ _ H2 Eg') as [Ev Er].
      unfold Promise.all in *. rewrite Er, Ev in *. cbn [ret fst snd Promise.andThen] in *.
      split; [|congruence].
      split; [congruence|]. split; [exact Hs2|].
      exists ps'. split; [reflexivity|]. split; [exact H2 | now apply W].
Qed.

Lemma elapsed_nonneg evs : Forall forward evs -> 0 <= elapsed evs.
Proof.
  induction 1 as [|e evs He _ IH]; simpl; [apply Qle_refl|].
  destruct e; auto. simpl in He.
  replace 0 with (0 + 0) by reflexivity. now apply Qplus_le_compat.
Qed.

Lemma gathering_run parent recursive d names evs : forall got p s,
  gathering parent recursive d names got s p ->
  Forall gentle evs -> Forall forward evs ->
  now s + elapsed evs < d ->
  gathering parent recursive d names (fold_left (hears parent recursive) evs got)
    (snd (run evs (p, s))) (fst (run evs (p, s))).
Proof.
  induction evs as [|e evs IH]; intros got p s H Hg Hf Ht; [exact H|].
  inversion Hg as [|? ? Hg1 Hg2]; subst. inversion Hf as [|? ? Hf1 Hf2]; subst.
  pose proof (elapsed_nonneg evs Hf2) as Hpos.
  rewrite run_cons. cbn [fold_left].
  destruct (gathering_step parent recursive d names got e p s H Hg1) as [H1 Hn1].
  { destruct e; try reflexivity. cbn [triggers time_after].
    destruct (Qle_bool (now s + dt) d) eqn:Eq; [reflexivity|].
    exfalso. apply Qle_bool_false in Eq. simpl in Ht.
    apply (Qlt_irrefl d). eapply Qlt_trans; [exact Eq|].
    eapply Qle_lt_trans; [|exact Ht].
    rewrite <- (Qplus_0_r (now s + dt)), <- Qplus_assoc.
    apply Qplus_le_r. apply Qplus_le_r. exact Hpos. }
  destruct (step e (p, s)) as [p1 s1]. cbn [fst snd] in *.
  apply IH; auto.
  rewrite Hn1. destruct e; simpl in *; auto.
  now rewrite <- Qplus_assoc.
Qed.

Lemma sane_app s s' more :
  connections s' = connections s ++ more ->
  Forall (fun cn => handler cn = SetDestroyed -> exists u, signal cn = SigDestroying u) more ->
  sane s -> sane s'.
Proof.
  intros E Hm Hs i Hi.
  destruct (Nat.le_gt_cases (List.length (connections s)) i) as [Hge | Hlt].
  - unfold proper_at. unfold is_connected in Hi. rewrite E in *.
    rewrite nth_error_app2 in * by exact Hge.
    destruct (nth_error more (i - List.length (connections s))) as [cn|] eqn:En;
      [|discriminate].
    rewrite Forall_forall in Hm. apply Hm. eapply nth_error_In; eauto.
  - apply (proper_at_app s s' more i E). apply Hs.
    unfold is_connected in *. rewrite E, nth_error_app1 in Hi by exact Hlt. exact Hi.
Qed.

Lemma children_status parent recursive timeout names : forall s,
  sane s ->
  let r := mapM (wait_and_watch parent recursive timeout) names s in
  Forall2 (status parent recursive (now s + Promise.delay_time timeout)
             (fun name => FindFirstChild parent name recursive) (snd r)) names (fst r) /\
  sane (snd r) /\ destroyed (snd r) = destroyed s.
Proof.
  induction names as [|name names IH]; intros s Hs; cbv zeta.
  - simpl. split; [constructor | auto].
  - rewrite mapM_cons.
    destruct (wait_and_watch_armed parent recursive timeout name s) as (_ & _ & _ & H4).
    pose proof (wait_and_watch_cases parent recursive timeout name s) as Hq.
    cbv zeta in Hq.
    set (q := fst (wait_and_watch parent recursive timeout name s)) in *.
    set (s1 := snd (wait_and_watch parent recursive timeout name s)) in *.
    assert (H1 : status parent recursive (now s + Promise.delay_time timeout)
                   (fun name => FindFirstChild parent name recursive) s1 name q /\
                 sane s1 /\ destroyed s1 = destroyed s).
    { unfold q, s1, status. rewrite Hq.
      destruct (FindFirstChild parent name recursive) as [child|]; cbn [fst snd].
      - split; [reflexivity|]. split; [|reflexivity].
        eapply (sane_app s _ [watch true child]); [reflexivity| |exact Hs].
        repeat constructor. intros _. eexists. reflexivity.
      - split; [|split; [|reflexivity]].
        + eexists. split; [reflexivity|]. unfold standing.
          apply (is_connected_made (connections s) _ _ _ (set_connections _ s) eq_refl);
            reflexivity.
        + eapply (sane_app s); [reflexivity| |exact Hs].
          repeat constructor; discriminate. }
    destruct H1 as (Hq1 & Hs1 & Hd1).
    destruct (IH s1 Hs1) as (H2 & Hs2 & Hd2). rewrite H4 in H2.
    destruct (children_armed parent recursive timeout names s1)
      as (_ & _ & _ & (more & C2) & _ & _).
    cbn [fst snd]. split; [|split; [exact Hs2 | congruence]].
    constructor; [|exact H2].
    eapply (status_frame _ _ _ _ [] s1); eauto.
    eapply frame_app; eauto.
Qed.

Lemma waitForChildren_gathering parent names recursive timeout s :
  sane s ->
  let r := waitForChildren parent names recursive timeout s in
  gathering parent (default false recursive) (now s + Promise.delay_time (default DEFAULT_TIMEOUT timeout)) names
    (fun name => FindFirstChild parent name (default false recursive)) (snd r) (fst r) /\
  now (snd r) = now s.
Proof.
  intros Hs. cbv zeta. rewrite waitForChildren_eq, bind_run.
  set (s0 := set_destroyed false (set_destroying [] s)).
  assert (Hs0 : sane s0) by exact Hs.
  destruct (children_status parent (default false recursive)
              (default DEFAULT_TIMEOUT timeout) names s0 Hs0) as (Hst & Hs1 & Hd1).
  destruct (children_armed parent (default false recursive)
              (default DEFAULT_TIMEOUT timeout) names s0) as (_ & Hn & _ & _ & _ & Hn1).
  cbv zeta in Hst.
  set (ps := fst (mapM _ names s0)) in *. set (s1 := snd (mapM _ names s0)) in *.
  change (now s0) with (now s) in *. change (destroyed s0) with false in Hd1.
  unfold finish, gathering. rewrite bind_run.
  destruct (gather (fun name => FindFirstChild parent name (default false recursive)) names)
    as [children|] eqn:Eg.
  - rewrite (status_gathered _ _ _ _ _ _ _ children Hst Eg).
    rewrite all_resolved. cbn [ret fst snd Promise.andThen].
    destruct (check_destroyed_kept (VArray (map VInstance children)) s1 Hd1 Hs1)
      as (E1 & E2 & E3 & E4).
    rewrite E1, E4. auto.
  - destruct (status_missing _ _ _ _ _ _ _ Hst Eg) as [Ev Er].
    unfold Promise.all. rewrite Er, Ev. cbn [ret fst snd Promise.andThen].
    split; [|exact Hn1]. split; [exact Hd1|]. split; [exact Hs1|].
    exists ps. auto.
Qed.

(** X12.  Let the closures of the batches that are connected in the host
    be connected to [Destroying] signals, as the module connects them, let
    nothing be destroyed, and let the events take less time than the
    timeout.  Then the promise of [waitForChildren] is resolved exactly
    when each name has its child, found by the call or heard since, and it
    is resolved with the children in the order of the names: for each name
    the child found by the call or else the first heard. *)
Theorem waitForChildren_gathers_the_children
    (parent : Instance) (childrenNames : list string) (recursive : option bool)
    (timeout : option Q) (s : env) (evs : list event) :
  sane s ->
  Forall gentle evs -> Forall forward evs ->
  elapsed evs < default DEFAULT_TIMEOUT timeout ->
  outcome_of (fst (run evs (waitForChildren parent childrenNames recursive timeout s))) =
    match gather (seen parent (default false recursive) evs) childrenNames with
    | Some children => Fulfilled (VArray (map VInstance children))
    | None => Pending
    end.
Proof.
  intros Hs Hg Hf Ht.
  destruct (waitForChildren_gathering parent childrenNames recursive timeout s Hs)
    as [H0 Hn0].
  destruct (waitForChildren parent childrenNames recursive timeout s) as [p s0].
  cbn [fst snd] in *.
  pose proof (gathering_run parent (default false recursive)
                (now s + Promise.delay_time (default DEFAULT_TIMEOUT timeout)) childrenNames evs _ p s0 H0 Hg Hf)
    as H.
  destruct H as (_ & _ & H).
  { rewrite Hn0. apply Qplus_lt_r.
    eapply Qlt_le_trans; [exact Ht | apply delay_time_le]. }
  unfold seen.
  destruct (gather _ childrenNames) as [children|].
  - rewrite H. reflexivity.
  - destruct H as (ps & -> & _). reflexivity.
Qed.

Lemma waitForChildren_gathers_the_children_witness :
  let evs := [EElapse 2; EChildAdded (uid vehicle) RightWheel] in
  outcome_of (fst (run evs (waitForChildren vehicle ["RightWheel"; "LeftWheel"]
                              None None (fresh 0)))) =
    match gather (seen vehicle (default false None) evs) ["RightWheel"; "LeftWheel"] with
    | Some children => Fulfilled (VArray (map VInstance children))
    | None => Pending
    end.
Proof.
  cbv zeta.
  apply (waitForChildren_gathers_the_children vehicle ["RightWheel"; "LeftWheel"]
           None None (fresh 0) [EElapse 2; EChildAdded (uid vehicle) RightWheel]).
  - intros i Hi. destruct i; discriminate.
  - repeat constructor.
  - repeat constructor; discriminate.
  - reflexivity.
Defined.

(** The right wheel turns up two seconds after the call, which had found
    the left one: the batch resolves then, with the wheels in the order of
    the names. *)
Example wheels_in_the_order_of_the_names :
  outcome_of (fst (run [EElapse 2; EChildAdded (uid vehicle) RightWheel]
                     (waitForChildren vehicle ["RightWheel"; "LeftWheel"]
                        None None (fresh 0))))
  = Fulfilled (VArray [VInstance RightWheel; VInstance LeftWheel]).
Proof. reflexivity. Qed.

(** ** The value of a resolved wait *)

Lemma run_snoc evs e st : run (evs ++ [e]) st = step e (run evs st).
Proof. unfold run. now rewrite fold_left_app. Qed.

(** A wait on a property resolves with an instance. *)
Lemma property_value c s p s0 evs : forall v,
  (exists model timeout, c = CallWaitForPrimaryPart model timeout) \/
  (exists holder timeout, c = CallWaitForObjectValue holder timeout) ->
  perform c s = (Normal p, s0) ->
  fst (run evs (p, s0)) = Resolved v ->
  exists i, v = VInstance i.
Proof.
  intros v Hc E. revert v.
  induction evs as [|e evs IH] using rev_ind; intros v Hr.
  - cbn [run fold_left fst] in Hr. subst p.
    destruct Hc as [(model & timeout & ->) | (holder & timeout & ->)];
      cbn [perform] in E; apply perform_normally in E.
    + unfold waitForPrimaryPart in E. rewrite bind_run in E.
      cbn [PrimaryPart gets fst snd] in E.
      destruct (primaryPart s (uid model)) as [part|].
      * inversion E. eauto.
      * rewrite property_wait_eq in E. discriminate.
    + unfold waitForObjectValue in E. rewrite bind_run in E.
      cbn [Value gets fst snd] in E.
      destruct (objectValue s (uid holder)) as [i|].
      * inversion E. eauto.
      * rewrite property_wait_eq in E. discriminate.
  - rewrite run_snoc in Hr.
    destruct (is_pending (fst (run evs (p, s0)))) eqn:Ep.
    + assert (Hs : is_single c = true /\ exists i, container c = Some i).
      { destruct Hc as [(model & timeout & ->) | (holder & timeout & ->)];
          simpl; eauto. }
      destruct Hs as [Hs (i & Hi)].
      rewrite (single_wait_step c i s p s0 evs e Hs Hi E Ep) in Hr.
      destruct (triggers e _ (SigTimer _)); [discriminate|].
      destruct (answer c e _) as [w|] eqn:Ea.
      * inversion Hr; subst w. clear Hr.
        destruct Hc as [(model & timeout & ->) | (holder & timeout & ->)];
          cbn [answer] in Ea; unfold accepted in Ea.
        -- destruct (triggers e _ _) as [args|]; [|discriminate].
           unfold PrimaryPart, bind, gets, ret in Ea. cbn [fst snd] in Ea.
           destruct (primaryPart _ (uid model)) as [part|]; [|discriminate].
           inversion Ea. eauto.
        -- destruct (triggers e _ (Changed holder)) as [args|] eqn:Et; [|discriminate].
           unfold ret in Ea. cbn [fst] in Ea.
           destruct e; try discriminate. cbn [triggers Changed] in Et.
           destruct (Nat.eqb holder0 (uid holder)) eqn:Eb; [|discriminate].
           apply Nat.eqb_eq in Eb. subst holder0. inversion Et; subst args.
           rewrite objectValue_host in Ea.
           destruct v0; [|discriminate]. inversion Ea. eauto.
      * destruct (triggers e _ (Destroying i)); [discriminate|].
        rewrite Hr in Ep. discriminate.
    + unfold is_pending in Ep. apply negb_false_iff in Ep.
      destruct (run evs (p, s0)) as [p1 s1]. cbn [fst] in *.
      rewrite step_settled in Hr by exact Ep. cbn [fst] in Hr. now apply IH.
Qed.

(** X13.  Whatever the events, a promise that is resolved holds what its
    call awaited: an instance of the name, of the superclass or of the
    class; the instances of the names, in their order; an instance, for
    the waits on a property; a value that is not [undefined], for
    [waitForCustom]. *)
Theorem resolved_wait_holds_what_was_awaited
    (c : call) (s : env) (p : promise) (s0 : env) (evs : list event) (v : value) :
  perform c s = (Normal p, s0) ->
  fst (run evs (p, s0)) = Resolved v ->
  awaited c v.
Proof.
  intros E Hr.
  assert (Hpost : post_of c (snd (run evs (p, s0))) v).
  { pose proof (perform_good (fun _ => True) c s (fun _ _ => I)) as Hg.
    rewrite E in Hg. cbn [fst snd] in Hg. destruct Hg as [Hg _].
    destruct (run_good (fun _ => True) evs c p s0 (Forall_keeps_time_True evs) Hg)
      as [H1 _].
    rewrite Hr in H1. now apply good_Resolved in H1. }
  destruct c; try exact Hpost.
  - eapply (property_value _ s p s0 evs v); [left; eauto | exact E | exact Hr].
  - eapply (property_value _ s p s0 evs v); [right; eauto | exact E | exact Hr].
Qed.

Lemma resolved_wait_holds_what_was_awaited_witness :
  awaited (CallWaitForPrimaryPart character None) (VInstance Torso).
Proof.
  apply (resolved_wait_holds_what_was_awaited
           (CallWaitForPrimaryPart character None) (fresh 0)
           (fst (waitForPrimaryPart character None (fresh 0)))
           (snd (waitForPrimaryPart character None (fresh 0)))
           [ESetPrimaryPart (uid character) None; EElapse 5;
            ESetPrimaryPart (uid character) (Some Torso); EDestroying (uid character)]);
    reflexivity.
Defined.

(** ** [watchDestroying] over a decided promise *)

Lemma cancel_settled p s : is_settled p = true -> cancel p s = (tt, s).
Proof. destruct p; try discriminate; reflexivity. Qed.

(** X14.  Over a promise that is already resolved or rejected,
    [watchDestroying] gives that promise, and the listener it has
    connected to the instance's [Destroying] is disconnected when it
    returns. *)
Theorem watchDestroying_of_a_decided_promise
    (instance : Instance) (p : promise) (s : env) :
  is_decided p = true ->
  fst (watchDestroying instance p s) = p /\
  connections (snd (watchDestroying instance p s)) =
    connections s ++ [mkConnection (Destroying instance) PromiseListener false].
Proof.
  intros Hd. unfold watchDestroying. rewrite bind_run.
  change (Promise.fromEvent (Destroying instance) (fun _ => ret true) s)
    with (Listening (List.length (connections s)) (Destroying instance)
            (Promise.on_firing (List.length (connections s)) (fun _ => ret true)),
          snd (Connect (Destroying instance) PromiseListener s)).
  cbn [fst snd]. rewrite bind_run. cbn [Promise.andThen ret fst snd].
  rewrite (race_decided _ p) by (destruct p; try discriminate; reflexivity).
  split; [reflexivity|].
  rewrite !cancel_each_cons. rewrite (cancel_settled p) by now apply decided_settled.
  cbn [snd cancel cancel_each forM_ ret]. rewrite Disconnect_eq.
  cbn [snd connections set_connections Connect].
  apply (set_nth_app_here off (connections s)).
Qed.

Lemma watchDestroying_of_a_decided_promise_witness :
  fst (watchDestroying vehicle (Resolved (VInstance LeftWheel)) (fresh 0))
    = Resolved (VInstance LeftWheel) /\
  connections (snd (watchDestroying vehicle (Resolved (VInstance LeftWheel)) (fresh 0))) =
    connections (fresh 0) ++ [mkConnection (Destroying vehicle) PromiseListener false].
Proof.
  apply (watchDestroying_of_a_decided_promise vehicle (Resolved (VInstance LeftWheel))
           (fresh 0)).
  reflexivity.
Defined.

(** * The batch and the timeout, whatever happens *)

(** ** The children of the batch *)

(** The child a wait has for a name bears that name. *)
Lemma heard_named parent recursive name e c :
  heard parent recursive name e = Some c -> Name c = name.
Proof.
  unfold heard. destruct e; try discriminate;
    match goal with |- context [if ?b then _ else _] => destruct b eqn:Eb end;
    try discriminate; intros H; inversion H; subst;
    apply andb_true_iff in Eb; destruct Eb as [_ Eb]; now apply String.eqb_eq.
Qed.

Lemma seen_named parent recursive evs name c :
  seen parent recursive evs name = Some c -> Name c = name.
Proof.
  unfold seen.
  assert (H : forall got : string -> option Instance,
             (forall n i, got n = Some i -> Name i = n) ->
             forall n i, fold_left (hears parent recursive) evs got n = Some i -> Name i = n).
  { induction evs as [|e evs IH]; intros got Hgot n i; [apply Hgot|].
    cbn [fold_left]. apply IH. clear n i. intros n i. unfold hears.
    destruct (got n) as [j|] eqn:Ej.
    - intros Hj. inversion Hj; subst. now apply Hgot.
    - apply heard_named. }
  apply H. intros n i Hf. unfold FindFirstChild in Hf.
  apply find_some in Hf. destruct Hf as [_ Hf]. now apply String.eqb_eq.
Qed.

Lemma gather_named (got : string -> option Instance) names :
  (forall n i, got n = Some i -> Name i = n) ->
  forall children, gather got names = Some children -> map Name children = names.
Proof.
  intros Hgot. induction names as [|name names IH]; intros children H.
  - simpl in H. inversion H. reflexivity.
  - rewrite gather_cons in H. destruct (got name) as [c|] eqn:Ec; [|discriminate].
    destruct (gather got names) as [cs|]; [|discriminate].
    inversion H; subst. simpl. rewrite (Hgot _ _ Ec), (IH cs eq_refl). reflexivity.
Qed.

(** The children of a batch at the call: found, or waited for. *)
Lemma children_found parent recursive timeout names : forall s,
  let r := mapM (wait_and_watch parent recursive timeout) names s in
  Forall2 (status parent recursive (now s + Promise.delay_time timeout)
             (fun name => FindFirstChild parent name recursive) (snd r)) names (fst r).
Proof.
  induction names as [|name names IH]; intros s; cbv zeta.
  - simpl. constructor.
  - rewrite mapM_cons.
    destruct (wait_and_watch_armed parent recursive timeout name s) as (_ & _ & _ & H4).
    pose proof (wait_and_watch_cases parent recursive timeout name s) as Hq.
    cbv zeta in Hq.
    set (q := fst (wait_and_watch parent recursive timeout name s)) in *.
    set (s1 := snd (wait_and_watch parent recursive timeout name s)) in *.
    assert (Hq1 : status parent recursive (now s + Promise.delay_time timeout)
                    (fun name => FindFirstChild parent name recursive) s1 name q).
    { unfold q, s1, status. rewrite Hq.
      destruct (FindFirstChild parent name recursive) as [child|]; cbn [fst snd].
      - reflexivity.
      - eexists. split; [reflexivity|]. unfold standing.
        apply (is_connected_made (connections s) _ _ _ (set_connections _ s) eq_refl);
          reflexivity. }
    pose proof (IH s1) as H2. cbv zeta in H2. rewrite H4 in H2.
    destruct (children_armed parent recursive timeout names s1)
      as (_ & _ & _ & (more & C2) & _ & _).
    cbn [fst snd]. constructor; [|exact H2].
    eapply (status_frame _ _ _ _ [] s1); eauto.
    eapply frame_app; eauto.
Qed.

(** The loop of [Promise.all] over the children, on any event: a child is
    rejected, or each child that hears its name is resolved with what it
    hears, and the others are as they were. *)
Lemma deliver_until_heard parent recursive d got e names : forall ps s,
  Forall2 (status parent recursive d got s) names ps ->
  NoDup (flat_map ids ps) ->
  let r := deliver_until is_rejected e ps s in
  (exists err, first_rejected (fst r) = Some err) \/
  Forall2 (status parent recursive d (hears parent recursive got e) (snd r)) names (fst r).
Proof.
  induction names as [|name names IH]; intros ps s H Hn;
    inversion H as [|? q ? r Hq Hr]; subst; cbv zeta.
  - simpl. right. constructor.
  - pose proof (Forall2_waits_for_tidy _ _ _ _ _ _ (Forall2_status_waits_for _ _ _ _ _ _ _ H))
      as Htidy.
    inversion Htidy as [|? ? Tq Tr]; subst. simpl in Hn.
    pose proof (NoDup_app_remove_l _ _ Hn) as Nr.
    pose proof (NoDup_app_disjoint _ _ Hn) as Dqr.
    destruct (deliver_orderly e q s Tq) as (_ & F1 & W1).
    assert (Hq1 : is_rejected (fst (deliver e q s)) = true \/
                  (is_rejected (fst (deliver e q s)) = false /\
                   first_rejected [fst (deliver e q s)] = None /\
                   status parent recursive d (hears parent recursive got e)
                     (snd (deliver e q s)) name (fst (deliver e q s)))).
    { unfold status, hears in *. destruct (got name) as [c|].
      - subst q. simpl. right. repeat split.
      - destruct Hq as (k & -> & Hs).
        destruct (child_wait_deliver k parent recursive name d e s Hs) as [H1 H2].
        rewrite accepted_heard in H1.
        destruct (triggers e (now s) (SigTimer d)); [left; now rewrite H1|].
        destruct (heard parent recursive name e) as [c|]; cbn [option_map] in H1.
        + right. rewrite H1. repeat split.
        + destruct (triggers e (now s) (Destroying parent)); [left; now rewrite H1|].
          right. rewrite (H2 ltac:(rewrite H1; reflexivity)).
          cbn [fst snd]. split; [reflexivity|]. split; [reflexivity|]. eauto. }
    rewrite deliver_until_cons.
    destruct Hq1 as [Hrej | (Hrej & Hfirst & Hq1)]; rewrite Hrej; cbn [fst snd].
    + left. destruct (fst (deliver e q s)); try discriminate. eexists. reflexivity.
    + assert (Hr1 : Forall2 (status parent recursive d got (snd (deliver e q s))) names r).
      { eapply Forall2_status_frame; eauto. intros i Hi Hi'. apply (Dqr i); auto. }
      destruct (IH r (snd (deliver e q s)) Hr1 Nr) as [(err & He) | H2].
      * left. exists err.
        destruct (fst (deliver e q s)); simpl in *; try discriminate; exact He.
      * right.
        destruct (deliver_until_orderly is_rejected e r) with (s := snd (deliver e q s))
          as (_ & F2 & _); auto.
        { apply Forall_forall. intros p _. apply deliver_orderly. }
        constructor; [|exact H2].
        eapply status_frame; eauto.
        intros i Hi Hi'. apply (Dqr i); auto. now apply W1.
Qed.

Lemma all_rejected ps err s :
  first_rejected ps = Some err -> fst (Promise.all ps s) = Rejected err.
Proof. intros H. unfold Promise.all. rewrite H, bind_run. reflexivity. Qed.

(** One event on a batch, whatever the event. *)
Lemma collecting_step parent recursive d names got e p s :
  collecting parent recursive d names got s p ->
  collecting parent recursive d names (hears parent recursive got e)
    (snd (step e (p, s))) (fst (step e (p, s))).
Proof.
  intros [Hrej | [(children & Hg & ->) | (ps & -> & Hst & Hn)]].
  - rewrite step_settled by (destruct p; try discriminate; reflexivity). now left.
  - rewrite step_settled by reflexivity. right. left. exists children.
    split; [now apply gather_hears | reflexivity].
  - unfold step. cbn [fst snd].
    set (s1 := run_callbacks e (host_update e s)).
    assert (Hst1 : Forall2 (status parent recursive d got s1) names ps).
    { apply Forall2_status_frame with (own := []) (s := s); auto.
      apply frame_same. unfold s1.
      now rewrite connections_run_callbacks, connections_host_update. }
    pose proof (deliver_until_heard parent recursive d got e names ps s1 Hst1 Hn) as H2.
    destruct (deliver_until_orderly is_rejected e ps) with (s := s1) as (_ & _ & W); auto.
    { apply Forall_forall. intros p _. apply deliver_orderly. }
    { eapply Forall2_waits_for_tidy, Forall2_status_waits_for; eauto. }
    cbv zeta in H2.
    rewrite deliver_AndThen, deliver_All, bind_run.
    set (ps' := fst (deliver_until is_rejected e ps s1)) in *.
    set (s2 := snd (deliver_until is_rejected e ps s1)) in *.
    destruct H2 as [(err & He) | H2].
    { left. pose proof (all_rejected ps' err s2 He) as Ha.
      destruct (Promise.all ps' s2) as [q s3]. cbn [fst snd] in *. subst q. reflexivity. }
    destruct (gather (hears parent recursive got e) names) as [children|] eqn:Eg'.
    + rewrite (status_gathered _ _ _ _ _ _ _ children H2 Eg').
      rewrite all_resolved. cbn [ret fst snd Promise.andThen].
      rewrite check_destroyed_eq. cbn [fst snd].
      destruct (destroyed s2); [now left|].
      right. left. exists children. auto.
    + destruct (status_missing _ _ _ _ _ _ _ H2 Eg') as [Ev Er].
      unfold Promise.all. rewrite Er, Ev. cbn [ret fst snd Promise.andThen].
      right. right. exists ps'. split; [reflexivity|]. split; [exact H2 | now apply W].
Qed.

Lemma collecting_run parent recursive d names evs : forall got p s,
  collecting parent recursive d names got s p ->
  collecting parent recursive d names (fold_left (hears parent recursive) evs got)
    (snd (run evs (p, s))) (fst (run evs (p, s))).
Proof.
  induction evs as [|e evs IH]; intros got p s H; [exact H|].
  rewrite run_cons. cbn [fold_left].
  pose proof (collecting_step parent recursive d names got e p s H) as H1.
  destruct (step e (p, s)) as [p1 s1]. now apply IH.
Qed.

Lemma waitForChildren_collecting parent names recursive timeout s :
  let r := waitForChildren parent names recursive timeout s in
  collecting parent (default false recursive)
    (now s + Promise.delay_time (default DEFAULT_TIMEOUT timeout)) names
    (fun name => FindFirstChild parent name (default false recursive)) (snd r) (fst r).
Proof.
  cbv zeta. rewrite waitForChildren_eq, bind_run.
  set (s0 := set_destroyed false (set_destroying [] s)).
  pose proof (children_found parent (default false recursive)
                (default DEFAULT_TIMEOUT timeout) names s0) as Hst.
  destruct (children_armed parent (default false recursive)
              (default DEFAULT_TIMEOUT timeout) names s0) as (_ & Hn & _).
  cbv zeta in Hst.
  set (ps := fst (mapM _ names s0)) in *. set (s1 := snd (mapM _ names s0)) in *.
  change (now s0) with (now s) in *.
  unfold finish, collecting. rewrite bind_run.
  destruct (gather (fun name => FindFirstChild parent name (default false recursive)) names)
    as [children|] eqn:Eg.
  - rewrite (status_gathered _ _ _ _ _ _ _ children Hst Eg).
    rewrite all_resolved. cbn [ret fst snd Promise.andThen].
    rewrite check_destroyed_eq. cbn [fst snd].
    destruct (destroyed s1); [now left|].
    right. left. exists children. auto.
  - destruct (status_missing _ _ _ _ _ _ _ Hst Eg) as [Ev Er].
    unfold Promise.all. rewrite Er, Ev. cbn [ret fst snd Promise.andThen].
    right. right. exists ps. auto.
Qed.

(** C4.  When the promise of [waitForChildren] is resolved, after any
    events, its value is the array of the children of the names, in the
    order of the names: the [i]-th element is the child the wait has for
    the [i]-th name, the one found at the call or else the first one that
    the parent's [ChildAdded] (its [DescendantAdded] if [recursive] is set)
    has passed with that name, whatever the order in which the children
    turned up; and it bears the [i]-th name. *)
Theorem waitForChildren_resolves_in_the_order_of_the_names
    (parent : Instance) (childrenNames : list string)
    (recursive : option bool) (timeout : option Q)
    (s : env) (evs : list event) (v : value) :
  fst (run evs (waitForChildren parent childrenNames recursive timeout s)) = Resolved v ->
  exists children,
    v = VArray (map VInstance children) /\
    gather (seen parent (default false recursive) evs) childrenNames = Some children /\
    map Name children = childrenNames.
Proof.
  intros H.
  pose proof (waitForChildren_collecting parent childrenNames recursive timeout s) as H0.
  cbv zeta in H0.
  destruct (waitForChildren parent childrenNames recursive timeout s) as [p s0].
  cbn [fst snd] in *.
  pose proof (collecting_run _ _ _ _ evs _ p s0 H0) as H1.
  rewrite H in H1.
  destruct H1 as [Hrej | [(children & Hg & Hv) | (ps & Hp & _)]];
    [discriminate| |discriminate].
  inversion Hv; subst v. exists children. split; [reflexivity|]. split; [exact Hg|].
  eapply gather_named; [|exact Hg]. intros n i. apply seen_named.
Qed.

(** The wheels are put in the garage the left one first; the names ask
    for the right one first. *)
Lemma waitForChildren_resolves_in_the_order_of_the_names_witness :
  let evs := [EChildAdded (uid garage) LeftWheel; EElapse 2;
              EChildAdded (uid garage) RightWheel] in
  fst (run evs (waitForChildren garage ["RightWheel"; "LeftWheel"] None None (fresh 0)))
    = Resolved (VArray [VInstance RightWheel; VInstance LeftWheel]) /\
  exists children,
    VArray [VInstance RightWheel; VInstance LeftWheel] = VArray (map VInstance children) /\
    gather (seen garage (default false None) evs) ["RightWheel"; "LeftWheel"]
      = Some children /\
    map Name children = ["RightWheel"; "LeftWheel"].
Proof.
  cbv zeta. split; [reflexivity|].
  apply (waitForChildren_resolves_in_the_order_of_the_names
           garage ["RightWheel"; "LeftWheel"] None None (fresh 0)
           [EChildAdded (uid garage) LeftWheel; EElapse 2;
            EChildAdded (uid garage) RightWheel]).
  reflexivity.
Defined.

(** ** The clock *)















(** ** The passing of time on a pending promise *)

(** X8.  While the promise of a call is pending, the passing of time
    leaves it as it is if the clock is then not past the deadline, and
    rejects it with [TimedOut] if it is.  The deadline is the time of the
    call plus the time of the delay: the timeout, given or not, or a
    sixtieth of a second for a timeout that is less. *)
Theorem passing_of_time_rejects_past_the_deadline_only
    (c : call) (s : env) (p : promise) (s0 : env) (evs : list event) (dt : Q) :
  perform c s = (Normal p, s0) ->
  is_pending (fst (run evs (p, s0))) = true ->
  fst (step (EElapse dt) (run evs (p, s0))) =
    if Qle_bool (now (snd (run evs (p, s0))) + dt)
                (now s + Promise.delay_time (timeout_of c))
    then fst (run evs (p, s0))
    else Rejected TimedOut.
Proof. exact (elapse_step c s p s0 evs dt). Qed.

(** A batch with a timeout of 45 seconds, 30 seconds after the call: 15
    seconds more leave it pending, 16 reject it.  With a timeout of 0 the
    deadline is a sixtieth of a second after the call. *)
Lemma passing_of_time_rejects_past_the_deadline_only_witness :
  let c := CallWaitForChildren vehicle ["LeftWheel"; "RightWheel"] None (Some 45) in
  let st := run [EElapse 30] (fst (waitForChildren vehicle ["LeftWheel"; "RightWheel"]
                                     None (Some 45) (fresh 0)),
                              snd (perform c (fresh 0))) in
  let c0 := CallWaitForChild vehicle "RightWheel" None (Some 0) in
  let st0 := run [] (fst (waitForChild vehicle "RightWheel" None (Some 0) (fresh 0)),
                     snd (perform c0 (fresh 0))) in
  fst (step (EElapse 15) st) = fst st /\
  fst (step (EElapse 16) st) = Rejected TimedOut /\
  fst (step (EElapse (1 # 60)) st0) = fst st0 /\
  fst (step (EElapse (1 # 50)) st0) = Rejected TimedOut.
Proof.
  cbv zeta. split; [|split; [|split]].
  - exact (passing_of_time_rejects_past_the_deadline_only
             (CallWaitForChildren vehicle ["LeftWheel"; "RightWheel"] None (Some 45))
             (fresh 0)
             (fst (waitForChildren vehicle ["LeftWheel"; "RightWheel"] None (Some 45)
                     (fresh 0)))
             (snd (waitForChildren vehicle ["LeftWheel"; "RightWheel"] None (Some 45)
                     (fresh 0)))
             [EElapse 30] 15 eq_refl eq_refl).
  - exact (passing_of_time_rejects_past_the_deadline_only
             (CallWaitForChildren vehicle ["LeftWheel"; "RightWheel"] None (Some 45))
             (fresh 0)
             (fst (waitForChildren vehicle ["LeftWheel"; "RightWheel"] None (Some 45)
                     (fresh 0)))
             (snd (waitForChildren vehicle ["LeftWheel"; "RightWheel"] None (Some 45)
                     (fresh 0)))
             [EElapse 30] 16 eq_refl eq_refl).
  - exact (passing_of_time_rejects_past_the_deadline_only
             (CallWaitForChild vehicle "RightWheel" None (Some 0)) (fresh 0)
             (fst (waitForChild vehicle "RightWheel" None (Some 0) (fresh 0)))
             (snd (waitForChild vehicle "RightWheel" None (Some 0) (fresh 0)))
             [] (1 # 60) eq_refl eq_refl).
  - exact (passing_of_time_rejects_past_the_deadline_only
             (CallWaitForChild vehicle "RightWheel" None (Some 0)) (fresh 0)
             (fst (waitForChild vehicle "RightWheel" None (Some 0) (fresh 0)))
             (snd (waitForChild vehicle "RightWheel" None (Some 0) (fresh 0)))
             [] (1 # 50) eq_refl eq_refl).
Defined.

(** ** The default timeout *)


